(** * Pytteliten minifier: a shallow embedding of [minifier/minifier.py]

    The development follows the source top-down: character classes and
    token predicates, the tokenizer, the grouper, the stripper, the symbol
    analyzer [get_stats], the intermediate renamer [get_ir_renames] and
    [to_ir], the frequency table, the name generator and the emitter of
    [minify].  Theorems come after all definitions.

    Modelling conventions.
    - A Python [str] is a [string]; a character is one of the 256 code
      points of [ascii], classified as Python classifies the code points
      U+0000..U+00FF.  Text with code points above U+00FF is outside the
      model.
    - A Python [dict] is an association list in insertion order
      ([dict_set] overwrites in place or appends), because the source
      iterates over its dictionaries and sorts them stably.
    - Python integers are [Z] where the source subtracts ([scope_change])
      and [nat] where it only counts.
    - Code that can raise returns a [result]; the two exceptions reachable
      in the core are [IndexError] and [KeyError].  The one loop of the
      source that is not bounded by its input, the [while] of
      [group_tokens], runs on fuel. *)

From Stdlib Require Import List String Ascii Bool Arith PeanoNat ZArith Lia.
From Stdlib Require Import Permutation Sorted DecimalString.
Import ListNotations.

Open Scope string_scope.
Open Scope list_scope.
Open Scope nat_scope.

(* ================================================================== *)
(** ** Errors *)

(** [IndexError] and [KeyError] are the two exceptions the core can raise;
    [Diverges] stands for a loop of the source that never ends, which the
    model reports when its fuel runs out. *)
Inductive error : Type :=
| IndexError
| KeyError
| Diverges.

Inductive result (A : Type) : Type :=
| Ok (a : A)
| Raise (e : error).

Arguments Ok {A} a.
Arguments Raise {A} e.

Definition bind {A B : Type} (m : result A) (k : A -> result B) : result B :=
  match m with
  | Ok a => k a
  | Raise e => Raise e
  end.

Notation "x <- m ;; k" := (bind m (fun x => k))
  (at level 61, m at next level, right associativity).
Notation "' p <- m ;; k" := (bind m (fun x => let p := x in k))
  (at level 61, p pattern, m at next level, right associativity).

Definition of_option {A : Type} (e : error) (o : option A) : result A :=
  match o with
  | Some a => Ok a
  | None => Raise e
  end.

(* ================================================================== *)
(** ** Keys with a boolean equality *)

Class Eqb (K : Type) : Type := {
  eqb : K -> K -> bool;
  eqb_spec : forall x y : K, reflect (x = y) (eqb x y)
}.

#[export] Instance Eqb_string : Eqb string :=
  {| eqb := String.eqb; eqb_spec := String.eqb_spec |}.

Definition option_eqb {K : Type} `{Eqb K} (a b : option K) : bool :=
  match a, b with
  | None, None => true
  | Some x, Some y => eqb x y
  | _, _ => false
  end.

Lemma option_eqb_spec {K : Type} `{Eqb K} (a b : option K) :
  reflect (a = b) (option_eqb a b).
Proof.
  destruct a as [x|], b as [y|]; simpl; try (constructor; congruence).
  destruct (eqb_spec x y); constructor; congruence.
Qed.

#[export] Instance Eqb_option {K : Type} `{Eqb K} : Eqb (option K) :=
  {| eqb := option_eqb; eqb_spec := option_eqb_spec |}.

(** [x in l] for a Python list. *)
Fixpoint mem {K : Type} `{Eqb K} (x : K) (l : list K) : bool :=
  match l with
  | [] => false
  | y :: l' => eqb x y || mem x l'
  end.

(* ================================================================== *)
(** ** Dictionaries in insertion order *)

Definition dict (K V : Type) : Type := list (K * V).

Section Dict.
Context {K V : Type} `{Eqb K}.

Fixpoint dict_get (k : K) (d : dict K V) : option V :=
  match d with
  | [] => None
  | (k', v) :: d' => if eqb k k' then Some v else dict_get k d'
  end.

(** [k in d] *)
Definition dict_mem (k : K) (d : dict K V) : bool :=
  match dict_get k d with
  | Some _ => true
  | None => false
  end.

(** [d[k] = v]: an existing key keeps its position. *)
Fixpoint dict_set (k : K) (v : V) (d : dict K V) : dict K V :=
  match d with
  | [] => [(k, v)]
  | (k', v') :: d' =>
      if eqb k k' then (k', v) :: d' else (k', v') :: dict_set k v d'
  end.

Definition dict_keys (d : dict K V) : list K := map fst d.

(** [d[k]], raising [KeyError] on a miss. *)
Definition dict_at (k : K) (d : dict K V) : result V :=
  of_option KeyError (dict_get k d).
End Dict.

(* ================================================================== *)
(** ** Character classes (code points U+0000..U+00FF) *)

Definition code (c : ascii) : nat := nat_of_ascii c.

Definition between (lo hi n : nat) : bool := (lo <=? n) && (n <=? hi).

(** [str.isalpha] on one character. *)
Definition isalpha (c : ascii) : bool :=
  let n := code c in
  between 65 90 n || between 97 122 n
  || (n =? 170) || (n =? 181) || (n =? 186)
  || between 192 214 n || between 216 246 n || between 248 255 n.

(** [str.isnumeric] on one character. *)
Definition isnumeric (c : ascii) : bool :=
  let n := code c in
  between 48 57 n || (n =? 178) || (n =? 179) || (n =? 185)
  || between 188 190 n.

(** [str.isspace] on one character. *)
Definition isspace_char (c : ascii) : bool :=
  let n := code c in
  between 9 13 n || between 28 32 n || (n =? 133) || (n =? 160).

(** The regular-expression class [\w]: alphanumeric or underscore. *)
Definition is_word (c : ascii) : bool :=
  isalpha c || isnumeric c || (code c =? 95).

(* ================================================================== *)
(** ** Strings *)

(** [''.join(l)] *)
Fixpoint join (l : list string) : string :=
  match l with
  | [] => ""
  | t :: l' => t ++ join l'
  end.

Definition is_empty (s : string) : bool :=
  match s with
  | EmptyString => true
  | String _ _ => false
  end.

(** Truth value of a string: non-empty. *)
Definition truthy (s : string) : bool := negb (is_empty s).

Definition char (c : ascii) : string := String c "".

(** [str(n)] for a non-negative integer. *)
Definition str (n : nat) : string := NilEmpty.string_of_uint (Nat.to_uint n).

(** [c * n] for a one-character string [c]. *)
Fixpoint repeat_char (c : ascii) (n : nat) : string :=
  match n with
  | O => ""
  | S n' => String c (repeat_char c n')
  end.

(** [s.replace(' ', '')] *)
Fixpoint remove_spaces (s : string) : string :=
  match s with
  | EmptyString => ""
  | String c s' =>
      if Ascii.eqb c " " then remove_spaces s' else String c (remove_spaces s')
  end.

(** [s.isspace()]: non-empty and every character is white space. *)
Fixpoint all_space (s : string) : bool :=
  match s with
  | EmptyString => true
  | String c s' => isspace_char c && all_space s'
  end.

Definition isspace (s : string) : bool := truthy s && all_space s.

Definition newline : string := char (ascii_of_nat 10).

(** The double-quote character as a token. *)
Definition dquote : string := char (ascii_of_nat 34).

(* ================================================================== *)
(** ** Name mangling tables *)

Definition TYPES : list string :=
  ["int"; "void"; "uint16_t"; "uint32_t"; "uint64_t";
   "bool"; "auto"; "int32_t"; "string"; "vector"; "istringstream"].

Definition KEYWORDS : list string :=
  TYPES ++
  ["return"; "printf"; "struct"; "main"; "std"; "push_back"; "back";
   "pop_back"; "reserve"; "cout"; "__builtin_bswap64"; "__builtin_ctzll";
   "const"; "assert";
   "endl"; "for"; "while"; "swap"; "if"; "else"; "char"; "abs"; "getline";
   "break"; "length"; "switch"; "case"; "cin"; "empty"; "continue"; "size";
   "default"; "using"; "namespace"; "__builtin_popcountll"; "stoi"; "chrono";
   "second";
   "high_resolution_clock"; "duration_cast"; "milliseconds"; "now"; "max";
   "pair"; "stable_sort"; "greater"; "min"; "memset"; "sizeof"].

(* ================================================================== *)
(** ** Tokenizer *)

(** [re.split('([^\w])', content)]: the text between two matches, then the
    matched character, and so on; [cur] is the text since the last match. *)
Fixpoint re_split (cur : string) (content : string) : list string :=
  match content with
  | EmptyString => [cur]
  | String c rest =>
      if is_word c then re_split (cur ++ char c) rest
      else cur :: char c :: re_split "" rest
  end.

Definition fetch_tokens (content : string) : list string :=
  filter truthy (re_split "" content).

(* ================================================================== *)
(** ** Token predicates *)

Definition is_name (token : string) : bool :=
  match token with
  | EmptyString => false
  | String c _ => isalpha c || String.prefix "_" token
  end.

Definition is_keyword (token : string) : bool := mem token KEYWORDS.

Definition renamable (token : string) : bool :=
  negb (is_keyword token) && is_name token.

Definition attach_eligible (token : string) : bool :=
  match token with
  | EmptyString => false
  | String c _ => negb (is_name token || isnumeric c)
  end.

Definition attachable_tokens (first second : string) : bool :=
  attach_eligible first || attach_eligible second.

(* ================================================================== *)
(** ** Grouper *)

Fixpoint list_eqb {K : Type} `{Eqb K} (a b : list K) : bool :=
  match a, b with
  | [], [] => true
  | x :: a', y :: b' => eqb x y && list_eqb a' b'
  | _, _ => false
  end.

(** [l[i:i+n]] *)
Definition slice {A : Type} (i n : nat) (l : list A) : list A :=
  firstn n (skipn i l).

(** The condition of line 98 on the suffix [rest = token_list[start_idx:]]. *)
Definition starts_with (start rest : list string) : bool :=
  (List.length start <=? List.length rest)
  && list_eqb start (slice 0 (List.length start) rest).

(** The [for] of line 102, with indices relative to [start_idx]: the first
    offset in [range(len(start), len(rest) - len(end) + 1)] at which [end]
    occurs. *)
Definition find_end (start end_ rest : list string) : option nat :=
  find (fun p => list_eqb end_ (slice p (List.length end_) rest))
       (seq (List.length start)
            (List.length rest + 1 - (List.length start + List.length end_))).

(** [end_idx - start_idx] after lines 91-109. *)
Definition end_offset (start end_ : list string) (include_end : bool)
    (rest : list string) : nat :=
  if starts_with start rest then
    match find_end start end_ rest with
    | Some p => if include_end then p + List.length end_ else p
    | None => 1
    end
  else 1.

(** Lines 114-116. *)
Definition grouped_tokens (include_space : bool) (n : nat) (rest : list string)
    : string :=
  let g := join (firstn n rest) in
  if negb include_space && negb (n =? 1) then remove_spaces g else g.

(** The [while] loop of [group_tokens]; [rest] is [token_list[start_idx:]],
    the only part of the list the loop body reads. *)
Fixpoint group_loop (fuel : nat) (start end_ : list string)
    (include_end include_space : bool) (rest : list string)
    : result (list string) :=
  match rest with
  | [] => Ok []
  | _ :: _ =>
      match fuel with
      | O => Raise Diverges
      | S fuel' =>
          let n := end_offset start end_ include_end rest in
          out <- group_loop fuel' start end_ include_end include_space
                   (skipn n rest) ;;
          Ok (grouped_tokens include_space n rest :: out)
      end
  end.

Definition group_tokens (token_list start end_ : list string)
    (include_end include_space : bool) : result (list string) :=
  group_loop (List.length token_list) start end_ include_end include_space
    token_list.

Definition group (tokens : list string) : result (list string) :=
  tokens <- group_tokens tokens [dquote] [dquote] true true ;;
  tokens <- group_tokens tokens ["/"; "*"] ["*"; "/"] true true ;;
  tokens <- group_tokens tokens ["["; "["] ["]"; "]"] true true ;;
  tokens <- group_tokens tokens ["#"; "include"] [newline] true false ;;
  tokens <- group_tokens tokens ["#"; "ifndef"; " "; "MINIFIED"]
              ["#"; "endif"] true true ;;
  tokens <- group_tokens tokens ["/"; "/"] [newline] false true ;;
  group_tokens tokens ["'"] ["'"] true true.

(* ================================================================== *)
(** ** Stripper *)

Definition stripped (token : string) : bool :=
  String.prefix "//" token || String.prefix "/*" token
  || String.prefix "[[" token || String.prefix "#ifndef" token
  || String.eqb token newline || isspace token || String.eqb token "const".

Definition strip (tokens : list string) : list string :=
  filter (fun token => negb (stripped token)) tokens.

(* ================================================================== *)
(** ** Symbol tables *)

(** [class Function]; the analyzer stores counts in it and the renamer
    stores names, hence the parameter. *)
Record Function (V : Type) : Type := mkFunction {
  args : dict string V;
  variables : dict string V
}.

Arguments mkFunction {V} args variables.
Arguments args {V} _.
Arguments variables {V} _.

(** [class Struct] *)
Record Struct (V : Type) : Type := mkStruct {
  name : string;
  fields : dict string V;
  functions : dict string (Function V);
  top_lvl_used : list string
}.

Arguments mkStruct {V} name fields functions top_lvl_used.
Arguments name {V} _.
Arguments fields {V} _.
Arguments functions {V} _.
Arguments top_lvl_used {V} _.

(** [Function()] *)
Definition new_Function {V : Type} : Function V := mkFunction [] [].

(** [Struct(name)] *)
Definition new_Struct {V : Type} (name : string) : Struct V :=
  mkStruct name [] [] [].

(** The key [None] of [structinfo] is the top level. *)
Definition structs (V : Type) : Type := dict (option string) (Struct V).

Section Tables.
Context {V : Type}.

(** [info[struct].functions[function]]; [function] may be [None], which is
    never a key of [functions]. *)
Definition function_at (info : structs V) (struct function : option string)
    : result (Function V) :=
  s <- dict_at struct info ;;
  match function with
  | Some f => dict_at f (functions s)
  | None => Raise KeyError
  end.

(** An in-place update of [info[struct]]. *)
Definition update_struct (info : structs V) (struct : option string)
    (upd : Struct V -> Struct V) : result (structs V) :=
  s <- dict_at struct info ;;
  Ok (dict_set struct (upd s) info).

(** An in-place update of [info[struct].functions[function]]. *)
Definition update_function (info : structs V) (struct function : option string)
    (upd : Function V -> Function V) : result (structs V) :=
  s <- dict_at struct info ;;
  match function with
  | Some f =>
      fn <- dict_at f (functions s) ;;
      Ok (dict_set struct
            (mkStruct (name s) (fields s)
               (dict_set f (upd fn) (functions s)) (top_lvl_used s))
            info)
  | None => Raise KeyError
  end.

Definition set_fields (fs : dict string V) (s : Struct V) : Struct V :=
  mkStruct (name s) fs (functions s) (top_lvl_used s).

Definition set_functions (fns : dict string (Function V)) (s : Struct V)
    : Struct V :=
  mkStruct (name s) (fields s) fns (top_lvl_used s).

Definition set_top_lvl_used (l : list string) (s : Struct V) : Struct V :=
  mkStruct (name s) (fields s) (functions s) l.

Definition set_args (a : dict string V) (fn : Function V) : Function V :=
  mkFunction a (variables fn).

Definition set_variables (v : dict string V) (fn : Function V) : Function V :=
  mkFunction (args fn) v.
End Tables.

(** [d[k] += 1], after the test [k in d]. *)
Definition increment (k : string) (d : dict string nat) : dict string nat :=
  match dict_get k d with
  | Some n => dict_set k (n + 1) d
  | None => d
  end.

(* ================================================================== *)
(** ** Symbol analyzer *)

Definition is_some {A : Type} (o : option A) : bool :=
  match o with
  | Some _ => true
  | None => false
  end.

(** [token in TYPES or token in info]; the token may be [None] (no previous
    token yet), and [None] is a key of [info]. *)
Definition is_type {V : Type} (info : structs V) (token : option string) : bool :=
  match token with
  | Some t => mem t TYPES
  | None => false
  end
  || dict_mem token info.

Definition preceded_by_type {V : Type} (info : structs V)
    (prev prev_prev : option string) : bool :=
  is_type info prev
  || (mem prev [Some ">"; Some "&"] && is_type info prev_prev).

Definition b2z (b : bool) : Z := if b then 1%Z else 0%Z.

Definition scope_change (token opener closer : string) : Z :=
  (b2z (String.eqb token opener) - b2z (String.eqb token closer))%Z.

(** The local variables of [get_stats]. *)
Record stats_state : Type := mkStats {
  entering_function : bool;
  struct : option string;
  function : option string;
  struct_scope : Z;
  function_scope : Z;
  parenth_depth : Z;
  structinfo : structs nat;
  prev : option string;
  prev_prev : option string
}.

Definition stats_init : stats_state :=
  mkStats false None None 0 0 0 [(None, new_Struct "Top Level")] None None.

(** Lines 213-216. *)
Definition stats_exit_function (token : string) (st : stats_state)
    : stats_state :=
  if negb (entering_function st) && is_some (function st) then
    let fs := (function_scope st + scope_change token "{" "}")%Z in
    mkStats (entering_function st) (struct st)
      (if (fs =? 0)%Z then None else function st)
      (struct_scope st) fs (parenth_depth st) (structinfo st)
      (prev st) (prev_prev st)
  else st.

(** Lines 219-227; [rest] is [tokens[i+1:]]. *)
Definition stats_record_args (token : string) (rest : list string)
    (st : stats_state) : result stats_state :=
  if entering_function st then
    '(pd, info) <-
      (if String.eqb token "(" then
         Ok ((parenth_depth st + 1)%Z, structinfo st)
       else if String.eqb token ")" then
         Ok ((parenth_depth st - 1)%Z, structinfo st)
       else if (0 <? parenth_depth st)%Z then
         next <- of_option IndexError (hd_error rest) ;;
         if mem next [","; ")"] && negb (mem token TYPES) then
           info <- update_function (structinfo st) (struct st) (function st)
                     (fun fn => set_args (dict_set token 1 (args fn)) fn) ;;
           Ok (parenth_depth st, info)
         else Ok (parenth_depth st, structinfo st)
       else Ok (parenth_depth st, structinfo st)) ;;
    Ok (mkStats (if (pd =? 0)%Z then false else entering_function st)
          (struct st) (function st) (struct_scope st) (function_scope st)
          pd info (prev st) (prev_prev st))
  else Ok st.

(** Lines 230-234. *)
Definition stats_found_function (token : string) (rest : list string)
    (st : stats_state) : result stats_state :=
  let following := hd_error rest in
  if is_name token
     && preceded_by_type (structinfo st) (prev st) (prev_prev st)
     && eqb following (Some "(")
  then
    info <- update_struct (structinfo st) (struct st)
              (fun s => set_functions (dict_set token new_Function (functions s)) s) ;;
    Ok (mkStats true (struct st) (Some token) (struct_scope st)
          (function_scope st) (parenth_depth st) info (prev st) (prev_prev st))
  else Ok st.

Definition with_structinfo (info : structs nat) (st : stats_state)
    : stats_state :=
  mkStats (entering_function st) (struct st) (function st) (struct_scope st)
    (function_scope st) (parenth_depth st) info (prev st) (prev_prev st).

(** Lines 236-247. *)
Definition stats_in_function (token : string) (st : stats_state)
    : result stats_state :=
  if is_some (function st) then
    fn <- function_at (structinfo st) (struct st) (function st) ;;
    info <- (if dict_mem token (args fn) then
               update_function (structinfo st) (struct st) (function st)
                 (fun fn => set_args (increment token (args fn)) fn)
             else Ok (structinfo st)) ;;
    fn <- function_at info (struct st) (function st) ;;
    info <- (if dict_mem token (variables fn) then
               update_function info (struct st) (function st)
                 (fun fn => set_variables (increment token (variables fn)) fn)
             else Ok info) ;;
    info <- (if negb (entering_function st) && is_name token
                && preceded_by_type info (prev st) (prev_prev st)
             then
               update_function info (struct st) (function st)
                 (fun fn => set_variables (dict_set token 1 (variables fn)) fn)
             else Ok info) ;;
    Ok (with_structinfo info st)
  else Ok st.

(** Lines 250-253. *)
Definition stats_exit_struct (token : string) (st : stats_state)
    : stats_state :=
  if is_some (struct st) then
    let ss := (struct_scope st + scope_change token "{" "}")%Z in
    mkStats (entering_function st)
      (if (ss =? 0)%Z then None else struct st)
      (function st) ss (function_scope st) (parenth_depth st) (structinfo st)
      (prev st) (prev_prev st)
  else st.

(** Lines 256-258. *)
Definition stats_enter_struct (token : string) (st : stats_state)
    : stats_state :=
  if eqb (prev st) (Some "struct") then
    mkStats (entering_function st) (Some token) (function st)
      (struct_scope st) (function_scope st) (parenth_depth st)
      (dict_set (Some token) (new_Struct token) (structinfo st))
      (prev st) (prev_prev st)
  else st.

(** Lines 261-265. *)
Definition stats_fields (token : string) (st : stats_state)
    : result stats_state :=
  info <- (if (struct_scope st =? 1)%Z && is_name token
              && negb (is_some (function st))
              && preceded_by_type (structinfo st) (prev st) (prev_prev st)
           then
             update_struct (structinfo st) (struct st)
               (fun s => set_fields (dict_set token 1 (fields s)) s)
           else Ok (structinfo st)) ;;
  s <- dict_at (struct st) info ;;
  info <- (if dict_mem token (fields s) then
             update_struct info (struct st)
               (fun s => set_fields (increment token (fields s)) s)
           else Ok info) ;;
  Ok (with_structinfo info st).

(** Lines 268-269. *)
Definition stats_top_lvl_used (token : string) (st : stats_state)
    : result stats_state :=
  top <- dict_at None (structinfo st) ;;
  if dict_mem token (functions top) then
    s <- dict_at (struct st) (structinfo st) ;;
    if negb (mem token (top_lvl_used s)) && is_some (struct st) then
      info <- update_struct (structinfo st) (struct st)
                (fun s => set_top_lvl_used (top_lvl_used s ++ [token]) s) ;;
      Ok (with_structinfo info st)
    else Ok st
  else Ok st.

(** Lines 271-272. *)
Definition stats_shift (token : string) (st : stats_state) : stats_state :=
  mkStats (entering_function st) (struct st) (function st) (struct_scope st)
    (function_scope st) (parenth_depth st) (structinfo st)
    (Some token) (prev st).

(** One iteration of the [for] of [get_stats]. *)
Definition stats_step (st : stats_state) (token : string) (rest : list string)
    : result stats_state :=
  let st := stats_exit_function token st in
  st <- stats_record_args token rest st ;;
  st <- stats_found_function token rest st ;;
  st <- stats_in_function token st ;;
  let st := stats_exit_struct token st in
  let st := stats_enter_struct token st in
  st <- stats_fields token st ;;
  st <- stats_top_lvl_used token st ;;
  Ok (stats_shift token st).

Fixpoint stats_loop (st : stats_state) (tokens : list string)
    : result stats_state :=
  match tokens with
  | [] => Ok st
  | token :: rest =>
      st' <- stats_step st token rest ;;
      stats_loop st' rest
  end.

Definition get_stats (tokens : list string) : result (structs nat) :=
  st <- stats_loop stats_init tokens ;;
  Ok (structinfo st).

(* ================================================================== *)
(** ** Sorting a dictionary by descending value *)

(** [sorted] is stable, and a stable sort has one result only: insertion
    from the right, in front of the first item that does not have a larger
    value, computes it. *)
Fixpoint insert_desc {K : Type} (kv : K * nat) (l : dict K nat) : dict K nat :=
  match l with
  | [] => [kv]
  | x :: l' => if snd kv <? snd x then x :: insert_desc kv l' else kv :: x :: l'
  end.

Definition sort_dict {K : Type} (dictionary : dict K nat) : dict K nat :=
  fold_right insert_desc [] dictionary.

(* ================================================================== *)
(** ** Intermediate renaming tables *)

(** [for y, k in enumerate(keys): d[k] = prefix + str(y)], from [d]. *)
Fixpoint number_from (prefix : string) (y : nat) (keys : list string)
    (d : dict string string) : dict string string :=
  match keys with
  | [] => d
  | k :: keys' => number_from prefix (S y) keys' (dict_set k (prefix ++ str y)%string d)
  end.

(** Lines 303-312: the fields of one struct, most used first; [fields] is
    the pool shared by all structs. *)
Fixpoint ir_fields (j : nat) (sorted_fields : list string)
    (own fields : dict string string)
    : dict string string * dict string string :=
  match sorted_fields with
  | [] => (own, fields)
  | field :: rest =>
      match dict_get field fields with
      | Some n => ir_fields j rest (dict_set field n own) fields
      | None =>
          let fieldname := ("field" ++ str j)%string in
          ir_fields (S j) rest (dict_set field fieldname own)
            (dict_set field fieldname fields)
      end
  end.

(** Lines 315-330: the functions of one struct in declaration order. *)
Fixpoint ir_functions (struct : option string) (x : nat)
    (funcs : dict string (Function nat))
    (own : dict string (Function string)) (methods : dict string string)
    : dict string (Function string) * dict string string :=
  match funcs with
  | [] => (own, methods)
  | (func, fn) :: rest =>
      let methods :=
        if is_some struct then dict_set func ("func" ++ str x)%string methods
        else methods in
      let sorted_args := dict_keys (sort_dict (args fn)) in
      let sorted_vars := dict_keys (sort_dict (variables fn)) in
      let record :=
        mkFunction (number_from "arg" 0 sorted_args [])
                   (number_from "var" 0 sorted_vars []) in
      ir_functions struct (S x) rest (dict_set func record own) methods
  end.

(** [s.add(x)] for a set kept as a list. *)
Definition set_add (x : string) (s : list string) : list string :=
  if mem x s then s else s ++ [x].

(** The tables under construction in [get_ir_renames]. *)
Record renames : Type := mkRenames {
  ir : structs string;
  ir_field_pool : dict string string;
  ir_methods : dict string string;
  ir_top_lvl_used : list string
}.

(** Lines 299-333: one struct of [structinfo], the [i]-th. *)
Definition ir_struct (i : nat) (struct : option string) (s : Struct nat)
    (r : renames) : renames :=
  let sorted_fields := dict_keys (sort_dict (fields s)) in
  let '(own_fields, pool) := ir_fields 0 sorted_fields [] (ir_field_pool r) in
  let '(own_functions, methods) :=
    ir_functions struct 0 (functions s) [] (ir_methods r) in
  mkRenames
    (dict_set struct
       (mkStruct ("struct" ++ str i)%string own_fields own_functions []) (ir r))
    pool methods
    (fold_left (fun used func => set_add func used) (top_lvl_used s)
       (ir_top_lvl_used r)).

Fixpoint ir_structs (i : nat) (info : structs nat) (r : renames) : renames :=
  match info with
  | [] => r
  | (struct, s) :: rest => ir_structs (S i) rest (ir_struct i struct s r)
  end.

(** Lines 335-344: the top-level functions in declaration order. *)
Fixpoint ir_top_level (i j : nat) (funcs : list string)
    (top_lvl_used : list string) (methods : dict string string)
    : dict string string :=
  match funcs with
  | [] => methods
  | func :: rest =>
      if mem func top_lvl_used then
        ir_top_level (S i) j rest top_lvl_used
          (dict_set func ("topfunc" ++ str i)%string methods)
      else if dict_mem func methods then
        ir_top_level i j rest top_lvl_used methods
      else
        ir_top_level i (S j) rest top_lvl_used
          (dict_set func
             (if String.eqb func "main" then "main" else "func" ++ str j)%string
             methods)
  end.

Definition get_ir_renames (structinfo : structs nat)
    : result (structs string * dict string string * dict string string) :=
  let r := ir_structs 0 structinfo (mkRenames [] [] [] []) in
  top <- dict_at None structinfo ;;
  let methods :=
    ir_top_level 0 0 (dict_keys (functions top)) (ir_top_lvl_used r)
      (ir_methods r) in
  Ok (ir r, ir_field_pool r, methods).

(* ================================================================== *)
(** ** Intermediate representation *)

(** The local variables of [to_ir]; [ir_prev] holds the previous token as
    it was written to the output, that is after renaming. *)
Record ir_state : Type := mkIr {
  ir_entering_function : bool;
  ir_struct_name : option string;
  ir_function : option string;
  ir_struct_scope : Z;
  ir_function_scope : Z;
  ir_parenth_depth : Z;
  ir_prev : option string
}.

Definition ir_init : ir_state := mkIr false None None 0 0 0 None.

(** Lines 362-385: the scope bookkeeping for one token. *)
Definition ir_scope (methods : dict string string) (token : string)
    (st : ir_state) : ir_state :=
  (* Handle exiting function *)
  let '(function, function_scope) :=
    if negb (ir_entering_function st) && is_some (ir_function st) then
      let fs := (ir_function_scope st + scope_change token "{" "}")%Z in
      (if (fs =? 0)%Z then None else ir_function st, fs)
    else (ir_function st, ir_function_scope st) in
  (* Record args *)
  let '(entering, parenth_depth) :=
    if ir_entering_function st then
      let pd := (ir_parenth_depth st + scope_change token "(" ")")%Z in
      (if (pd =? 0)%Z then false else true, pd)
    else (false, ir_parenth_depth st) in
  let '(function, entering) :=
    if dict_mem token methods && negb (is_some function) then (Some token, true)
    else (function, entering) in
  (* Exiting struct? *)
  let '(struct, struct_scope) :=
    if is_some (ir_struct_name st) then
      let ss := (ir_struct_scope st + scope_change token "{" "}")%Z in
      (if (ss =? 0)%Z then None else ir_struct_name st, ss)
    else (ir_struct_name st, ir_struct_scope st) in
  (* We've got the struct name *)
  let struct := if eqb (ir_prev st) (Some "struct") then Some token else struct in
  mkIr entering struct function struct_scope function_scope parenth_depth
    (ir_prev st).

(** Lines 388-395: the renaming of one token in scope [(struct, function)]. *)
Definition ir_rename (ir : structs string) (fields methods : dict string string)
    (struct function : option string) (token : string) : result string :=
  in_args <-
    (if is_some function then
       fn <- function_at ir struct function ;;
       Ok (dict_get token (args fn))
     else Ok None) ;;
  match in_args with
  | Some n => Ok n
  | None =>
      match dict_get token fields with
      | Some n => Ok n
      | None =>
          match dict_get token methods with
          | Some n => Ok n
          | None =>
              if is_some function then
                fn <- function_at ir struct function ;;
                match dict_get token (variables fn) with
                | Some n => Ok n
                | None => Ok token
                end
              else Ok token
          end
      end
  end.

(** One iteration of the [for] of [to_ir]: the token written and the state
    after it. *)
Definition ir_step (ir : structs string) (fields methods : dict string string)
    (st : ir_state) (token : string) : result (string * ir_state) :=
  let st := ir_scope methods token st in
  token' <- ir_rename ir fields methods (ir_struct_name st)
              (ir_function st) token ;;
  Ok (token',
      mkIr (ir_entering_function st) (ir_struct_name st) (ir_function st)
        (ir_struct_scope st) (ir_function_scope st) (ir_parenth_depth st)
        (Some token')).

Fixpoint ir_loop (ir : structs string) (fields methods : dict string string)
    (st : ir_state) (tokens : list string) : result (list string) :=
  match tokens with
  | [] => Ok []
  | token :: rest =>
      ' (token', st') <- ir_step ir fields methods st token ;;
      out <- ir_loop ir fields methods st' rest ;;
      Ok (token' :: out)
  end.

Definition to_ir (tokens : list string) (ir : structs string)
    (fields methods : dict string string) : result (list string) :=
  ir_loop ir fields methods ir_init tokens.

(* ================================================================== *)
(** ** Frequencies *)

Fixpoint count_tokens (tokens : list string) (freq : dict string nat)
    : dict string nat :=
  match tokens with
  | [] => freq
  | token :: rest =>
      if negb (renamable token) then count_tokens rest freq
      else
        count_tokens rest
          (match dict_get token freq with
           | Some n => dict_set token (n + 1) freq
           | None => dict_set token 1 freq
           end)
  end.

Definition get_frequencies (tokens : list string) : dict string nat :=
  sort_dict (count_tokens tokens []).

(* ================================================================== *)
(** ** Name generator *)

(** The module-level state: [names], [counter] and [resets]. *)
Record namer : Type := mkNamer {
  names : dict string string;
  counter : nat;
  resets : nat
}.

(** The state at import time: no name, [counter] at [A], no reset. *)
Definition namer_init : namer := mkNamer [] 65 0.

(** [chr(n)] *)
Definition chr (n : nat) : ascii := ascii_of_nat n.

Definition generate_name (token : string) (st : namer) : string * namer :=
  match dict_get token (names st) with
  | Some n => (n, st)
  | None =>
      let fresh := repeat_char (chr (counter st)) (resets st + 1) in
      let names := dict_set token fresh (names st) in
      let counter := if counter st =? 90 then 96 else counter st in
      let counter := counter + 1 in
      if 122 <? counter then (fresh, mkNamer names 65 (resets st + 1))
      else (fresh, mkNamer names counter (resets st))
  end.

(* ================================================================== *)
(** ** The two emitters and [minify] *)

(** [prev and not attachable_tokens(prev, token)] *)
Definition needs_space (prev : option string) (token : string) : bool :=
  match prev with
  | Some p => truthy p && negb (attachable_tokens p token)
  | None => false
  end.

(** Lines 430-436: the text of the intermediate representation. *)
Fixpoint ir_tokens (prev : option string) (tokens : list string)
    : list string :=
  match tokens with
  | [] => []
  | token :: rest =>
      (if needs_space prev token then [" "] else [])
      ++ token :: ir_tokens (Some token) rest
  end.

Definition set_names (d : dict string string) (st : namer) : namer :=
  mkNamer d (counter st) (resets st).

(** Lines 456-461. *)
Definition seed_names (st : namer) : namer :=
  let st := set_names (dict_set "true" "1" (names st)) st in
  let st := set_names (dict_set "false" "0" (names st)) st in
  fold_left (fun st kw => set_names (dict_set kw kw (names st)) st) KEYWORDS st.

(** Line 466: [names[token] = generate_name(token)]. *)
Definition assign_name (st : namer) (token : string) : namer :=
  let '(n, st) := generate_name token st in
  set_names (dict_set token n (names st)) st.

(** Lines 464-466; [keys] are the keys of the frequency table. *)
Definition assign_names (keys : list string) (st : namer) : namer :=
  fold_left assign_name keys st.

(** The name table [minify] works with after line 466. *)
Definition final_names (tokens : list string) (st : namer) : namer :=
  assign_names (dict_keys (get_frequencies tokens)) (seed_names st).

(** Lines 475-476: the mangling of one token. *)
Definition mangle (names : dict string string) (token : string)
    : result string :=
  if renamable token then dict_at token names else Ok token.

(** Lines 468-479. *)
Fixpoint new_tokens (names : dict string string) (prev : option string)
    (tokens : list string) : result (list string) :=
  match tokens with
  | [] => Ok []
  | token :: rest =>
      let sep := if needs_space prev token then [" "] else [] in
      token' <- mangle names token ;;
      out <- new_tokens names (Some token') rest ;;
      Ok (sep ++ token' :: out)
  end.

(** Lines 452-482 on the tokens of the intermediate representation, from
    the state [st] of the name generator: the text of the minified file. *)
Definition emit (tokens : list string) (st : namer) : result string :=
  out <- new_tokens (names (final_names tokens st)) None tokens ;;
  Ok (join out).

(** Lines 418-427 of [minify]: the token stream of the intermediate
    representation. *)
Definition ir_stream (content : string) : result (list string) :=
  let tokens := fetch_tokens content in
  tokens <- group tokens ;;
  let tokens := strip tokens in
  structinfo <- get_stats tokens ;;
  ' (ir, fields, methods) <- get_ir_renames structinfo ;;
  to_ir tokens ir fields methods.

(** [minify] in a fresh process: the text written to [plir.cpp] before it
    is formatted, and the text written to [pytteliten-mini.cpp].  This is
    the computation of the two texts; the calls that hand them to the
    environment, and can fail there, are in [minify_io]. *)
Definition minify (content : string) : result (string * string) :=
  tokens <- ir_stream content ;;
  let plir := join (ir_tokens None tokens) in
  mini <- emit tokens namer_init ;;
  Ok (plir, mini).

(* ================================================================== *)
(** ** Vocabulary of the specification *)

(** The letters of a code in the order of the walk: upper case, then
    lower case. *)
Definition letters : string :=
  "ABCDEFGHIJKLMNOPQRSTUVWXYZabcdefghijklmnopqrstuvwxyz".

(** The letter at position [i] of the walk, [i < 52]. *)
Definition letter (i : nat) : ascii :=
  match String.get i letters with
  | Some c => c
  | None => "A"%char
  end.

(** The code of rank [r], counted from 1. *)
Definition rank_code (r : nat) : string :=
  repeat_char (letter ((r - 1) mod 52)) (1 + (r - 1) / 52).

Fixpoint index_in (c : ascii) (s : string) : option nat :=
  match s with
  | EmptyString => None
  | String x s' => if Ascii.eqb c x then Some 0 else option_map S (index_in c s')
  end.

(** The position of a character in the walk, if it is a letter. *)
Definition letter_index (c : ascii) : option nat := index_in c letters.

(** Lexicographic order on codes, letters compared by their position in
    the walk; a character that is no letter compares with nothing. *)
Fixpoint lex_earlier (a b : string) : bool :=
  match a, b with
  | EmptyString, String _ _ => true
  | String x a', String y b' =>
      match letter_index x, letter_index y with
      | Some i, Some j => (i <? j) || ((i =? j) && lex_earlier a' b')
      | _, _ => false
      end
  | _, _ => false
  end.

(** Earlier-ranked: strictly shorter, or of equal length and
    lexicographically earlier. *)
Definition earlier_ranked (a b : string) : bool :=
  (String.length a <? String.length b)
  || ((String.length a =? String.length b) && lex_earlier a b).

(** The number of occurrences of a token in a stream. *)
Definition occurrences (t : string) (tokens : list string) : nat :=
  count_occ string_dec tokens t.

(** The tokens of the frequency table whose code is generated, not found in
    the table seeded by lines 456-461, in the order of the table. *)
Definition fresh_tokens (tokens : list string) (st : namer) : list string :=
  filter (fun t => negb (dict_mem t (names (seed_names st))))
         (dict_keys (get_frequencies tokens)).

(** Merge-sensitive: name-like, or numeric at the leading character. *)
Definition merge_sensitive (token : string) : bool :=
  is_name token
  || match token with
     | String c _ => isnumeric c
     | EmptyString => false
     end.

(** A token stream with one space between two adjacent tokens exactly when
    both are merge-sensitive. *)
Fixpoint spaced (tokens : list string) : list string :=
  match tokens with
  | [] => []
  | a :: rest =>
      a :: match rest with
           | [] => []
           | b :: _ =>
               (if merge_sensitive a && merge_sensitive b then [" "] else [])
               ++ spaced rest
           end
  end.

(* ================================================================== *)
(** ** Predicates of the proofs *)

(** [a] stands before [b] in [l]. *)
Definition before {A : Type} (a b : A) (l : list A) : Prop :=
  exists l1 l2 l3, l = l1 ++ a :: l2 ++ b :: l3.

(** Sorted by value, largest first. *)
Definition descending {K : Type} (l : dict K nat) : Prop :=
  StronglySorted (fun a b => snd b <= snd a) l.

(** The value of [counter] once [m] names of the current round of 52 are
    generated. *)
Definition counter_at (m : nat) : nat := if m <? 26 then 65 + m else 71 + m.

(** The generator has produced [k] names. *)
Definition at_rank (k : nat) (st : namer) : Prop :=
  counter st = counter_at (k mod 52) /\ resets st = k / 52.

(** The name the generator produces after [k] others. *)
Definition code_at (k : nat) : string :=
  repeat_char (chr (counter_at (k mod 52))) (k / 52 + 1).

(** [out] is the token stream [l] with single spaces woven in before some
    of its tokens. *)
Inductive woven : list string -> list string -> Prop :=
| woven_nil : woven [] []
| woven_token (t : string) (l out : list string) :
    woven l out -> woven (t :: l) (t :: out)
| woven_space (t : string) (l out : list string) :
    woven l out -> woven (t :: l) (" " :: t :: out).

(** A code the final table may hold for a renamable token: not empty and
    merge-sensitive. *)
Definition sound_code (c : string) : Prop :=
  truthy c = true /\ merge_sensitive c = true.

(** Every renamable token of [tokens] has a sound code in [table]. *)
Definition covers (table : dict string string) (tokens : list string) : Prop :=
  forall t, In t tokens -> renamable t = true ->
            exists c, dict_get t table = Some c /\ sound_code c.

(** The state of [to_ir] after the tokens [tokens], from the state [st]. *)
Fixpoint ir_run (ir : structs string) (fields methods : dict string string)
    (st : ir_state) (tokens : list string) : result ir_state :=
  match tokens with
  | [] => Ok st
  | token :: rest =>
      ' (_, st') <- ir_step ir fields methods st token ;;
      ir_run ir fields methods st' rest
  end.

(** The name of [token] in the first of [tables] that has it, or [token]
    itself when none has. *)
Fixpoint first_hit (tables : list (dict string string)) (token : string)
    : string :=
  match tables with
  | [] => token
  | d :: rest =>
      match dict_get token d with
      | Some n => n
      | None => first_hit rest token
      end
  end.





(** Every value of the dictionary satisfies [P]. *)
Definition dict_all {K V : Type} (P : V -> Prop) (d : dict K V) : Prop :=
  Forall (fun kv => P (snd kv)) d.

(** Every name in the table is a non-empty string. *)
Definition named {K : Type} (d : dict K string) : Prop :=
  dict_all (fun v => truthy v = true) d.

Definition function_named (fn : Function string) : Prop :=
  named (args fn) /\ named (variables fn).

Definition ir_named (ir : structs string) : Prop :=
  dict_all (fun s => dict_all function_named (functions s)) ir.

(** The top-level record is there and lists no referenced function. *)
Definition top_level_clean {V : Type} (info : structs V) : Prop :=
  exists top, dict_get None info = Some top /\ top_lvl_used top = [].

(** The shape of the tables of the analyzer: the keys of a Python [dict] are
    distinct, and the top-level record is clean. *)
Definition wf_info {V : Type} (info : structs V) : Prop :=
  NoDup (dict_keys info)
  /\ dict_all (fun s => NoDup (dict_keys (functions s))) info
  /\ top_level_clean info.


(** The first tokens of the start markers of [group]. *)
Definition marker_heads : list string := [dquote; "/"; "["; "#"; "'"].

(** A list of tokens none of which can start a group. *)
Definition plain (tokens : list string) : Prop :=
  Forall (fun t => ~ In t marker_heads) tokens.

(* ================================================================== *)
(** ** Shapes of tokens *)

(** Every character is a word character. *)
Fixpoint all_word (s : string) : bool :=
  match s with
  | EmptyString => true
  | String c s' => is_word c && all_word s'
  end.

(** A word: a non-empty run of word characters. *)
Definition is_word_token (t : string) : bool := truthy t && all_word t.

(** A symbol: one character that is no word character. *)
Definition is_symbol_token (t : string) : bool :=
  match t with
  | String c EmptyString => negb (is_word c)
  | _ => false
  end.

(** No two neighbours of the list are both words. *)
Fixpoint no_adjacent_words (l : list string) : bool :=
  match l with
  | [] => true
  | a :: rest =>
      match rest with
      | [] => true
      | b :: _ =>
          negb (is_word_token a && is_word_token b) && no_adjacent_words rest
      end
  end.

(** A token of the program text proper: a name other than [const], a
    token with a numeric leading character, or a quoted literal. *)
Definition code_token (t : string) : bool :=
  (merge_sensitive t || String.prefix dquote t || String.prefix "'" t)
  && negb (String.eqb t "const").

(** Every character of [s] is [c]. *)
Fixpoint all_char (c : ascii) (s : string) : bool :=
  match s with
  | EmptyString => true
  | String x s' => Ascii.eqb x c && all_char c s'
  end.

(** One character repeated. *)
Definition uniform (s : string) : bool :=
  match s with
  | EmptyString => true
  | String c s' => all_char c s'
  end.

(** The state of [get_stats] when it reaches the last token: the loop run
    on all tokens but the last, each with its look-ahead. *)
Fixpoint stats_before_last (st : stats_state) (tokens : list string)
    : result stats_state :=
  match tokens with
  | [] => Ok st
  | token :: rest =>
      match rest with
      | [] => Ok st
      | _ :: _ =>
          st' <- stats_step st token rest ;;
          stats_before_last st' rest
      end
  end.

(** A token as the tokenizer cuts it, other than the separator of the
    emitters: a word, or one character, not the space, that is no word
    character. *)
Definition lexical (t : string) : bool :=
  (is_word_token t || is_symbol_token t) && negb (String.eqb t " ").

(** The tokens of a stream that are not the separator. *)
Definition unspaced (tokens : list string) : list string :=
  filter (fun t => negb (String.eqb t " ")) tokens.

(** [o] is [t], or the name one of the tables of the intermediate
    representation holds for [t]. *)
Definition renamed_by (ir : structs string)
    (fields methods : dict string string) (t o : string) : Prop :=
  o = t
  \/ dict_get t fields = Some o
  \/ dict_get t methods = Some o
  \/ exists s S f fn,
       dict_get s ir = Some S
       /\ dict_get f (functions S) = Some fn
       /\ (dict_get t (args fn) = Some o
           \/ dict_get t (variables fn) = Some o).

(** [d'] names the keys of [d] by rank: the key at position [p] of [d]
    sorted by descending count has the name [prefix{p}]. *)
Definition ranked (prefix : string) (d : dict string nat)
    (d' : dict string string) : Prop :=
  forall p k,
    nth_error (dict_keys (sort_dict d)) p = Some k ->
    dict_get k d' = Some (prefix ++ str p)%string.

(** Every count of the table is at least [m]. *)
Definition counted (m : nat) (d : dict string nat) : Prop :=
  forall k v, dict_get k d = Some v -> m <= v.

(** The least counts of the analyzer's tables: 2 for an argument and for a
    field, 1 for a local variable. *)
Definition function_counted (fn : Function nat) : Prop :=
  counted 2 (args fn) /\ counted 1 (variables fn).

Definition struct_counted (s : Struct nat) : Prop :=
  counted 2 (fields s)
  /\ forall f fn, dict_get f (functions s) = Some fn -> function_counted fn.

Definition info_counted (info : structs nat) : Prop :=
  forall s S, dict_get s info = Some S -> struct_counted S.

(** The reference lists of the analyzer: the top-level record lists
    nothing, and a struct lists top-level functions, each once. *)
Definition references_ok (info : structs nat) : Prop :=
  exists top,
    dict_get None info = Some top
    /\ forall s S,
         dict_get s info = Some S ->
         NoDup (top_lvl_used S)
         /\ Forall (fun f => dict_mem f (functions top) = true)
              (top_lvl_used S)
         /\ (s = None -> top_lvl_used S = []).

(* ================================================================== *)
(** ** [minify] with its effects *)

(** What [minify] asks of its environment: [print_stats] prints the tables
    of the analyzer, and [write path text] is
    [with open(path, 'w') as f: f.write(text)].  Either may raise an
    exception of the environment ([OSError], [UnicodeEncodeError], ...), of
    some type [E]; [None] is a normal return. *)
Record environment (E : Type) : Type := mkEnvironment {
  print_stats : structs nat -> option E;
  write : string -> string -> option E
}.

Arguments mkEnvironment {E} _ _.
Arguments print_stats {E} _ _.
Arguments write {E} _ _ _.

(** How a call of [minify] ends: it returns, with the two texts it wrote;
    it raises an exception of its own code; or a call to the environment
    raises. *)
Inductive outcome (E : Type) : Type :=
| Returns (plir mini : string)
| Raises (e : error)
| Fails (e : E).

Arguments Returns {E} _ _.
Arguments Raises {E} _.
Arguments Fails {E} _.

(** Lines 416-482 in a fresh process, statement by statement.  The call of
    the formatter (lines 441-449) stands in a [try] whose handlers catch
    every exception, and its result is not used: it has no part in the
    outcome. *)
Definition minify_io {E : Type} (env : environment E) (content : string)
    (verbose : bool) : outcome E :=
  match group (fetch_tokens content) with
  | Raise e => Raises e
  | Ok tokens =>
      let tokens := strip tokens in
      match get_stats tokens with
      | Raise e => Raises e
      | Ok structinfo =>
          match (if verbose then print_stats env structinfo else None) with
          | Some e => Fails e
          | None =>
              match get_ir_renames structinfo with
              | Raise e => Raises e
              | Ok (ir, fields, methods) =>
                  match to_ir tokens ir fields methods with
                  | Raise e => Raises e
                  | Ok tokens =>
                      let plir := join (ir_tokens None tokens) in
                      match write env "plir.cpp" plir with
                      | Some e => Fails e
                      | None =>
                          match emit tokens namer_init with
                          | Raise e => Raises e
                          | Ok mini =>
                              match write env "pytteliten-mini.cpp" mini with
                              | Some e => Fails e
                              | None => Returns plir mini
                              end
                          end
                      end
                  end
              end
          end
      end
  end.
(* ================================================================== *)
(** * Theorems *)

(** ** Strings and joins *)

Lemma append_empty_r (s : string) : (s ++ "")%string = s.
Proof. induction s as [|c s IH]; simpl; congruence. Qed.

Lemma append_assoc (a b c : string) :
  ((a ++ b) ++ c)%string = (a ++ (b ++ c))%string.
Proof. induction a as [|x a IH]; simpl; congruence. Qed.

Lemma join_app (l1 l2 : list string) :
  join (l1 ++ l2) = (join l1 ++ join l2)%string.
Proof.
  induction l1 as [|t l1 IH]; simpl; [reflexivity|].
  now rewrite IH, append_assoc.
Qed.

Lemma truthy_false (s : string) : truthy s = false -> s = "".
Proof. destruct s; simpl; [reflexivity | discriminate]. Qed.

Lemma join_filter_truthy (l : list string) : join (filter truthy l) = join l.
Proof.
  induction l as [|t l IH]; simpl; [reflexivity|].
  destruct (truthy t) eqn:E; simpl; rewrite IH; [reflexivity|].
  now rewrite (truthy_false t E).
Qed.

(** ** Tokenizer *)

Lemma join_re_split (content cur : string) :
  join (re_split cur content) = (cur ++ content)%string.
Proof.
  revert cur; induction content as [|c rest IH]; intros cur; simpl.
  - reflexivity.
  - destruct (is_word c); simpl.
    + rewrite IH, append_assoc; reflexivity.
    + rewrite IH; reflexivity.
Qed.

(** C1. For every input string [s], joining the tokens of [fetch_tokens s]
    in order gives back [s]: no character is lost, duplicated or moved. *)
Theorem fetch_tokens_join (s : string) : join (fetch_tokens s) = s.
Proof.
  unfold fetch_tokens.
  rewrite join_filter_truthy, join_re_split.
  reflexivity.
Qed.

Lemma fetch_tokens_truthy (s : string) :
  Forall (fun t => truthy t = true) (fetch_tokens s).
Proof.
  unfold fetch_tokens. apply Forall_forall. intros t Ht.
  apply filter_In in Ht. tauto.
Qed.

(** ** Grouper *)

Lemma list_eqb_eq {K : Type} `{Eqb K} (a b : list K) :
  list_eqb a b = true <-> a = b.
Proof.
  revert b; induction a as [|x a IH]; intros [|y b]; simpl;
    try (split; [discriminate | congruence]); try tauto.
  rewrite andb_true_iff, IH.
  destruct (eqb_spec x y); split; intros; try congruence; intuition congruence.
Qed.

Lemma find_seq_none (f : nat -> bool) (a n : nat) :
  (forall p, a <= p < a + n -> f p = false) -> find f (seq a n) = None.
Proof.
  revert a; induction n as [|n IH]; intros a Hf; simpl; [reflexivity|].
  rewrite Hf by lia. apply IH. intros p Hp. apply Hf. lia.
Qed.

Lemma find_seq_first (f : nat -> bool) (a n p : nat) :
  a <= p < a + n -> f p = true -> (forall i, a <= i < p -> f i = false) ->
  find f (seq a n) = Some p.
Proof.
  revert a; induction n as [|n IH]; intros a Hp Ht Hf; simpl; [lia|].
  destruct (Nat.eq_dec a p) as [->|Hne].
  - now rewrite Ht.
  - rewrite Hf by lia. apply IH; [lia | assumption |].
    intros i Hi. apply Hf. lia.
Qed.

Lemma grouped_tokens_one (include_space : bool) (t : string) (rest : list string) :
  grouped_tokens include_space 1 (t :: rest) = t.
Proof.
  unfold grouped_tokens. simpl. rewrite andb_false_r. apply append_empty_r.
Qed.

(** With no end marker in range, the loop emits the token it stands on and
    goes on with the next one. *)
Lemma end_offset_no_end (start end_ : list string) (include_end : bool)
    (rest : list string) :
  (forall p, List.length start <= p ->
             slice p (List.length end_) rest <> end_) ->
  end_offset start end_ include_end rest = 1.
Proof.
  intros Hno. unfold end_offset.
  destruct (starts_with start rest); [|reflexivity].
  unfold find_end. rewrite find_seq_none; [reflexivity|].
  intros p Hp.
  destruct (list_eqb end_ (slice p (List.length end_) rest)) eqn:E;
    [|reflexivity].
  apply list_eqb_eq in E. exfalso. apply (Hno p); [lia | congruence].
Qed.

Lemma end_offset_no_start (start end_ : list string) (include_end : bool)
    (rest : list string) :
  starts_with start rest = false ->
  end_offset start end_ include_end rest = 1.
Proof. intros E. unfold end_offset. now rewrite E. Qed.

Lemma group_loop_step_one (fuel : nat) (start end_ : list string)
    (include_end include_space : bool) (t : string) (rest : list string) :
  end_offset start end_ include_end (t :: rest) = 1 ->
  group_loop (S fuel) start end_ include_end include_space (t :: rest) =
  (out <- group_loop fuel start end_ include_end include_space rest ;;
   Ok (t :: out)).
Proof.
  intros E. simpl. rewrite E. simpl. now rewrite grouped_tokens_one.
Qed.

(** A token that differs from the first token of the start marker never
    starts a group. *)
Lemma starts_with_head (s0 : string) (start : list string) (t : string)
    (rest : list string) :
  t <> s0 -> starts_with (s0 :: start) (t :: rest) = false.
Proof.
  intros Hne. unfold starts_with, slice. simpl.
  destruct (String.eqb_spec s0 t); [congruence|].
  simpl. apply andb_false_r.
Qed.

(** Tokens without the first token of the start marker pass through. *)
Lemma group_loop_skip (s0 : string) (start end_ : list string)
    (include_end include_space : bool) (pre rest : list string) (fuel : nat) :
  ~ In s0 pre ->
  group_loop (List.length pre + fuel) (s0 :: start) end_ include_end
    include_space (pre ++ rest) =
  (out <- group_loop fuel (s0 :: start) end_ include_end include_space rest ;;
   Ok (pre ++ out)).
Proof.
  induction pre as [|t pre IH]; intros Hin; simpl List.length; simpl app.
  - simpl. destruct (group_loop fuel _ _ _ _ rest); reflexivity.
  - cbn [Nat.add]. rewrite group_loop_step_one.
    + rewrite IH by (simpl in Hin; tauto).
      destruct (group_loop fuel _ _ _ _ rest); reflexivity.
    + apply end_offset_no_start, starts_with_head.
      simpl in Hin. intros ->. tauto.
Qed.

Lemma group_loop_plain (s0 : string) (start end_ : list string)
    (include_end include_space : bool) (l : list string) (fuel : nat) :
  ~ In s0 l -> List.length l <= fuel ->
  group_loop fuel (s0 :: start) end_ include_end include_space l = Ok l.
Proof.
  intros Hin Hf.
  pose proof (group_loop_skip s0 start end_ include_end include_space l []
                (fuel - List.length l) Hin) as E.
  rewrite app_nil_r in E.
  replace (List.length l + (fuel - List.length l)) with fuel in E by lia.
  rewrite E. destruct (fuel - List.length l); simpl; now rewrite app_nil_r.
Qed.

Lemma group_tokens_plain (s0 : string) (start end_ : list string)
    (include_end include_space : bool) (l : list string) :
  ~ In s0 l ->
  group_tokens l (s0 :: start) end_ include_end include_space = Ok l.
Proof. intros Hin. apply group_loop_plain; [assumption | lia]. Qed.

Lemma slice_one_app (pre : list string) (t : string) (post : list string) :
  slice (List.length pre) 1 (pre ++ t :: post) = [t].
Proof.
  unfold slice. rewrite skipn_app, Nat.sub_diag, skipn_all. reflexivity.
Qed.

Lemma slice_one_in (p : nat) (l : list string) (t : string) :
  slice p 1 l = [t] -> In t (skipn p l).
Proof.
  unfold slice. destruct (skipn p l) as [|x r]; simpl; [discriminate|].
  intros [= ->]. now left.
Qed.

Lemma In_skipn {A : Type} (x : A) (n : nat) (l : list A) :
  In x (skipn n l) -> In x l.
Proof.
  revert l; induction n as [|n IH]; intros [|y l]; simpl; auto.
Qed.

(** A marker [q] met at the head, closed by the next [q]: the offset of the
    end of the group. *)
Lemma end_offset_quoted (q : string) (mid post : list string) :
  ~ In q mid ->
  end_offset [q] [q] true (q :: mid ++ q :: post) = 2 + List.length mid.
Proof.
  intros Hmid. unfold end_offset, starts_with, slice. simpl.
  rewrite String.eqb_refl. simpl.
  unfold find_end. simpl List.length.
  rewrite (find_seq_first _ _ _ (1 + List.length mid)).
  - lia.
  - rewrite length_app. simpl. lia.
  - apply list_eqb_eq. symmetry.
    change (q :: mid ++ q :: post) with ((q :: mid) ++ q :: post).
    apply (slice_one_app (q :: mid) q post).
  - intros i Hi.
    destruct (list_eqb [q] (slice i 1 (q :: mid ++ q :: post))) eqn:E;
      [|reflexivity].
    apply list_eqb_eq in E. symmetry in E.
    destruct i as [|i]; [lia|].
    unfold slice in E. simpl skipn in E.
    assert (Hs : skipn i (mid ++ q :: post)
                 = skipn i mid ++ q :: post).
    { rewrite skipn_app. replace (i - List.length mid) with 0 by lia.
      reflexivity. }
    rewrite Hs in E.
    destruct (skipn i mid) as [|x r] eqn:Es.
    + assert (List.length (skipn i mid) = 0) by now rewrite Es.
      rewrite length_skipn in H. lia.
    + simpl in E. injection E as ->.
      exfalso. apply Hmid. apply (In_skipn q i). rewrite Es. now left.
Qed.

Lemma skipn_length_app {A : Type} (l1 l2 : list A) :
  skipn (List.length l1) (l1 ++ l2) = l2.
Proof. induction l1; simpl; auto. Qed.

Lemma firstn_length_app {A : Type} (l1 l2 : list A) :
  firstn (List.length l1) (l1 ++ l2) = l1.
Proof. induction l1; simpl; congruence. Qed.

Lemma group_loop_quoted (q : string) (mid post : list string) (fuel : nat) :
  ~ In q mid -> ~ In q post -> List.length post <= fuel ->
  group_loop (S fuel) [q] [q] true true (q :: mid ++ q :: post) =
  Ok ((q ++ join mid ++ q)%string :: post).
Proof.
  intros Hmid Hpost Hf.
  cbn [group_loop]. rewrite end_offset_quoted by assumption.
  assert (Hl : q :: mid ++ q :: post = (q :: mid ++ [q]) ++ post).
  { simpl. now rewrite <- app_assoc. }
  assert (Hn : 2 + List.length mid = List.length (q :: mid ++ [q])).
  { simpl. rewrite length_app. simpl. lia. }
  assert (Hskip : skipn (2 + List.length mid) (q :: mid ++ q :: post) = post).
  { rewrite Hl, Hn. apply skipn_length_app. }
  assert (Hfirst : firstn (2 + List.length mid) (q :: mid ++ q :: post)
                   = q :: mid ++ [q]).
  { rewrite Hl, Hn. apply firstn_length_app. }
  rewrite Hskip, group_loop_plain by assumption.
  unfold grouped_tokens. rewrite Hfirst. simpl.
  rewrite join_app. simpl. now rewrite append_empty_r.
Qed.

(** With no end marker from some token on, that token and all after it
    are emitted one by one. *)
Lemma group_loop_no_end (start end_ : list string)
    (include_end include_space : bool) (rest : list string) (fuel : nat) :
  (forall p, List.length start <= p ->
             slice p (List.length end_) rest <> end_) ->
  List.length rest <= fuel ->
  group_loop fuel start end_ include_end include_space rest = Ok rest.
Proof.
  revert fuel. induction rest as [|t rest IH]; intros fuel Hno Hf.
  - destruct fuel; reflexivity.
  - destruct fuel as [|fuel]; [simpl in Hf; lia|].
    rewrite group_loop_step_one by now apply end_offset_no_end.
    rewrite IH; [reflexivity | | simpl in Hf; lia].
    intros p Hp. apply (Hno (S p)). lia.
Qed.

Lemma plain_not_in (s0 : string) (tokens : list string) :
  In s0 marker_heads -> plain tokens -> ~ In s0 tokens.
Proof.
  intros Hs Hp Hin. unfold plain in Hp. rewrite Forall_forall in Hp.
  exact (Hp s0 Hin Hs).
Qed.

(** In a list of plain tokens around one token that begins with a quote,
    no pass of [group] other than the first finds a start marker. *)
Lemma group_rest_plain (pre post : list string) (x : string) :
  plain pre -> plain post ->
  let l := pre ++ (dquote ++ x)%string :: post in
  (tokens <- group_tokens l ["/"; "*"] ["*"; "/"] true true ;;
   tokens <- group_tokens tokens ["["; "["] ["]"; "]"] true true ;;
   tokens <- group_tokens tokens ["#"; "include"] [newline] true false ;;
   tokens <- group_tokens tokens ["#"; "ifndef"; " "; "MINIFIED"]
               ["#"; "endif"] true true ;;
   tokens <- group_tokens tokens ["/"; "/"] [newline] false true ;;
   group_tokens tokens ["'"] ["'"] true true)
  = Ok l.
Proof.
  intros Hpre Hpost l.
  assert (Hl : forall s0, In s0 ["/"; "["; "#"; "'"] -> ~ In s0 l).
  { intros s0 Hs Hin. unfold l in Hin. apply in_app_or in Hin.
    assert (Hh : In s0 marker_heads) by (right; exact Hs).
    destruct Hin as [Hin|[E|Hin]].
    - exact (plain_not_in s0 pre Hh Hpre Hin).
    - simpl in Hs. destruct Hs as [<-|[<-|[<-|[<-|[]]]]]; discriminate E.
    - exact (plain_not_in s0 post Hh Hpost Hin). }
  rewrite group_tokens_plain by (apply Hl; simpl; auto). cbn [bind].
  rewrite group_tokens_plain by (apply Hl; simpl; auto). cbn [bind].
  rewrite group_tokens_plain by (apply Hl; simpl; auto). cbn [bind].
  rewrite group_tokens_plain by (apply Hl; simpl; auto). cbn [bind].
  rewrite group_tokens_plain by (apply Hl; simpl; auto). cbn [bind].
  apply group_tokens_plain. apply Hl. simpl. auto.
Qed.

(** C9. (1) When the start marker matches where the scan stands and no end
    marker follows before the input is exhausted, [group_tokens] emits the
    token it stands on alone, unmerged, and scans on from the next token; the
    tokens of the start marker and all tokens after them come out one by one
    as they are.  For a one-token marker such as a quote the token emitted
    alone is the start marker, and a list with one unterminated quote comes
    back unchanged.  (2) When one terminated quoted literal is present, the
    span from the opening quote to the closing quote inclusive becomes
    exactly one token and all other tokens stay as they are.  (3) The same
    holds for the seven passes of [group] on a double-quoted literal among
    tokens that start no other group. *)
Theorem group_tokens_literal (start end_ : list string)
    (include_end include_space : bool) (q : string) :
  (forall t rest,
      starts_with start (t :: rest) = true ->
      (forall p, List.length start <= p ->
                 slice p (List.length end_) (t :: rest) <> end_) ->
      group_tokens (t :: rest) start end_ include_end include_space =
      (out <- group_tokens rest start end_ include_end include_space ;;
       Ok (t :: out))
      /\ group_tokens (t :: rest) start end_ include_end include_space =
         Ok (t :: rest))
  /\ (forall pre post,
      ~ In q pre -> ~ In q post ->
      group_tokens (pre ++ q :: post) [q] [q] true true =
      Ok (pre ++ q :: post))
  /\ (forall pre mid post,
      ~ In q pre -> ~ In q mid -> ~ In q post ->
      group_tokens (pre ++ q :: mid ++ q :: post) [q] [q] true true =
      Ok (pre ++ (q ++ join mid ++ q)%string :: post))
  /\ (forall pre post,
      plain pre -> plain post ->
      group (pre ++ dquote :: post) = Ok (pre ++ dquote :: post))
  /\ (forall pre mid post,
      plain pre -> ~ In dquote mid -> plain post ->
      group (pre ++ dquote :: mid ++ dquote :: post) =
      Ok (pre ++ (dquote ++ join mid ++ dquote)%string :: post)).
Proof.
  assert (H2 : forall q pre post,
      ~ In q pre -> ~ In q post ->
      group_tokens (pre ++ q :: post) [q] [q] true true =
      Ok (pre ++ q :: post)).
  { clear q. intros q pre post Hpre Hpost. unfold group_tokens.
    rewrite length_app. rewrite group_loop_skip by assumption.
    simpl List.length. rewrite group_loop_step_one.
    + rewrite group_loop_plain by (assumption || lia). reflexivity.
    + apply end_offset_no_end. intros p Hp E.
      simpl in Hp. destruct p as [|p]; [lia|].
      assert (E' : slice p 1 post = [q]) by exact E.
      apply slice_one_in in E'. apply In_skipn in E'. contradiction. }
  assert (H3 : forall q pre mid post,
      ~ In q pre -> ~ In q mid -> ~ In q post ->
      group_tokens (pre ++ q :: mid ++ q :: post) [q] [q] true true =
      Ok (pre ++ (q ++ join mid ++ q)%string :: post)).
  { clear q. intros q pre mid post Hpre Hmid Hpost. unfold group_tokens.
    rewrite length_app. rewrite group_loop_skip by assumption.
    simpl List.length. rewrite length_app. simpl List.length.
    replace (S (List.length mid + S (List.length post)))
      with (S (S (List.length mid + List.length post))) by lia.
    rewrite group_loop_quoted by (assumption || lia). reflexivity. }
  assert (Hq : In dquote marker_heads) by now left.
  split; [|split; [|split; [|split]]].
  - intros t rest _ Hno. unfold group_tokens. split.
    + simpl List.length.
      apply group_loop_step_one, end_offset_no_end, Hno.
    + now apply group_loop_no_end.
  - apply H2.
  - apply H3.
  - intros pre post Hpre Hpost. unfold group.
    rewrite H2 by (apply plain_not_in; assumption). cbn [bind].
    exact (group_rest_plain pre post "" Hpre Hpost).
  - intros pre mid post Hpre Hmid Hpost. unfold group.
    rewrite H3 by (assumption || apply plain_not_in; assumption).
    cbn [bind].
    exact (group_rest_plain pre post _ Hpre Hpost).
Qed.

(** ** Dictionaries *)

Section DictFacts.
Context {K V : Type} `{Eqb K}.
Implicit Types (k : K) (v : V) (d : dict K V).

Lemma eqb_refl k : eqb k k = true.
Proof. destruct (eqb_spec k k); congruence. Qed.

Lemma eqb_neq k k' : k <> k' -> eqb k k' = false.
Proof. destruct (eqb_spec k k'); congruence. Qed.

Lemma mem_In (x : K) (l : list K) : mem x l = true <-> In x l.
Proof.
  induction l as [|y l IH]; simpl; [split; [discriminate | tauto]|].
  rewrite orb_true_iff, IH.
  destruct (eqb_spec x y); split; intros [|]; auto; try congruence.
Qed.

Lemma dict_get_set_eq k v d : dict_get k (dict_set k v d) = Some v.
Proof.
  induction d as [|[k' v'] d IH]; simpl.
  - now rewrite eqb_refl.
  - destruct (eqb_spec k k') as [->|Hne]; simpl.
    + now rewrite eqb_refl.
    + now rewrite (eqb_neq _ _ Hne).
Qed.

Lemma dict_get_set_neq k k' v d :
  k <> k' -> dict_get k' (dict_set k v d) = dict_get k' d.
Proof.
  intros Hne. induction d as [|[k0 v0] d IH]; simpl.
  - rewrite eqb_neq by congruence. reflexivity.
  - destruct (eqb_spec k k0) as [->|Hne0]; simpl.
    + rewrite (eqb_neq k' k0) by congruence. reflexivity.
    + now rewrite IH.
Qed.

Lemma dict_set_same k v d : dict_get k d = Some v -> dict_set k v d = d.
Proof.
  induction d as [|[k' v'] d IH]; simpl; [discriminate|].
  destruct (eqb_spec k k') as [->|Hne].
  - now intros [= ->].
  - intros E. now rewrite IH.
Qed.

Lemma dict_mem_keys k d : dict_mem k d = true <-> In k (dict_keys d).
Proof.
  unfold dict_mem. induction d as [|[k' v'] d IH]; simpl.
  - split; [discriminate | tauto].
  - destruct (eqb_spec k k') as [->|Hne].
    + split; auto.
    + rewrite IH. split; [auto | intros [|]; congruence || auto].
Qed.

Lemma dict_get_none_keys k d : dict_get k d = None <-> ~ In k (dict_keys d).
Proof.
  rewrite <- dict_mem_keys. unfold dict_mem.
  destruct (dict_get k d); split; congruence.
Qed.

Lemma dict_get_In k v d : dict_get k d = Some v -> In (k, v) d.
Proof.
  induction d as [|[k' v'] d IH]; simpl; [discriminate|].
  destruct (eqb_spec k k') as [->|Hne].
  - intros [= ->]. now left.
  - intros E. right. auto.
Qed.

Lemma In_dict_get k v d :
  NoDup (dict_keys d) -> In (k, v) d -> dict_get k d = Some v.
Proof.
  induction d as [|[k' v'] d IH]; simpl; [tauto|].
  intros Hnd [E|Hin]; inversion Hnd as [|? ? Hk Hd]; subst.
  - injection E as -> ->. now rewrite eqb_refl.
  - destruct (eqb_spec k k') as [->|Hne]; [|auto].
    exfalso. apply Hk. change k' with (fst (k', v)).
    now apply in_map.
Qed.

(** Where [dict_set] leaves the keys: in place, or one more at the end. *)
Lemma dict_keys_set k v d :
  dict_keys (dict_set k v d)
  = if dict_mem k d then dict_keys d else dict_keys d ++ [k].
Proof.
  unfold dict_mem. induction d as [|[k' v'] d IH]; simpl; [reflexivity|].
  destruct (eqb_spec k k') as [->|Hne]; simpl; [reflexivity|].
  rewrite IH. now destruct (dict_get k d).
Qed.

Lemma dict_keys_set_NoDup k v d :
  NoDup (dict_keys d) -> NoDup (dict_keys (dict_set k v d)).
Proof.
  intros Hnd. rewrite dict_keys_set.
  destruct (dict_mem k d) eqn:E; [assumption|].
  apply NoDup_app; [assumption | repeat constructor; simpl; tauto |].
  intros x Hx [<-|[]].
  apply dict_mem_keys in Hx. congruence.
Qed.
End DictFacts.

Lemma dict_all_set {K V : Type} `{Eqb K} (P : V -> Prop) (k : K) (v : V)
    (d : dict K V) :
  dict_all P d -> P v -> dict_all P (dict_set k v d).
Proof.
  unfold dict_all. intros Hd Hv.
  induction d as [|[k' v'] d IH]; simpl.
  - repeat constructor. assumption.
  - inversion Hd as [|? ? Hk Hd']; subst.
    destruct (eqb k k'); constructor; auto.
Qed.

Lemma dict_all_get {K V : Type} `{Eqb K} (P : V -> Prop) (k : K) (v : V)
    (d : dict K V) :
  dict_all P d -> dict_get k d = Some v -> P v.
Proof.
  unfold dict_all. intros Hd E. apply dict_get_In in E.
  rewrite Forall_forall in Hd. exact (Hd _ E).
Qed.


(** ** Order of appearance in a list *)

Lemma before_cons {A : Type} (a b x : A) (l : list A) :
  before a b l -> before a b (x :: l).
Proof.
  intros (l1 & l2 & l3 & ->). now exists (x :: l1), l2, l3.
Qed.

Lemma before_head {A : Type} (a b : A) (l : list A) :
  In b l -> before a b (a :: l).
Proof.
  intros Hin. apply in_split in Hin as (l2 & l3 & ->).
  now exists [], l2, l3.
Qed.

Lemma before_map {A B : Type} (f : A -> B) (a b : A) (l : list A) :
  before a b l -> before (f a) (f b) (map f l).
Proof.
  intros (l1 & l2 & l3 & ->).
  exists (map f l1), (map f l2), (map f l3).
  now rewrite map_app; simpl; rewrite map_app.
Qed.

Lemma before_filter {A : Type} (f : A -> bool) (a b : A) (l : list A) :
  f a = true -> f b = true -> before a b l -> before a b (filter f l).
Proof.
  intros Ha Hb (l1 & l2 & l3 & ->).
  exists (filter f l1), (filter f l2), (filter f l3).
  rewrite filter_app. simpl. rewrite Ha, filter_app. simpl. now rewrite Hb.
Qed.

Lemma before_nth_error {A : Type} (a b : A) (l : list A) :
  before a b l ->
  exists i j, i < j /\ nth_error l i = Some a /\ nth_error l j = Some b.
Proof.
  intros (l1 & l2 & l3 & ->).
  exists (List.length l1), (List.length l1 + S (List.length l2)).
  split; [lia|]. split.
  - rewrite nth_error_app2, Nat.sub_diag by lia. reflexivity.
  - rewrite nth_error_app2 by lia.
    replace (List.length l1 + S (List.length l2) - List.length l1)
      with (S (List.length l2)) by lia.
    simpl. rewrite nth_error_app2, Nat.sub_diag by lia. reflexivity.
Qed.

Lemma sorted_before {A : Type} (R : A -> A -> Prop) (a b : A) (l : list A) :
  StronglySorted R l -> In a l -> In b l -> a <> b -> ~ R b a ->
  before a b l.
Proof.
  intros Hs Ha Hb Hne Hr. induction Hs as [|x l Hs IH Hx]; [contradiction|].
  destruct Ha as [->|Ha], Hb as [->|Hb]; try congruence.
  - now apply before_head.
  - exfalso. apply Hr. rewrite Forall_forall in Hx. auto.
  - apply before_cons. auto.
Qed.

(** ** Sorting by descending value *)

Lemma insert_desc_perm {K : Type} (kv : K * nat) (l : dict K nat) :
  Permutation (insert_desc kv l) (kv :: l).
Proof.
  induction l as [|x l IH]; simpl; [reflexivity|].
  destruct (snd kv <? snd x); [|reflexivity].
  rewrite IH. apply perm_swap.
Qed.

Lemma sort_dict_perm {K : Type} (d : dict K nat) : Permutation (sort_dict d) d.
Proof.
  induction d as [|kv d IH]; simpl; [reflexivity|].
  rewrite insert_desc_perm. now constructor.
Qed.

Lemma insert_desc_sorted {K : Type} (kv : K * nat) (l : dict K nat) :
  descending l -> descending (insert_desc kv l).
Proof.
  unfold descending. intros Hs. induction Hs as [|x l Hs IH Hx]; simpl.
  - repeat constructor.
  - destruct (snd kv <? snd x) eqn:E.
    + apply Nat.ltb_lt in E. constructor; [assumption|].
      eapply Permutation_Forall; [symmetry; apply insert_desc_perm|].
      constructor; [lia | assumption].
    + apply Nat.ltb_ge in E. constructor; [now constructor|].
      constructor; [assumption|].
      eapply Forall_impl; [|exact Hx]. simpl. intros; lia.
Qed.

Lemma sort_dict_sorted {K : Type} (d : dict K nat) : descending (sort_dict d).
Proof.
  induction d as [|kv d IH]; simpl; [constructor|].
  now apply insert_desc_sorted.
Qed.

Lemma sort_dict_keys_perm {K : Type} (d : dict K nat) :
  Permutation (dict_keys (sort_dict d)) (dict_keys d).
Proof. apply Permutation_map, sort_dict_perm. Qed.

Lemma sort_dict_NoDup {K : Type} (d : dict K nat) :
  NoDup (dict_keys d) -> NoDup (dict_keys (sort_dict d)).
Proof.
  intros Hnd. eapply Permutation_NoDup; [|exact Hnd].
  symmetry. apply sort_dict_keys_perm.
Qed.

(** In a sorted dictionary a key with a larger value comes first. *)
Lemma sort_dict_before (d : dict string nat) (k1 k2 : string) (v1 v2 : nat) :
  NoDup (dict_keys d) ->
  dict_get k1 d = Some v1 -> dict_get k2 d = Some v2 -> v2 < v1 ->
  before k1 k2 (dict_keys (sort_dict d)).
Proof.
  intros Hnd H1 H2 Hlt.
  apply (before_map fst (k1, v1) (k2, v2)).
  apply (sorted_before _ _ _ _ (sort_dict_sorted d)).
  - apply (Permutation_in _ (Permutation_sym (sort_dict_perm d))).
    now apply dict_get_In.
  - apply (Permutation_in _ (Permutation_sym (sort_dict_perm d))).
    now apply dict_get_In.
  - intros [= -> ->]. lia.
  - simpl. lia.
Qed.

(** ** Name generator *)

Lemma succ_div_mod (k : nat) :
  (k mod 52 = 51 /\ S k mod 52 = 0 /\ S k / 52 = S (k / 52))
  \/ (k mod 52 < 51 /\ S k mod 52 = S (k mod 52) /\ S k / 52 = k / 52).
Proof.
  pose proof (Nat.div_mod_eq k 52) as Hk.
  pose proof (Nat.mod_upper_bound k 52 ltac:(lia)) as Hm.
  destruct (Nat.eq_dec (k mod 52) 51) as [E|E]; [left | right].
  - split; [assumption|].
    assert (S k = 52 * S (k / 52) + 0) as Hs by lia.
    split.
    + symmetry. apply (Nat.mod_unique _ 52 (S (k / 52))); lia.
    + symmetry. apply (Nat.div_unique _ 52 _ 0); lia.
  - split; [lia|].
    assert (S k = 52 * (k / 52) + S (k mod 52)) as Hs by lia.
    split.
    + symmetry. apply (Nat.mod_unique _ 52 (k / 52)); lia.
    + symmetry. apply (Nat.div_unique _ 52 _ (S (k mod 52))); lia.
Qed.

Lemma generate_name_known (t n : string) (st : namer) :
  dict_get t (names st) = Some n -> generate_name t st = (n, st).
Proof. intros E. unfold generate_name. now rewrite E. Qed.

Lemma generate_name_fresh (t : string) (k : nat) (st : namer) :
  dict_get t (names st) = None -> at_rank k st ->
  fst (generate_name t st) = code_at k
  /\ names (snd (generate_name t st)) = dict_set t (code_at k) (names st)
  /\ at_rank (S k) (snd (generate_name t st)).
Proof.
  intros E [Hc Hr]. unfold generate_name. rewrite E.
  unfold code_at. rewrite Hc, Hr.
  pose proof (Nat.mod_upper_bound k 52 ltac:(lia)) as Hm.
  assert (Hcase :
    (let c := (if counter_at (k mod 52) =? 90 then 96
               else counter_at (k mod 52)) + 1 in
     (k mod 52 = 51 /\ (122 <? c) = true)
     \/ (k mod 52 < 51 /\ (122 <? c) = false
         /\ c = counter_at (S (k mod 52))))).
  { unfold counter_at. cbv zeta.
    destruct (k mod 52 <? 26) eqn:E26;
      [apply Nat.ltb_lt in E26 | apply Nat.ltb_ge in E26].
    - right. split; [lia|].
      destruct (65 + k mod 52 =? 90) eqn:E90;
        [apply Nat.eqb_eq in E90 | apply Nat.eqb_neq in E90].
      + split; [reflexivity|].
        replace (S (k mod 52) <? 26) with false
          by (symmetry; apply Nat.ltb_ge; lia). lia.
      + split; [apply Nat.ltb_ge; lia|].
        replace (S (k mod 52) <? 26) with true
          by (symmetry; apply Nat.ltb_lt; lia). lia.
    - replace (71 + k mod 52 =? 90) with false
        by (symmetry; apply Nat.eqb_neq; lia).
      destruct (Nat.eq_dec (k mod 52) 51) as [E51|E51].
      + left. split; [assumption|]. apply Nat.ltb_lt. lia.
      + right. split; [lia|]. split; [apply Nat.ltb_ge; lia|].
        replace (S (k mod 52) <? 26) with false
          by (symmetry; apply Nat.ltb_ge; lia). lia. }
  cbv zeta in Hcase. unfold at_rank.
  destruct (succ_div_mod k) as [(H51 & Hmod & Hdiv)|(H51 & Hmod & Hdiv)];
    destruct Hcase as [(H51' & Hlt)|(H51' & Hlt & Hnext)]; try lia;
    rewrite Hlt; cbn [fst snd names counter resets]; rewrite Hmod, Hdiv.
  - repeat split. lia.
  - repeat split. assumption.
Qed.

Lemma assign_name_snd (st : namer) (t : string) :
  assign_name st t = snd (generate_name t st).
Proof.
  unfold assign_name, generate_name.
  destruct (dict_get t (names st)) as [n|] eqn:E.
  - unfold set_names. rewrite (dict_set_same _ _ _ E). now destruct st.
  - destruct (122 <? _); unfold set_names; simpl;
      now rewrite dict_set_same by apply dict_get_set_eq.
Qed.

(** A name once in the table stays as it is. *)
Lemma assign_name_keeps (st : namer) (t t' n : string) :
  dict_get t (names st) = Some n ->
  dict_get t (names (assign_name st t')) = Some n.
Proof.
  intros E. rewrite assign_name_snd. unfold generate_name.
  destruct (dict_get t' (names st)) as [n'|] eqn:E'; [assumption|].
  assert (t' <> t) by congruence.
  destruct (122 <? _); simpl; now rewrite dict_get_set_neq.
Qed.

Lemma assign_names_keeps (keys : list string) (st : namer) (t n : string) :
  dict_get t (names st) = Some n ->
  dict_get t (names (assign_names keys st)) = Some n.
Proof.
  unfold assign_names. revert st.
  induction keys as [|k keys IH]; intros st E; simpl; [assumption|].
  apply IH. now apply assign_name_keeps.
Qed.

(** The [i]-th key that is not yet in the table gets the [i]-th next code. *)
Lemma assign_names_fresh (keys : list string) (st : namer) (k i : nat)
    (t : string) :
  NoDup keys -> at_rank k st ->
  nth_error (filter (fun t => negb (dict_mem t (names st))) keys) i = Some t ->
  dict_get t (names (assign_names keys st)) = Some (code_at (k + i)).
Proof.
  unfold assign_names. revert st k i.
  induction keys as [|x keys IH]; intros st k i Hnd Hk Hi; simpl in *.
  - destruct i; discriminate.
  - inversion Hnd as [|? ? Hx Hnd']; subst.
    unfold dict_mem in Hi at 1.
    destruct (dict_get x (names st)) as [n|] eqn:E; simpl in Hi.
    + rewrite assign_name_snd, (generate_name_known _ _ _ E). simpl.
      now apply IH.
    + destruct (generate_name_fresh x k st E Hk) as (_ & Hn & Hk').
      rewrite <- assign_name_snd in Hn, Hk'.
      destruct i as [|i]; simpl in Hi.
      * injection Hi as <-. rewrite Nat.add_0_r.
        apply (assign_names_keeps keys). rewrite Hn. apply dict_get_set_eq.
      * replace (k + S i) with (S k + i) by lia.
        apply IH; [assumption | assumption |].
        rewrite <- Hi. f_equal. apply filter_ext_in.
        intros a Ha. unfold dict_mem. rewrite Hn.
        rewrite dict_get_set_neq; [reflexivity|]. congruence.
Qed.

(** ** Codes *)

#[local] Arguments Nat.modulo : simpl never.
#[local] Arguments Nat.div : simpl never.

Lemma chr_counter_at (m : nat) : m < 52 -> chr (counter_at m) = letter m.
Proof.
  intros Hm.
  do 52 (destruct m as [|m]; [reflexivity|]). lia.
Qed.

Lemma letter_index_letter (m : nat) : m < 52 -> letter_index (letter m) = Some m.
Proof.
  intros Hm.
  do 52 (destruct m as [|m]; [reflexivity|]). lia.
Qed.

Lemma code_at_rank_code (k : nat) : code_at k = rank_code (S k).
Proof.
  unfold code_at, rank_code.
  rewrite Nat.sub_succ, Nat.sub_0_r, Nat.add_comm.
  f_equal. apply chr_counter_at, Nat.mod_upper_bound. lia.
Qed.

Lemma repeat_char_length (c : ascii) (n : nat) :
  String.length (repeat_char c n) = n.
Proof. induction n; simpl; congruence. Qed.

Lemma code_at_length (k : nat) : String.length (code_at k) = k / 52 + 1.
Proof. apply repeat_char_length. Qed.

Lemma code_at_head (k : nat) :
  exists s, code_at k = String (letter (k mod 52)) s.
Proof.
  unfold code_at. rewrite chr_counter_at by (apply Nat.mod_upper_bound; lia).
  rewrite Nat.add_comm. simpl. eauto.
Qed.

Lemma letter_inj (m n : nat) : m < 52 -> n < 52 -> letter m = letter n -> m = n.
Proof.
  intros Hm Hn E.
  apply (f_equal letter_index) in E.
  rewrite !letter_index_letter in E by assumption. congruence.
Qed.

Lemma code_at_inj (i j : nat) : code_at i = code_at j -> i = j.
Proof.
  intros E.
  pose proof (f_equal String.length E) as El.
  rewrite !code_at_length in El.
  destruct (code_at_head i) as [si Hi], (code_at_head j) as [sj Hj].
  rewrite Hi, Hj in E.
  assert (Ec : letter (i mod 52) = letter (j mod 52)) by congruence.
  apply letter_inj in Ec; try (apply Nat.mod_upper_bound; lia).
  pose proof (Nat.div_mod_eq i 52). pose proof (Nat.div_mod_eq j 52). lia.
Qed.

Lemma letter_is_alpha (m : nat) : m < 52 -> isalpha (letter m) = true.
Proof.
  intros Hm.
  do 52 (destruct m as [|m]; [reflexivity|]). lia.
Qed.

Lemma code_at_is_name (k : nat) : is_name (code_at k) = true.
Proof.
  destruct (code_at_head k) as [s ->]. simpl.
  rewrite letter_is_alpha by (apply Nat.mod_upper_bound; lia). reflexivity.
Qed.

Lemma lex_earlier_repeat (m n len : nat) :
  m < n -> n < 52 ->
  lex_earlier (repeat_char (letter m) (S len)) (repeat_char (letter n) (S len))
  = true.
Proof.
  intros Hmn Hn. simpl.
  rewrite !letter_index_letter by lia.
  replace (m <? n) with true by (symmetry; apply Nat.ltb_lt; lia).
  reflexivity.
Qed.

Lemma code_at_earlier (i j : nat) :
  i < j -> earlier_ranked (code_at i) (code_at j) = true.
Proof.
  intros Hij. unfold earlier_ranked. rewrite !code_at_length.
  assert (Hd : i / 52 <= j / 52) by (apply Nat.Div0.div_le_mono; lia).
  destruct (Nat.eq_dec (i / 52) (j / 52)) as [E|E].
  - replace (i / 52 + 1 =? j / 52 + 1) with true
      by (symmetry; apply Nat.eqb_eq; lia).
    apply orb_true_iff. right. simpl.
    unfold code_at. rewrite E.
    rewrite !chr_counter_at by (apply Nat.mod_upper_bound; lia).
    rewrite Nat.add_comm. apply lex_earlier_repeat.
    + pose proof (Nat.div_mod_eq i 52). pose proof (Nat.div_mod_eq j 52). lia.
    + apply Nat.mod_upper_bound. lia.
  - replace (i / 52 + 1 <? j / 52 + 1) with true
      by (symmetry; apply Nat.ltb_lt; lia).
    reflexivity.
Qed.

(** ** Frequencies *)

Lemma occurrences_cons (t x : string) (tokens : list string) :
  occurrences t (x :: tokens)
  = if String.eqb x t then S (occurrences t tokens) else occurrences t tokens.
Proof.
  unfold occurrences. simpl.
  destruct (string_dec x t) as [->|Hne].
  - now rewrite String.eqb_refl.
  - now rewrite (proj2 (String.eqb_neq x t) Hne).
Qed.

Lemma occurrences_pos (t : string) (tokens : list string) :
  0 < occurrences t tokens <-> In t tokens.
Proof. unfold occurrences. symmetry. apply count_occ_In. Qed.

Lemma count_tokens_NoDup (tokens : list string) (freq : dict string nat) :
  NoDup (dict_keys freq) -> NoDup (dict_keys (count_tokens tokens freq)).
Proof.
  revert freq. induction tokens as [|x tokens IH]; intros freq Hnd; simpl.
  - assumption.
  - destruct (renamable x); simpl; [|auto].
    apply IH. destruct (dict_get x freq); now apply dict_keys_set_NoDup.
Qed.

(** The table holds, for a renamable token, what it held plus the number
    of occurrences in the stream; other tokens are not counted. *)
Lemma count_tokens_get (tokens : list string) (freq : dict string nat)
    (t : string) :
  dict_get t (count_tokens tokens freq)
  = if renamable t then
      match dict_get t freq, occurrences t tokens with
      | Some n, o => Some (n + o)
      | None, 0 => None
      | None, S o => Some (S o)
      end
    else dict_get t freq.
Proof.
  revert freq. induction tokens as [|x tokens IH]; intros freq.
  - unfold occurrences. simpl.
    destruct (renamable t); [|reflexivity].
    destruct (dict_get t freq); [now rewrite Nat.add_0_r | reflexivity].
  - cbn [count_tokens]. rewrite occurrences_cons.
    destruct (renamable x) eqn:Ex; cbn [negb].
    + rewrite IH. destruct (String.eqb_spec x t) as [->|Hne].
      * rewrite Ex. destruct (dict_get t freq) as [n|] eqn:E.
        -- rewrite dict_get_set_eq. f_equal. lia.
        -- rewrite dict_get_set_eq. f_equal.
      * destruct (renamable t); destruct (dict_get x freq);
          now rewrite dict_get_set_neq.
    + rewrite IH. destruct (String.eqb_spec x t) as [->|Hne]; [|reflexivity].
      now rewrite Ex.
Qed.

Lemma count_tokens_value (tokens : list string) (t : string) :
  renamable t = true -> In t tokens ->
  dict_get t (count_tokens tokens []) = Some (occurrences t tokens).
Proof.
  intros Hr Hin. rewrite count_tokens_get, Hr. simpl.
  apply occurrences_pos in Hin. destruct (occurrences t tokens); [lia|].
  reflexivity.
Qed.

Lemma get_frequencies_NoDup (tokens : list string) :
  NoDup (dict_keys (get_frequencies tokens)).
Proof. apply sort_dict_NoDup, count_tokens_NoDup. constructor. Qed.

Lemma get_frequencies_keys (tokens : list string) (t : string) :
  In t (dict_keys (get_frequencies tokens))
  <-> renamable t = true /\ In t tokens.
Proof.
  unfold get_frequencies. split.
  - intros Hx. apply (Permutation_in _ (sort_dict_keys_perm _)) in Hx.
    apply dict_mem_keys in Hx. unfold dict_mem in Hx.
    rewrite count_tokens_get in Hx. simpl in Hx.
    destruct (renamable t); [|discriminate]. split; [reflexivity|].
    apply occurrences_pos. destruct (occurrences t tokens); [discriminate | lia].
  - intros [Hr Hin].
    apply (Permutation_in _ (Permutation_sym (sort_dict_keys_perm _))).
    apply dict_mem_keys. unfold dict_mem.
    now rewrite count_tokens_value.
Qed.

(** ** The seeded table *)

Lemma seed_names_rank : at_rank 0 (seed_names namer_init).
Proof. split; reflexivity. Qed.

Lemma seed_names_keys :
  dict_keys (names (seed_names namer_init)) = "true" :: "false" :: KEYWORDS.
Proof. vm_compute. reflexivity. Qed.

Lemma seed_names_true :
  dict_get "true" (names (seed_names namer_init)) = Some "1".
Proof. vm_compute. reflexivity. Qed.

Lemma seed_names_false :
  dict_get "false" (names (seed_names namer_init)) = Some "0".
Proof. vm_compute. reflexivity. Qed.

Lemma seed_names_keyword (kw : string) :
  is_keyword kw = true ->
  dict_get kw (names (seed_names namer_init)) = Some kw.
Proof.
  intros Hk. apply mem_In in Hk.
  assert (Hall : forallb
            (fun kw => match dict_get kw (names (seed_names namer_init)) with
                       | Some v => String.eqb v kw
                       | None => false
                       end) KEYWORDS = true) by (vm_compute; reflexivity).
  rewrite forallb_forall in Hall. specialize (Hall kw Hk).
  destruct (dict_get kw _) as [v|]; [|discriminate].
  apply String.eqb_eq in Hall. congruence.
Qed.

Lemma renamable_not_keyword (t : string) :
  renamable t = true -> ~ In t KEYWORDS.
Proof.
  unfold renamable, is_keyword. intros Hr Hin.
  apply mem_In in Hin. rewrite Hin in Hr. discriminate.
Qed.

(** A renamable token is in the seeded table only as [true] or [false]. *)
Lemma seed_names_renamable (t : string) :
  renamable t = true -> t <> "true" -> t <> "false" ->
  dict_mem t (names (seed_names namer_init)) = false.
Proof.
  intros Hr Ht Hf.
  destruct (dict_mem t _) eqn:E; [|reflexivity].
  apply dict_mem_keys in E. rewrite seed_names_keys in E.
  destruct E as [E|[E|E]]; try congruence.
  exfalso. now apply (renamable_not_keyword t).
Qed.

(** What the final table holds for a renamable token of the stream. *)
Lemma final_names_cases (tokens : list string) (t : string) :
  renamable t = true -> In t tokens ->
  let table := names (final_names tokens namer_init) in
  (t = "true" /\ dict_get t table = Some "1")
  \/ (t = "false" /\ dict_get t table = Some "0")
  \/ (exists i, nth_error (fresh_tokens tokens namer_init) i = Some t
                /\ dict_get t table = Some (code_at i)).
Proof.
  intros Hr Hin table. unfold table, final_names.
  destruct (String.eqb_spec t "true") as [->|Ht].
  { left. split; [reflexivity|].
    apply assign_names_keeps, seed_names_true. }
  destruct (String.eqb_spec t "false") as [->|Hf].
  { right. left. split; [reflexivity|].
    apply assign_names_keeps, seed_names_false. }
  right. right.
  assert (Hfresh : In t (fresh_tokens tokens namer_init)).
  { unfold fresh_tokens. apply filter_In. split.
    - now apply get_frequencies_keys.
    - now rewrite seed_names_renamable. }
  apply In_nth_error in Hfresh as [i Hi]. exists i. split; [assumption|].
  apply (assign_names_fresh _ _ 0 i);
    [apply get_frequencies_NoDup | apply seed_names_rank | exact Hi].
Qed.

Lemma code_at_not_digit (k : nat) (c : ascii) :
  isalpha c = false -> code_at k <> String c EmptyString.
Proof.
  intros Hc E. destruct (code_at_head k) as [s Hs]. rewrite Hs in E.
  injection E as E _. rewrite <- E in Hc.
  rewrite letter_is_alpha in Hc; [discriminate|].
  apply Nat.mod_upper_bound. lia.
Qed.

Lemma generate_name_keeps (st : namer) (t t' n : string) :
  dict_get t (names st) = Some n ->
  dict_get t (names (snd (generate_name t' st))) = Some n.
Proof. rewrite <- assign_name_snd. apply assign_name_keeps. Qed.

Lemma generate_name_recorded (st : namer) (t : string) :
  dict_get t (names (snd (generate_name t st))) = Some (fst (generate_name t st)).
Proof.
  unfold generate_name. destruct (dict_get t (names st)) eqn:E; [assumption|].
  destruct (122 <? _); simpl; apply dict_get_set_eq.
Qed.

(** ** The final code table *)

Lemma later_calls_keep (later : list string) (st : namer) (t n : string) :
  dict_get t (names st) = Some n ->
  dict_get t
    (names (fold_left (fun s x => snd (generate_name x s)) later st))
  = Some n.
Proof.
  revert st. induction later as [|x later IH]; intros st E; simpl.
  - assumption.
  - apply IH. now apply generate_name_keeps.
Qed.

(** C2. From the state of a fresh process, for every token stream: (1) each
    renamable token of the stream has a code in the final table, and two
    renamable tokens with the same code are the same token, so [N] distinct
    renamable tokens get [N] pairwise distinct codes; (2) a token that got a
    code gets the same code from every later call of [generate_name],
    whatever was generated in between; (3) the token of rank [r], counted
    from 1 among the tokens whose code is generated, has the code made of the
    letter at position [(r-1) mod 52] of [A..Za..z], repeated
    [1 + (r-1)/52] times. *)
Theorem final_code_table (tokens : list string) :
  let table := names (final_names tokens namer_init) in
  (forall t, In t tokens -> renamable t = true ->
             exists c, dict_get t table = Some c)
  /\ (forall t1 t2 c,
        In t1 tokens -> In t2 tokens ->
        renamable t1 = true -> renamable t2 = true ->
        dict_get t1 table = Some c -> dict_get t2 table = Some c -> t1 = t2)
  /\ (forall st t later,
        fst (generate_name t
               (fold_left (fun s x => snd (generate_name x s)) later
                  (snd (generate_name t st))))
        = fst (generate_name t st))
  /\ (forall r t,
        1 <= r ->
        nth_error (fresh_tokens tokens namer_init) (r - 1) = Some t ->
        dict_get t table = Some (rank_code r)).
Proof.
  intros table. repeat split.
  - intros t Hin Hr.
    destruct (final_names_cases tokens t Hr Hin)
      as [[_ E]|[[_ E]|(i & _ & E)]]; eauto.
  - intros t1 t2 c Hin1 Hin2 Hr1 Hr2 E1 E2.
    destruct (final_names_cases tokens t1 Hr1 Hin1)
      as [[-> F1]|[[-> F1]|(i & Hi & F1)]];
    destruct (final_names_cases tokens t2 Hr2 Hin2)
      as [[-> F2]|[[-> F2]|(j & Hj & F2)]];
    try reflexivity; fold table in F1, F2;
    rewrite E1 in F1; rewrite E2 in F2; try congruence.
    + exfalso. apply (code_at_not_digit j "1"); [reflexivity | congruence].
    + exfalso. apply (code_at_not_digit j "0"); [reflexivity | congruence].
    + exfalso. apply (code_at_not_digit i "1"); [reflexivity | congruence].
    + exfalso. apply (code_at_not_digit i "0"); [reflexivity | congruence].
    + assert (i = j) by (apply code_at_inj; congruence). congruence.
  - intros st t later.
    rewrite (generate_name_known t (fst (generate_name t st))); [reflexivity|].
    apply later_calls_keep, generate_name_recorded.
  - intros r t Hr Hnth. unfold table, final_names.
    destruct r as [|k]; [lia|].
    rewrite Nat.sub_succ, Nat.sub_0_r in Hnth.
    rewrite <- code_at_rank_code.
    apply (assign_names_fresh _ _ 0 k);
      [apply get_frequencies_NoDup | apply seed_names_rank | exact Hnth].
Qed.

(** C7. For two renamable tokens of the stream with different numbers of
    occurrences, the one with more occurrences gets the earlier-ranked code:
    strictly shorter, or of equal length and lexicographically earlier in
    the order [A..Za..z].  The renamable tokens of the final stage are the
    names that are no reserved keyword and neither of the two literal
    spellings [true] and [false], whose codes [1] and [0] are fixed by
    lines 456-457: [renamable] holds of the token and it is not one of the
    two spellings. *)
Theorem more_frequent_earlier (tokens : list string) (t1 t2 : string) :
  renamable t1 = true -> renamable t2 = true ->
  t1 <> "true" -> t1 <> "false" -> t2 <> "true" -> t2 <> "false" ->
  In t2 tokens ->
  occurrences t2 tokens < occurrences t1 tokens ->
  let table := names (final_names tokens namer_init) in
  exists c1 c2,
    dict_get t1 table = Some c1 /\ dict_get t2 table = Some c2
    /\ earlier_ranked c1 c2 = true.
Proof.
  intros Hr1 Hr2 Ht1 Hf1 Ht2 Hf2 Hin2 Hlt table.
  assert (Hin1 : In t1 tokens) by (apply occurrences_pos; lia).
  assert (Hb : before t1 t2 (fresh_tokens tokens namer_init)).
  { unfold fresh_tokens. apply before_filter.
    - now rewrite seed_names_renamable.
    - now rewrite seed_names_renamable.
    - unfold get_frequencies.
      apply (sort_dict_before _ _ _ (occurrences t1 tokens)
               (occurrences t2 tokens)).
      + apply count_tokens_NoDup. constructor.
      + now apply count_tokens_value.
      + now apply count_tokens_value.
      + assumption. }
  apply before_nth_error in Hb as (i & j & Hij & Hi & Hj).
  exists (code_at i), (code_at j). unfold table, final_names.
  repeat split.
  - apply (assign_names_fresh _ _ 0 i);
      [apply get_frequencies_NoDup | apply seed_names_rank | exact Hi].
  - apply (assign_names_fresh _ _ 0 j);
      [apply get_frequencies_NoDup | apply seed_names_rank | exact Hj].
  - now apply code_at_earlier.
Qed.


(** ** Emitter *)

Lemma attach_eligible_merge (t : string) :
  truthy t = true -> attach_eligible t = negb (merge_sensitive t).
Proof. destruct t; [discriminate | reflexivity]. Qed.

Lemma needs_space_merge (p t : string) :
  truthy p = true -> truthy t = true ->
  needs_space (Some p) t = merge_sensitive p && merge_sensitive t.
Proof.
  intros Hp Ht. unfold needs_space, attachable_tokens.
  rewrite Hp, !attach_eligible_merge by assumption.
  now destruct (merge_sensitive p), (merge_sensitive t).
Qed.

Lemma renamable_merge (t : string) :
  renamable t = true -> merge_sensitive t = true.
Proof.
  unfold renamable, merge_sensitive. intros H.
  apply andb_true_iff in H as [_ ->]. reflexivity.
Qed.

Lemma code_at_sound (k : nat) : sound_code (code_at k).
Proof.
  split.
  - destruct (code_at_head k) as [s ->]. reflexivity.
  - unfold merge_sensitive. now rewrite code_at_is_name.
Qed.

Lemma final_names_covers (tokens : list string) :
  covers (names (final_names tokens namer_init)) tokens.
Proof.
  intros t Hin Hr.
  destruct (final_names_cases tokens t Hr Hin)
    as [[_ E]|[[_ E]|(i & _ & E)]]; rewrite E; eexists; split;
    try reflexivity; try apply code_at_sound; split; reflexivity.
Qed.

Lemma covers_tail (table : dict string string) (t : string)
    (tokens : list string) :
  covers table (t :: tokens) -> covers table tokens.
Proof. intros Hc x Hx. apply Hc. now right. Qed.

(** What [mangle] returns under a covering table keeps a token non-empty
    and keeps its merge-sensitivity. *)
Lemma mangle_covered (table : dict string string) (t : string)
    (tokens : list string) :
  covers table (t :: tokens) ->
  exists t', mangle table t = Ok t'
             /\ (truthy t = true -> truthy t' = true)
             /\ merge_sensitive t' = merge_sensitive t.
Proof.
  intros Hc. unfold mangle. destruct (renamable t) eqn:Hr.
  - destruct (Hc t (or_introl eq_refl) Hr) as (c & E & Ht & Hm).
    exists c. unfold dict_at. rewrite E. simpl.
    rewrite (renamable_merge t Hr). auto.
  - exists t. auto.
Qed.

Lemma new_tokens_spaced (table : dict string string) (tokens : list string)
    (p : string) :
  covers table tokens -> truthy p = true ->
  Forall (fun t => truthy t = true) tokens ->
  exists toks,
    Forall2 (fun t t' => mangle table t = Ok t') tokens toks
    /\ new_tokens table (Some p) tokens = Ok (tl (spaced (p :: toks))).
Proof.
  revert p. induction tokens as [|t tokens IH]; intros p Hc Hp Hall.
  - exists []. split; [constructor | reflexivity].
  - inversion Hall as [|? ? Ht Hall']; subst.
    destruct (mangle_covered table t tokens Hc) as (t' & Em & Ht' & Hm).
    destruct (IH t' (covers_tail _ _ _ Hc) (Ht' Ht) Hall')
      as (toks & Hf & Hn).
    exists (t' :: toks). split; [now constructor|].
    cbn [new_tokens]. rewrite Em. cbn [bind]. rewrite Hn. cbn [bind].
    rewrite needs_space_merge by assumption.
    rewrite <- Hm. reflexivity.
Qed.

(** For a stream of non-empty tokens the emitter writes the mangled tokens
    with spaces as [spaced] puts them. *)
Lemma new_tokens_spaced_all (tokens : list string) :
  Forall (fun t => truthy t = true) tokens ->
  let table := names (final_names tokens namer_init) in
  exists toks,
    Forall2 (fun t t' => mangle table t = Ok t') tokens toks
    /\ new_tokens table None tokens = Ok (spaced toks).
Proof.
  intros Hall table.
  pose proof (final_names_covers tokens) as Hc. fold table in Hc.
  destruct tokens as [|t tokens].
  - exists []. split; [constructor | reflexivity].
  - inversion Hall as [|? ? Ht Hall']; subst.
    destruct (mangle_covered table t tokens Hc) as (t' & Em & Ht' & Hm).
    destruct (new_tokens_spaced table tokens t' (covers_tail _ _ _ Hc)
                (Ht' Ht) Hall') as (toks & Hf & Hn).
    exists (t' :: toks). split; [now constructor|].
    cbn [new_tokens]. rewrite Em. cbn [bind]. rewrite Hn. reflexivity.
Qed.

Lemma new_tokens_woven (table : dict string string) (tokens : list string)
    (prev : option string) :
  covers table tokens ->
  exists toks out,
    Forall2 (fun t t' => mangle table t = Ok t') tokens toks
    /\ new_tokens table prev tokens = Ok out
    /\ woven toks out.
Proof.
  revert prev. induction tokens as [|t tokens IH]; intros prev Hc.
  - exists [], []. repeat split; constructor.
  - destruct (mangle_covered table t tokens Hc) as (t' & Em & _).
    destruct (IH (Some t') (covers_tail _ _ _ Hc)) as (toks & out & Hf & Hn & Hw).
    exists (t' :: toks).
    exists ((if needs_space prev t then [" "] else []) ++ t' :: out).
    split; [now constructor|]. split.
    + cbn [new_tokens]. rewrite Em. cbn [bind]. rewrite Hn. reflexivity.
    + destruct (needs_space prev t); simpl; now constructor.
Qed.

Lemma mangle_keyword (table : dict string string) (t : string) :
  is_keyword t = true -> mangle table t = Ok t.
Proof. intros Hk. unfold mangle, renamable. now rewrite Hk. Qed.

(** The final stage taken alone: for every stream of the intermediate
    representation and at every position of it, it emits a reserved keyword
    unchanged, the spelling [true] as [1] and the spelling [false] as [0]:
    the emitter succeeds, its output is the mangled tokens with spaces woven
    in, and position by position the mangled token is the fixed one. *)
Theorem keywords_and_literals_fixed (tokens : list string) :
  let table := names (final_names tokens namer_init) in
  exists toks out,
    new_tokens table None tokens = Ok out
    /\ woven toks out
    /\ Forall2
         (fun t t' =>
            mangle table t = Ok t'
            /\ (is_keyword t = true -> t' = t)
            /\ (t = "true" -> t' = "1")
            /\ (t = "false" -> t' = "0"))
         tokens toks.
Proof.
  intros table.
  destruct (new_tokens_woven table tokens None (final_names_covers tokens))
    as (toks & out & Hf & Hn & Hw).
  exists toks, out. repeat split; try assumption.
  assert (Htrue : dict_get "true" table = Some "1")
    by apply assign_names_keeps, seed_names_true.
  assert (Hfalse : dict_get "false" table = Some "0")
    by apply assign_names_keeps, seed_names_false.
  clear Hn Hw. clearbody table.
  induction Hf as [|t t' l l' Hm Hf IH]; constructor; auto.
  repeat split; [assumption | | |].
  - intros Hk. rewrite (mangle_keyword table t Hk) in Hm. congruence.
  - intros ->. unfold mangle, dict_at in Hm.
    rewrite Htrue in Hm. simpl in Hm. congruence.
  - intros ->. unfold mangle, dict_at in Hm.
    rewrite Hfalse in Hm. simpl in Hm. congruence.
Qed.

(** ** Intermediate representation: the lookup order *)

Lemma ir_rename_top_level (ir : structs string)
    (fields methods : dict string string) (struct : option string)
    (token : string) :
  ir_rename ir fields methods struct None token
  = Ok (first_hit [fields; methods] token).
Proof.
  unfold ir_rename. simpl.
  destruct (dict_get token fields); [reflexivity|].
  destruct (dict_get token methods); reflexivity.
Qed.

Lemma ir_rename_in_function (ir : structs string)
    (fields methods : dict string string) (struct : option string)
    (f : string) (fn : Function string) (token : string) :
  function_at ir struct (Some f) = Ok fn ->
  ir_rename ir fields methods struct (Some f) token
  = Ok (first_hit [args fn; fields; methods; variables fn] token).
Proof.
  intros E. unfold ir_rename. cbn [is_some]. rewrite E. simpl.
  destruct (dict_get token (args fn)); [reflexivity|].
  destruct (dict_get token fields); [reflexivity|].
  destruct (dict_get token methods); [reflexivity|].
  destruct (dict_get token (variables fn)); reflexivity.
Qed.

Lemma ir_rename_ok (ir : structs string) (fields methods : dict string string)
    (struct : option string) (f token t' : string) :
  ir_rename ir fields methods struct (Some f) token = Ok t' ->
  exists fn, function_at ir struct (Some f) = Ok fn.
Proof.
  unfold ir_rename. cbn [is_some].
  destruct (function_at ir struct (Some f)) as [fn|e]; [eauto | discriminate].
Qed.

Lemma ir_loop_app (ir : structs string) (fields methods : dict string string)
    (pre rest : list string) (st : ir_state) (out : list string) :
  ir_loop ir fields methods st (pre ++ rest) = Ok out ->
  exists st' out1 out2,
    ir_run ir fields methods st pre = Ok st'
    /\ ir_loop ir fields methods st' rest = Ok out2
    /\ List.length out1 = List.length pre
    /\ out = out1 ++ out2.
Proof.
  revert st out. induction pre as [|t pre IH]; intros st out E.
  - exists st, [], out. simpl in *. auto.
  - cbn [app ir_loop ir_run] in *.
    destruct (ir_step ir fields methods st t) as [[t' st1]|e];
      [|discriminate].
    cbn [bind] in *.
    destruct (ir_loop ir fields methods st1 (pre ++ rest)) as [o|e] eqn:Eo;
      [|discriminate].
    injection E as <-.
    destruct (IH st1 o Eo) as (st' & out1 & out2 & Hr & Hl & Hlen & ->).
    exists st', (t' :: out1), out2. simpl. auto.
Qed.

(** C5, amended. In [to_ir] the token at every position is replaced by the
    first hit in this order: the argument table of the active
    (struct, function) pair, the global field table, the global function
    table, the local-variable table of the active pair; with no hit it
    passes through unchanged, and outside a function only the two global
    tables are consulted.  In particular a name present both in the active
    function's local table and in the global field table, and not in its
    argument table, receives its field rename. *)
Theorem to_ir_lookup_order (ir : structs string)
    (fields methods : dict string string)
    (pre : list string) (token : string) (rest out : list string) :
  to_ir (pre ++ token :: rest) ir fields methods = Ok out ->
  exists st t',
    ir_run ir fields methods ir_init pre = Ok st
    /\ nth_error out (List.length pre) = Some t'
    /\ let scope := ir_scope methods token st in
       match ir_function scope with
       | None => t' = first_hit [fields; methods] token
       | Some f =>
           exists fn,
             function_at ir (ir_struct_name scope) (Some f) = Ok fn
             /\ t' = first_hit [args fn; fields; methods; variables fn] token
             /\ (forall n v,
                   dict_get token (args fn) = None ->
                   dict_get token fields = Some n ->
                   dict_get token (variables fn) = Some v ->
                   t' = n)
       end.
Proof.
  unfold to_ir. intros E.
  apply ir_loop_app in E as (st & out1 & out2 & Hr & Hl & Hlen & ->).
  cbn [ir_loop] in Hl. unfold ir_step in Hl.
  set (scope := ir_scope methods token st) in *.
  destruct (ir_rename ir fields methods (ir_struct_name scope)
              (ir_function scope) token) as [t'|e] eqn:Et; [|discriminate].
  cbn [bind] in Hl.
  destruct (ir_loop _ _ _ _ rest) as [o|e]; [|discriminate].
  injection Hl as <-.
  exists st, t'. split; [assumption|]. split.
  - rewrite nth_error_app2, <- Hlen, Nat.sub_diag by lia. reflexivity.
  - cbv zeta. fold scope.
    destruct (ir_function scope) as [f|] eqn:Ef.
    + destruct (ir_rename_ok _ _ _ _ _ _ _ Et) as [fn Hfn].
      exists fn. split; [assumption|].
      rewrite (ir_rename_in_function _ _ _ _ _ fn _ Hfn) in Et.
      injection Et as <-. split; [reflexivity|].
      intros n v Ha Hf Hv. simpl. now rewrite Ha, Hf.
    + rewrite ir_rename_top_level in Et. congruence.
Qed.

(** C5 as stated fails: in
    [struct S { int x; int f() { int x = 1; return x; } };] the token [x]
    at position 12 is in the local table of the active function [f] (as
    [var0]) and in the global field table (as [field0]), not in the argument
    table, and [to_ir] writes [field0]. *)
Lemma lookup_order_counterexample :
  let tokens :=
    ["struct"; "S"; "{"; "int"; "x"; ";"; "int"; "f"; "("; ")"; "{";
     "int"; "x"; "="; "1"; ";"; "return"; "x"; ";"; "}"; "}"; ";"] in
  (structinfo <- get_stats tokens ;;
   ' (ir, fields, methods) <- get_ir_renames structinfo ;;
   out <- to_ir tokens ir fields methods ;;
   st <- ir_run ir fields methods ir_init (firstn 12 tokens) ;;
   let scope := ir_scope methods "x" st in
   fn <- function_at ir (ir_struct_name scope) (ir_function scope) ;;
   Ok (ir_function scope, dict_get "x" (variables fn), dict_get "x" (args fn),
       dict_get "x" fields, nth_error tokens 12, nth_error out 12))
  = Ok (Some "f", Some "var0", None, Some "field0", Some "x", Some "field0").
Proof. vm_compute. reflexivity. Qed.

(** ** Intermediate renaming tables: top-level functions *)





















(** ** The grouper always returns, and keeps tokens non-empty *)

Lemma end_offset_pos (start end_ : list string) (include_end : bool)
    (rest : list string) :
  start <> [] -> 1 <= end_offset start end_ include_end rest.
Proof.
  intros Hs. unfold end_offset.
  destruct (starts_with start rest); [|lia].
  destruct (find_end start end_ rest) as [p|] eqn:E; [|lia].
  unfold find_end in E. apply find_some in E as [Hin _].
  apply in_seq in Hin.
  assert (1 <= List.length start) by (destruct start; simpl; [congruence | lia]).
  destruct include_end; lia.
Qed.

Lemma end_offset_match (start end_ : list string) (include_end : bool)
    (rest : list string) :
  end_offset start end_ include_end rest <> 1 -> starts_with start rest = true.
Proof.
  unfold end_offset. destruct (starts_with start rest); congruence.
Qed.

Lemma starts_with_cons (s0 : string) (start : list string) (t : string)
    (rest : list string) :
  starts_with (s0 :: start) (t :: rest) = true -> t = s0.
Proof.
  destruct (String.eqb_spec t s0) as [|Hne]; [auto|].
  now rewrite (starts_with_head s0 start t rest Hne).
Qed.

Lemma truthy_append (a b : string) :
  truthy a = true -> truthy (a ++ b) = true.
Proof. destruct a; [discriminate | reflexivity]. Qed.

Lemma remove_spaces_append (a b : string) :
  remove_spaces (a ++ b) = (remove_spaces a ++ remove_spaces b)%string.
Proof.
  induction a as [|c a IH]; simpl; [reflexivity|].
  destruct (Ascii.eqb c " "); simpl; congruence.
Qed.

(** The start markers of [group] do not vanish when spaces are removed. *)
Lemma grouped_tokens_truthy (start end_ : list string)
    (include_end include_space : bool) (t : string) (rest : list string) :
  start <> [] ->
  include_space = true
    \/ (exists s0 tl, start = s0 :: tl /\ truthy (remove_spaces s0) = true) ->
  truthy t = true ->
  truthy (grouped_tokens include_space
            (end_offset start end_ include_end (t :: rest)) (t :: rest)) = true.
Proof.
  intros Hs Hflag Ht.
  pose proof (end_offset_pos start end_ include_end (t :: rest) Hs) as Hn.
  unfold grouped_tokens.
  destruct (end_offset start end_ include_end (t :: rest)) as [|n] eqn:En;
    [lia|].
  cbn [firstn join].
  destruct (negb include_space && negb (S n =? 1)) eqn:Ec.
  - apply andb_true_iff in Ec as [Ei Ene].
    destruct Hflag as [->|(s0 & tl & -> & Hsolid)]; [discriminate|].
    assert (t = s0) as ->.
    { apply (starts_with_cons s0 tl t rest).
      apply (end_offset_match _ end_ include_end). rewrite En.
      intros E1. rewrite E1 in Ene. discriminate. }
    rewrite remove_spaces_append. now apply truthy_append.
  - now apply truthy_append.
Qed.

Lemma Forall_skipn {A : Type} (P : A -> Prop) (n : nat) (l : list A) :
  Forall P l -> Forall P (skipn n l).
Proof.
  revert l; induction n as [|n IH]; intros l Hl; simpl; [assumption|].
  destruct Hl; [constructor | auto].
Qed.

Lemma group_loop_total (start end_ : list string)
    (include_end include_space : bool) (fuel : nat) (rest : list string) :
  start <> [] -> List.length rest <= fuel ->
  exists out,
    group_loop fuel start end_ include_end include_space rest = Ok out
    /\ (include_space = true
          \/ (exists s0 tl, start = s0 :: tl
                            /\ truthy (remove_spaces s0) = true) ->
        Forall (fun t => truthy t = true) rest ->
        Forall (fun t => truthy t = true) out).
Proof.
  intros Hs. revert rest.
  induction fuel as [|fuel IH]; intros [|t rest] Hf; simpl in Hf.
  - exists []. split; [reflexivity | constructor].
  - lia.
  - exists []. split; [reflexivity | constructor].
  - pose proof (end_offset_pos start end_ include_end (t :: rest) Hs) as Hn.
    destruct (IH (skipn (end_offset start end_ include_end (t :: rest))
                    (t :: rest))) as (out & Eo & Ho).
    { rewrite length_skipn. cbn [List.length]. lia. }
    eexists. split.
    + cbn [group_loop]. rewrite Eo. reflexivity.
    + intros Hflag Hall. constructor.
      * apply grouped_tokens_truthy; [assumption | assumption |].
        now inversion Hall.
      * apply Ho; [assumption|]. now apply Forall_skipn.
Qed.

Lemma group_tokens_total (token_list start end_ : list string)
    (include_end include_space : bool) :
  start <> [] ->
  exists out,
    group_tokens token_list start end_ include_end include_space = Ok out
    /\ (include_space = true
          \/ (exists s0 tl, start = s0 :: tl
                            /\ truthy (remove_spaces s0) = true) ->
        Forall (fun t => truthy t = true) token_list ->
        Forall (fun t => truthy t = true) out).
Proof. intros Hs. apply group_loop_total; [assumption | lia]. Qed.

(** [group] returns on every token list, and non-empty tokens stay
    non-empty. *)
Lemma group_total (tokens : list string) :
  exists out,
    group tokens = Ok out
    /\ (Forall (fun t => truthy t = true) tokens ->
        Forall (fun t => truthy t = true) out).
Proof.
  unfold group.
  destruct (group_tokens_total tokens [dquote] [dquote] true true)
    as (t1 & E1 & H1); [discriminate|]. rewrite E1. cbn [bind].
  destruct (group_tokens_total t1 ["/"; "*"] ["*"; "/"] true true)
    as (t2 & E2 & H2); [discriminate|]. rewrite E2. cbn [bind].
  destruct (group_tokens_total t2 ["["; "["] ["]"; "]"] true true)
    as (t3 & E3 & H3); [discriminate|]. rewrite E3. cbn [bind].
  destruct (group_tokens_total t3 ["#"; "include"] [newline] true false)
    as (t4 & E4 & H4); [discriminate|]. rewrite E4. cbn [bind].
  destruct (group_tokens_total t4 ["#"; "ifndef"; " "; "MINIFIED"]
              ["#"; "endif"] true true)
    as (t5 & E5 & H5); [discriminate|]. rewrite E5. cbn [bind].
  destruct (group_tokens_total t5 ["/"; "/"] [newline] false true)
    as (t6 & E6 & H6); [discriminate|]. rewrite E6. cbn [bind].
  destruct (group_tokens_total t6 ["'"] ["'"] true true)
    as (t7 & E7 & H7); [discriminate|].
  exists t7. split; [assumption|].
  intros Hall. apply H7; [now left|]. apply H6; [now left|].
  apply H5; [now left|]. apply H4; [right; now exists "#", ["include"]|].
  apply H3; [now left|]. apply H2; [now left|]. apply H1; [now left|].
  assumption.
Qed.

Lemma strip_truthy (tokens : list string) :
  Forall (fun t => truthy t = true) tokens ->
  Forall (fun t => truthy t = true) (strip tokens).
Proof.
  intros H. unfold strip. rewrite Forall_forall in *.
  intros t Ht. apply filter_In in Ht. apply H. tauto.
Qed.

(** ** The intermediate renamer writes non-empty names *)

Lemma number_from_named (prefix : string) (keys : list string) (y : nat)
    (d : dict string string) :
  truthy prefix = true -> named d -> named (number_from prefix y keys d).
Proof.
  intros Hp. revert y d.
  induction keys as [|k keys IH]; intros y d Hd; simpl; [assumption|].
  apply IH. apply dict_all_set; [assumption|]. now apply truthy_append.
Qed.

Lemma ir_fields_named (sorted_fields : list string) (j : nat)
    (own fields : dict string string) :
  named own -> named fields ->
  named (fst (ir_fields j sorted_fields own fields))
  /\ named (snd (ir_fields j sorted_fields own fields)).
Proof.
  revert j own fields.
  induction sorted_fields as [|f l IH]; intros j own fields Ho Hf; simpl.
  - auto.
  - destruct (dict_get f fields) as [n|] eqn:E.
    + apply IH; [|assumption].
      apply dict_all_set; [assumption|].
      exact (dict_all_get _ _ _ _ Hf E).
    + apply IH; apply dict_all_set; auto.
Qed.

Lemma ir_functions_named (struct : option string)
    (funcs : dict string (Function nat)) (x : nat)
    (own : dict string (Function string)) (methods : dict string string) :
  dict_all function_named own -> named methods ->
  dict_all function_named (fst (ir_functions struct x funcs own methods))
  /\ named (snd (ir_functions struct x funcs own methods)).
Proof.
  revert x own methods.
  induction funcs as [|[func fn] funcs IH]; intros x own methods Ho Hm.
  - simpl. auto.
  - cbn [ir_functions]. apply IH.
    + apply dict_all_set; [assumption|].
      split; apply number_from_named; try reflexivity; constructor.
    + destruct (is_some struct); [|assumption].
      apply dict_all_set; [assumption | reflexivity].
Qed.

Lemma ir_struct_named (i : nat) (struct : option string) (s : Struct nat)
    (r : renames) :
  ir_named (ir r) -> named (ir_field_pool r) -> named (ir_methods r) ->
  ir_named (ir (ir_struct i struct s r))
  /\ named (ir_field_pool (ir_struct i struct s r))
  /\ named (ir_methods (ir_struct i struct s r)).
Proof.
  intros Hi Hf Hm. unfold ir_struct.
  pose proof (ir_fields_named (dict_keys (sort_dict (fields s))) 0 []
                (ir_field_pool r) (Forall_nil _) Hf) as [_ Hpool].
  pose proof (ir_functions_named struct (functions s) 0 [] (ir_methods r)
                (Forall_nil _) Hm) as [Hown Hmeth].
  destruct (ir_fields _ _ _ _) as [own_fields pool].
  destruct (ir_functions _ _ _ _ _) as [own_functions methods].
  cbn [ir ir_field_pool ir_methods fst snd] in *.
  split; [|split; assumption].
  apply dict_all_set; assumption.
Qed.

Lemma ir_structs_named (info : structs nat) (i : nat) (r : renames) :
  ir_named (ir r) -> named (ir_field_pool r) -> named (ir_methods r) ->
  ir_named (ir (ir_structs i info r))
  /\ named (ir_field_pool (ir_structs i info r))
  /\ named (ir_methods (ir_structs i info r)).
Proof.
  revert i r. induction info as [|[struct s] info IH]; intros i r Hi Hf Hm.
  - simpl. auto.
  - cbn [ir_structs].
    destruct (ir_struct_named i struct s r Hi Hf Hm) as (Hi' & Hf' & Hm').
    now apply IH.
Qed.

Lemma ir_top_level_named (funcs used : list string) (i j : nat)
    (methods : dict string string) :
  named methods -> named (ir_top_level i j funcs used methods).
Proof.
  revert i j methods.
  induction funcs as [|f funcs IH]; intros i j methods Hm; simpl.
  - assumption.
  - destruct (mem f used); [|destruct (dict_mem f methods)]; apply IH;
      try assumption; apply dict_all_set; try assumption; try reflexivity.
    now destruct (String.eqb f "main").
Qed.

Lemma get_ir_renames_named (structinfo : structs nat) (ir : structs string)
    (fields methods : dict string string) :
  get_ir_renames structinfo = Ok (ir, fields, methods) ->
  ir_named ir /\ named fields /\ named methods.
Proof.
  unfold get_ir_renames.
  destruct (dict_at None structinfo) as [top|e]; [|discriminate].
  cbn [bind]. intros [= <- <- <-].
  destruct (ir_structs_named structinfo 0 (mkRenames [] [] [] [])
              (Forall_nil _) (Forall_nil _) (Forall_nil _))
    as (Hi & Hf & Hm).
  split; [assumption | split; [assumption | now apply ir_top_level_named]].
Qed.

Lemma function_at_named (ir : structs string) (struct function : option string)
    (fn : Function string) :
  ir_named ir -> function_at ir struct function = Ok fn -> function_named fn.
Proof.
  intros Hi. unfold function_at, dict_at.
  destruct (dict_get struct ir) as [s|] eqn:Es; [|discriminate].
  cbn [of_option bind]. destruct function as [f|]; [|discriminate].
  destruct (dict_get f (functions s)) as [fn'|] eqn:Ef; [|discriminate].
  intros [= <-].
  pose proof (dict_all_get _ _ _ _ Hi Es) as Hs. cbv beta in Hs.
  exact (dict_all_get _ _ _ _ Hs Ef).
Qed.

Lemma ir_rename_truthy (ir : structs string)
    (fields methods : dict string string) (struct function : option string)
    (token t' : string) :
  ir_named ir -> named fields -> named methods -> truthy token = true ->
  ir_rename ir fields methods struct function token = Ok t' ->
  truthy t' = true.
Proof.
  intros Hi Hf Hm Ht. unfold ir_rename.
  destruct (is_some function).
  - destruct (function_at ir struct function) as [fn|e] eqn:Efn;
      [|discriminate].
    destruct (function_at_named _ _ _ _ Hi Efn) as [Ha Hv].
    cbn [bind].
    destruct (dict_get token (args fn)) eqn:E1;
      [intros [= <-]; exact (dict_all_get _ _ _ _ Ha E1)|].
    destruct (dict_get token fields) eqn:E2;
      [intros [= <-]; exact (dict_all_get _ _ _ _ Hf E2)|].
    destruct (dict_get token methods) eqn:E3;
      [intros [= <-]; exact (dict_all_get _ _ _ _ Hm E3)|].
    destruct (dict_get token (variables fn)) eqn:E4;
      [intros [= <-]; exact (dict_all_get _ _ _ _ Hv E4)|].
    now intros [= <-].
  - cbn [bind].
    destruct (dict_get token fields) eqn:E2;
      [intros [= <-]; exact (dict_all_get _ _ _ _ Hf E2)|].
    destruct (dict_get token methods) eqn:E3;
      [intros [= <-]; exact (dict_all_get _ _ _ _ Hm E3)|].
    now intros [= <-].
Qed.

Lemma ir_loop_truthy (ir : structs string) (fields methods : dict string string)
    (tokens : list string) (st : ir_state) (out : list string) :
  ir_named ir -> named fields -> named methods ->
  Forall (fun t => truthy t = true) tokens ->
  ir_loop ir fields methods st tokens = Ok out ->
  Forall (fun t => truthy t = true) out.
Proof.
  intros Hi Hf Hm. revert st out.
  induction tokens as [|t tokens IH]; intros st out Hall E.
  - injection E as <-. constructor.
  - inversion Hall as [|? ? Ht Hall']; subst.
    cbn [ir_loop] in E. unfold ir_step in E.
    destruct (ir_rename ir fields methods _ _ t) as [t'|e] eqn:Er;
      [|discriminate].
    cbn [bind] in E.
    destruct (ir_loop ir fields methods _ tokens) as [o|e] eqn:Eo;
      [|discriminate].
    injection E as <-. constructor.
    + exact (ir_rename_truthy _ _ _ _ _ _ _ Hi Hf Hm Ht Er).
    + exact (IH _ _ Hall' Eo).
Qed.

(** ** The analyzer keeps its tables well formed *)

Lemma bind_ok {A B : Type} (m : result A) (k : A -> result B) (b : B) :
  bind m k = Ok b -> exists a, m = Ok a /\ k a = Ok b.
Proof. destruct m as [a|e]; simpl; [eauto | discriminate]. Qed.

Lemma update_struct_clean {V : Type} (info info' : structs V)
    (struct : option string) (upd : Struct V -> Struct V) :
  wf_info info ->
  (forall s, NoDup (dict_keys (functions s)) ->
             NoDup (dict_keys (functions (upd s)))) ->
  (struct = None -> forall s, top_lvl_used (upd s) = top_lvl_used s) ->
  update_struct info struct upd = Ok info' ->
  wf_info info'.
Proof.
  intros (Hnd & Hfn & top & Htop & Hused) Hkeys Hupd E.
  unfold update_struct, dict_at in E.
  destruct (dict_get struct info) as [s|] eqn:Es; [|discriminate].
  injection E as <-.
  split; [now apply dict_keys_set_NoDup|]. split.
  - apply dict_all_set; [assumption|].
    apply Hkeys. exact (dict_all_get _ _ _ _ Hfn Es).
  - destruct struct as [name|].
    + exists top. split; [|assumption].
      rewrite dict_get_set_neq by discriminate. assumption.
    + exists (upd s). split; [apply dict_get_set_eq|].
      rewrite Hupd by reflexivity. congruence.
Qed.

Lemma update_function_clean {V : Type} (info info' : structs V)
    (struct function : option string) (upd : Function V -> Function V) :
  wf_info info ->
  update_function info struct function upd = Ok info' ->
  wf_info info'.
Proof.
  intros (Hnd & Hfn & top & Htop & Hused) E.
  unfold update_function, dict_at in E.
  destruct (dict_get struct info) as [s|] eqn:Es; [|discriminate].
  cbn [of_option bind] in E.
  destruct function as [f|]; [|discriminate].
  destruct (dict_get f (functions s)) as [fn|]; [|discriminate].
  injection E as <-.
  split; [now apply dict_keys_set_NoDup|]. split.
  - apply dict_all_set; [assumption|]. cbn [functions].
    apply dict_keys_set_NoDup. exact (dict_all_get _ _ _ _ Hfn Es).
  - destruct struct as [name|].
    + exists top. split; [|assumption].
      rewrite dict_get_set_neq by discriminate. assumption.
    + eexists. split; [apply dict_get_set_eq|].
      simpl. congruence.
Qed.

Lemma stats_record_args_clean (token : string) (rest : list string)
    (st st' : stats_state) :
  wf_info (structinfo st) ->
  stats_record_args token rest st = Ok st' ->
  wf_info (structinfo st').
Proof.
  intros Hc. unfold stats_record_args.
  destruct (entering_function st); [|now intros [= <-]].
  intros E. apply bind_ok in E as ([pd info] & E1 & E2).
  injection E2 as <-. cbn [structinfo].
  destruct (String.eqb token "("); [now injection E1 as _ <-|].
  destruct (String.eqb token ")"); [now injection E1 as _ <-|].
  destruct (0 <? parenth_depth st)%Z; [|now injection E1 as _ <-].
  apply bind_ok in E1 as (next & _ & E1).
  destruct (mem next [","; ")"] && negb (mem token TYPES));
    [|now injection E1 as _ <-].
  apply bind_ok in E1 as (info1 & E1 & E3). injection E3 as _ <-.
  exact (update_function_clean _ _ _ _ _ Hc E1).
Qed.

Lemma stats_found_function_clean (token : string) (rest : list string)
    (st st' : stats_state) :
  wf_info (structinfo st) ->
  stats_found_function token rest st = Ok st' ->
  wf_info (structinfo st').
Proof.
  intros Hc. unfold stats_found_function.
  destruct (_ && _); [|now intros [= <-]].
  intros E. apply bind_ok in E as (info & E1 & E2). injection E2 as <-.
  cbn [structinfo].
  refine (update_struct_clean _ _ _ _ Hc _ _ E1); [|reflexivity].
  intros s. cbn [set_functions functions]. apply dict_keys_set_NoDup.
Qed.

Lemma stats_in_function_clean (token : string) (st st' : stats_state) :
  wf_info (structinfo st) ->
  stats_in_function token st = Ok st' ->
  wf_info (structinfo st').
Proof.
  intros Hc. unfold stats_in_function.
  destruct (is_some (function st)); [|now intros [= <-]].
  intros E.
  apply bind_ok in E as (fn1 & _ & E).
  apply bind_ok in E as (info1 & E1 & E).
  apply bind_ok in E as (fn2 & _ & E).
  apply bind_ok in E as (info2 & E2 & E).
  apply bind_ok in E as (info3 & E3 & E).
  injection E as <-. cbn [with_structinfo structinfo].
  assert (H1 : wf_info info1).
  { destruct (dict_mem token (args fn1));
      [exact (update_function_clean _ _ _ _ _ Hc E1) | congruence]. }
  assert (H2 : wf_info info2).
  { destruct (dict_mem token (variables fn2));
      [exact (update_function_clean _ _ _ _ _ H1 E2) | congruence]. }
  destruct (_ && _ && _);
    [exact (update_function_clean _ _ _ _ _ H2 E3) | congruence].
Qed.

Lemma stats_enter_struct_clean (token : string) (st : stats_state) :
  wf_info (structinfo st) ->
  wf_info (structinfo (stats_enter_struct token st)).
Proof.
  intros Hc. unfold stats_enter_struct.
  destruct (eqb (prev st) (Some "struct")); [|assumption].
  destruct Hc as (Hnd & Hfn & top & Htop & Hused). cbn [structinfo].
  split; [now apply dict_keys_set_NoDup|]. split.
  - apply dict_all_set; [assumption | constructor].
  - exists top. split; [|assumption].
    rewrite dict_get_set_neq by discriminate. assumption.
Qed.

Lemma stats_fields_clean (token : string) (st st' : stats_state) :
  wf_info (structinfo st) ->
  stats_fields token st = Ok st' ->
  wf_info (structinfo st').
Proof.
  intros Hc. unfold stats_fields. intros E.
  apply bind_ok in E as (info1 & E1 & E).
  apply bind_ok in E as (s & _ & E).
  apply bind_ok in E as (info2 & E2 & E).
  injection E as <-. cbn [with_structinfo structinfo].
  assert (H1 : wf_info info1).
  { destruct (_ && _ && _ && _);
      [refine (update_struct_clean _ _ _ _ Hc _ _ E1); [auto | reflexivity]
      | congruence]. }
  destruct (dict_mem token (fields s));
    [refine (update_struct_clean _ _ _ _ H1 _ _ E2); [auto | reflexivity]
    | congruence].
Qed.

Lemma stats_top_lvl_used_clean (token : string) (st st' : stats_state) :
  wf_info (structinfo st) ->
  stats_top_lvl_used token st = Ok st' ->
  wf_info (structinfo st').
Proof.
  intros Hc. unfold stats_top_lvl_used. intros E.
  apply bind_ok in E as (top & _ & E).
  destruct (dict_mem token (functions top)); [|now injection E as <-].
  apply bind_ok in E as (s & _ & E).
  destruct (negb (mem token (top_lvl_used s))) ; cbn [andb] in E;
    [|now injection E as <-].
  destruct (struct st) as [name|] eqn:Es; cbn [is_some] in E;
    [|now injection E as <-].
  apply bind_ok in E as (info & E1 & E). injection E as <-.
  cbn [with_structinfo structinfo].
  refine (update_struct_clean _ _ _ _ Hc _ _ E1); [auto | discriminate].
Qed.

Lemma stats_step_clean (st st' : stats_state) (token : string)
    (rest : list string) :
  wf_info (structinfo st) ->
  stats_step st token rest = Ok st' ->
  wf_info (structinfo st').
Proof.
  intros Hc E. unfold stats_step in E.
  apply bind_ok in E as (st1 & E1 & E).
  apply bind_ok in E as (st2 & E2 & E).
  apply bind_ok in E as (st3 & E3 & E).
  apply bind_ok in E as (st4 & E4 & E).
  apply bind_ok in E as (st5 & E5 & E).
  injection E as <-. cbn [stats_shift structinfo].
  apply (stats_top_lvl_used_clean _ _ _) in E5; [assumption|].
  apply (stats_fields_clean _ _ _) in E4; [assumption|].
  apply stats_enter_struct_clean.
  assert (H3 : wf_info (structinfo st3)).
  { apply (stats_in_function_clean _ _ _) in E3; [assumption|].
    apply (stats_found_function_clean _ _ _ _) in E2; [assumption|].
    apply (stats_record_args_clean _ _ _ _) in E1; [assumption|].
    unfold stats_exit_function. now destruct (_ && _). }
  unfold stats_exit_struct. now destruct (is_some (struct st3)).
Qed.

Lemma stats_loop_clean (tokens : list string) (st st' : stats_state) :
  wf_info (structinfo st) ->
  stats_loop st tokens = Ok st' ->
  wf_info (structinfo st').
Proof.
  revert st. induction tokens as [|t tokens IH]; intros st Hc E.
  - now injection E as <-.
  - cbn [stats_loop] in E. apply bind_ok in E as (st1 & E1 & E).
    exact (IH _ (stats_step_clean _ _ _ _ Hc E1) E).
Qed.

(** What [get_stats] returns has distinct keys and its top-level record,
    with an empty reference list: line 268 records references inside structs
    only. *)
Lemma get_stats_wf (tokens : list string) (structinfo : structs nat) :
  get_stats tokens = Ok structinfo -> wf_info structinfo.
Proof.
  unfold get_stats. intros E. apply bind_ok in E as (st & E1 & E).
  injection E as <-.
  apply (stats_loop_clean tokens stats_init); [|assumption].
  split; [|split].
  - repeat constructor. simpl. tauto.
  - repeat constructor.
  - now exists (new_Struct "Top Level").
Qed.

Lemma wf_info_top (structinfo : structs nat) :
  wf_info structinfo ->
  exists top, dict_get None structinfo = Some top
              /\ NoDup (dict_keys (functions top))
              /\ top_lvl_used top = [].
Proof.
  intros (_ & Hfn & top & Htop & Hused). exists top.
  split; [assumption|]. split; [|assumption].
  exact (dict_all_get _ _ _ _ Hfn Htop).
Qed.

(** On the tables of [get_stats], [get_ir_renames] returns. *)
Lemma get_ir_renames_total (structinfo : structs nat) :
  wf_info structinfo ->
  exists ir fields methods, get_ir_renames structinfo = Ok (ir, fields, methods).
Proof.
  intros (_ & _ & top & Htop & _). unfold get_ir_renames, dict_at.
  rewrite Htop. cbn [of_option bind]. eauto.
Qed.

(** ** The pipeline *)

Lemma ir_tokens_spaced_from (tokens : list string) (p : string) :
  truthy p = true -> Forall (fun t => truthy t = true) tokens ->
  ir_tokens (Some p) tokens = tl (spaced (p :: tokens)).
Proof.
  revert p. induction tokens as [|t tokens IH]; intros p Hp Hall.
  - reflexivity.
  - inversion Hall as [|? ? Ht Hall']; subst.
    cbn [ir_tokens]. rewrite (IH t Ht Hall').
    rewrite needs_space_merge by assumption. reflexivity.
Qed.

Lemma ir_tokens_spaced (tokens : list string) :
  Forall (fun t => truthy t = true) tokens ->
  ir_tokens None tokens = spaced tokens.
Proof.
  intros Hall. destruct tokens as [|t tokens]; [reflexivity|].
  inversion Hall as [|? ? Ht Hall']; subst.
  cbn [ir_tokens needs_space app]. now rewrite ir_tokens_spaced_from.
Qed.

(** The tokens of the intermediate representation are never empty. *)
Lemma ir_stream_truthy (content : string) (tokens : list string) :
  ir_stream content = Ok tokens -> Forall (fun t => truthy t = true) tokens.
Proof.
  unfold ir_stream. intros E.
  apply bind_ok in E as (grouped & Eg & E).
  apply bind_ok in E as (structinfo & Es & E).
  apply bind_ok in E as ([[ir fields] methods] & Er & E).
  destruct (get_ir_renames_named _ _ _ _ Er) as (Hi & Hf & Hm).
  refine (ir_loop_truthy _ _ _ _ _ _ Hi Hf Hm _ E).
  apply strip_truthy.
  destruct (group_total (fetch_tokens content)) as (out & Eo & Ho).
  rewrite Eo in Eg. injection Eg as <-.
  apply Ho, fetch_tokens_truthy.
Qed.

(** Where [minify] can raise: in [get_stats] or in [to_ir], nowhere else. *)
Lemma ir_stream_raises (content : string) (e : error) :
  ir_stream content = Raise e ->
  exists grouped,
    group (fetch_tokens content) = Ok grouped
    /\ (get_stats (strip grouped) = Raise e
        \/ exists structinfo ir fields methods,
             get_stats (strip grouped) = Ok structinfo
             /\ get_ir_renames structinfo = Ok (ir, fields, methods)
             /\ to_ir (strip grouped) ir fields methods = Raise e).
Proof.
  unfold ir_stream. intros E.
  destruct (group_total (fetch_tokens content)) as (grouped & Eg & _).
  exists grouped. split; [assumption|].
  rewrite Eg in E. cbn [bind] in E.
  destruct (get_stats (strip grouped)) as [structinfo|e'] eqn:Es;
    [|left; simpl in E; congruence].
  right. cbn [bind] in E.
  destruct (get_ir_renames_total structinfo (get_stats_wf _ _ Es))
    as (ir & fields & methods & Er).
  rewrite Er in E. cbn [bind] in E.
  exists structinfo, ir, fields, methods. auto.
Qed.

Lemma emit_total (tokens : list string) :
  exists mini, emit tokens namer_init = Ok mini.
Proof.
  unfold emit.
  destruct (new_tokens_woven _ tokens None (final_names_covers tokens))
    as (toks & out & _ & E & _).
  rewrite E. simpl. eauto.
Qed.

Lemma minify_after_ir (content : string) (tokens : list string) :
  ir_stream content = Ok tokens ->
  exists mini,
    emit tokens namer_init = Ok mini
    /\ minify content = Ok (join (ir_tokens None tokens), mini).
Proof.
  intros E. destruct (emit_total tokens) as [mini Em].
  exists mini. split; [assumption|].
  unfold minify. rewrite E. cbn [bind]. now rewrite Em.
Qed.

(** C3. The emitter of [minify] writes the mangled tokens in order with one
    space between two adjacent tokens exactly when both are merge-sensitive
    (name-like, or with a numeric leading character), and nothing between any
    other pair: for every stream of non-empty tokens; and for every source
    text whose intermediate stream is built, where the tokens are never
    empty, in both texts [minify] writes. *)
Theorem emitter_spacing :
  (forall tokens,
      Forall (fun t => truthy t = true) tokens ->
      let table := names (final_names tokens namer_init) in
      exists toks,
        Forall2 (fun t t' => mangle table t = Ok t') tokens toks
        /\ new_tokens table None tokens = Ok (spaced toks))
  /\ (forall content tokens,
        ir_stream content = Ok tokens ->
        let table := names (final_names tokens namer_init) in
        exists toks,
          Forall2 (fun t t' => mangle table t = Ok t') tokens toks
          /\ minify content = Ok (join (spaced tokens), join (spaced toks))).
Proof.
  split; [exact new_tokens_spaced_all|].
  intros content tokens E table. subst table.
  pose proof (ir_stream_truthy content tokens E) as Hall.
  destruct (new_tokens_spaced_all tokens Hall) as (toks & Hf & Hn).
  exists toks. split; [assumption|].
  unfold minify, emit. rewrite E. cbn [bind].
  rewrite Hn. cbn [bind].
  now rewrite ir_tokens_spaced.
Qed.

(** ** The assertions of the source (lines 490-557) *)

Example fetch_tokens_asserts :
  fetch_tokens "int main() { return 0; }"
  = ["int"; " "; "main"; "("; ")"; " "; "{"; " "; "return"; " "; "0"; ";";
     " "; "}"]
  /\ fetch_tokens "hehe = 1;" = ["hehe"; " "; "="; " "; "1"; ";"]
  /\ fetch_tokens "a_very_long_variable_name" = ["a_very_long_variable_name"]
  /\ fetch_tokens ("test" ++ char (ascii_of_nat 9) ++ newline ++ "test")
     = ["test"; char (ascii_of_nat 9); newline; "test"].
Proof. repeat split. Qed.

Example is_name_asserts :
  map is_name ["a"; "a_"; "a_1"; "__AA"; "variable";
               "my_favorite_number_100000"; "int"]
  = [true; true; true; true; true; true; true]
  /\ map is_name ["123"; "1a2b3c"; ""; " "; newline]
     = [false; false; false; false; false].
Proof. split; reflexivity. Qed.

Example renamable_asserts :
  map renamable ["abcdefg"; "a"; "a_123"] = [true; true; true]
  /\ map renamable ["main"; "int"; "return"; "1000"]
     = [false; false; false; false].
Proof. split; reflexivity. Qed.

Example attach_eligible_asserts :
  map attach_eligible [")"; "+"; "{"] = [true; true; true]
  /\ map attach_eligible ["a_name"; "1"; "main"] = [false; false; false].
Proof. split; reflexivity. Qed.

Example attachable_tokens_asserts :
  map (fun '(a, b) => attachable_tokens a b)
    [("1", "+"); ("{", "}"); ("(", ")"); ("{", "printf"); ("coolboy99", "+")]
  = [true; true; true; true; true]
  /\ map (fun '(a, b) => attachable_tokens a b)
       [("int", "main"); ("1", "2"); ("return", "0")]
     = [false; false; false].
Proof. split; reflexivity. Qed.

Example group_tokens_asserts :
  let l := ["a"; "b"; "c"; "d"] in
  group_tokens l ["a"] ["b"] true true = Ok ["ab"; "c"; "d"]
  /\ group_tokens l ["b"] ["c"] true true = Ok ["a"; "bc"; "d"]
  /\ group_tokens l ["c"] ["d"] true true = Ok ["a"; "b"; "cd"]
  /\ group_tokens l ["a"] ["d"] true true = Ok ["abcd"]
  /\ group_tokens l ["c"] ["b"] true true = Ok l
  /\ group_tokens l ["b"] ["e"] true true = Ok l
  /\ group_tokens l ["b"] ["b"] true true = Ok l
  /\ group_tokens l ["a"; "b"] ["c"] true true = Ok ["abc"; "d"]
  /\ group_tokens l ["a"] ["b"; "c"] true true = Ok ["abc"; "d"]
  /\ group_tokens l ["a"; "b"; "c"] ["d"] true true = Ok ["abcd"]
  /\ group_tokens l ["a"] ["c"] true true = Ok ["abc"; "d"]
  /\ group_tokens l ["a"] ["c"] false true = Ok ["ab"; "c"; "d"]
  /\ group_tokens l ["c"] ["e"] true true = Ok l
  /\ group_tokens l ["e"] ["c"] true true = Ok l.
Proof. cbv zeta. repeat split. Qed.

(** ** The analyzer and the pipeline on concrete programs *)

(** C4.  On the stripped tokens of
    [struct S { int x; int f(int y) { int z = y + x; return z; } };] the
    analyzer reports the struct [S] with the field [x], the function [f] with
    the argument [y] and the local [z], and nothing of them in the top-level
    record; the counts are 3 for [x], 3 for [y] and 2 for [z]: a field and an
    argument are counted twice where they are declared (lines 225 and 239,
    262 and 265), a local once (lines 243 and 247). *)
Theorem analyzer_example :
  (tokens <-
     group (fetch_tokens
       "struct S { int x; int f(int y) { int z = y + x; return z; } };") ;;
   get_stats (strip tokens))
  = Ok [(None, mkStruct "Top Level" [] [] []);
        (Some "S",
         mkStruct "S" [("x", 3)]
           [("f", mkFunction [("y", 3)] [("z", 2)])] [])].
Proof. vm_compute. reflexivity. Qed.

(** C10.  [minify] raises on some source texts.  (1) A name that is a
    function of a struct, met at top level outside any function: the
    analyzer and [get_ir_renames] return, the name is in [methods], so
    line 373 makes it the active function and line 388 looks it up in
    [ir[None].functions]: [KeyError].  (2) A text that ends inside a
    parameter list makes [get_stats] read [tokens[i + 1]] past the end:
    [IndexError] (line 224; line 230 guards the same look-ahead).  (3) A
    struct declared inside a top-level function makes [get_stats] look up
    the function in the new struct: [KeyError] (line 238). *)
Theorem minify_raises :
  (let content := "struct A { int foo() { return 1; } }; int foo = 3;" in
   minify content = Raise KeyError
   /\ (tokens <- group (fetch_tokens content) ;;
       structinfo <- get_stats (strip tokens) ;;
       ' (ir, fields, methods) <- get_ir_renames structinfo ;;
       Ok (dict_get "foo" methods, function_at ir None (Some "foo"),
           to_ir (strip tokens) ir fields methods))
      = Ok (Some "func0", Raise KeyError, Raise KeyError))
  /\ (let content := "int f(a" in
      minify content = Raise IndexError
      /\ (tokens <- group (fetch_tokens content) ;; get_stats (strip tokens))
         = Raise IndexError)
  /\ (let content := "int f() { struct X { int a; }; return 0; }" in
      minify content = Raise KeyError
      /\ (tokens <- group (fetch_tokens content) ;; get_stats (strip tokens))
         = Raise KeyError).
Proof. cbv zeta. repeat split; vm_compute; reflexivity. Qed.

(** C8.  The intermediate stage renames reserved keywords.  The final stage
    maps every keyword to itself (lines 459-461 and 474-476), but [to_ir]
    has no such test: outside a function it writes for any token, keyword or
    not, the name [fields] holds for it, and the analyzer registers a
    keyword as a field or an argument like any other name (line 224
    excludes [TYPES] only).  So with a field named [size] the call
    [v.size()] comes out as [B.A()], and an argument named [size] or [true]
    comes out as [A]: the keyword and the literal spelling are not fixed. *)
Theorem keywords_renamed_by_ir :
  (forall (ir : structs string) (fields methods : dict string string)
          (struct : option string) (k n : string),
     is_keyword k = true -> dict_get k fields = Some n ->
     ir_rename ir fields methods struct None k = Ok n)
  /\ (forall (tokens : list string) (k : string),
        is_keyword k = true ->
        mangle (names (final_names tokens namer_init)) k = Ok k)
  /\ is_keyword "size" = true
  /\ (let content :=
        "struct S { int size; }; int f(vector<int> v) { return v.size(); }" in
      (tokens <- group (fetch_tokens content) ;;
       structinfo <- get_stats (strip tokens) ;;
       ' (_, fields, _) <- get_ir_renames structinfo ;;
       Ok (dict_get "size" fields))
      = Ok (Some "field0")
      /\ minify content
         = Ok (("struct S{int field0;};" ++
                "int func0(vector<int>arg0){return arg0.field0();}")%string,
               "struct C{int A;};int D(vector<int>B){return B.A();}"))
  /\ minify "int f(int size) { return size; }"
     = Ok ("int func0(int arg0){return arg0;}", "int B(int A){return A;}")
  /\ minify "bool f(bool true) { return true; }"
     = Ok ("bool func0(bool arg0){return arg0;}", "bool B(bool A){return A;}").
Proof.
  split; [|split; [|split; [|split; [|split]]]].
  - intros ir fields methods struct k n _ E.
    rewrite ir_rename_top_level. cbn [first_hit]. now rewrite E.
  - intros tokens k Hk. now apply mangle_keyword.
  - reflexivity.
  - cbv zeta. split; vm_compute; reflexivity.
  - vm_compute. reflexivity.
  - vm_compute. reflexivity.
Qed.

(** ** Instances *)

Lemma group_tokens_literal_witness :
  (group_tokens ["/"; "*"; "a"] ["/"; "*"] ["*"; "/"] true true
   = (out <- group_tokens ["*"; "a"] ["/"; "*"] ["*"; "/"] true true ;;
      Ok ("/" :: out))
   /\ group_tokens ["/"; "*"; "a"] ["/"; "*"] ["*"; "/"] true true
      = Ok ["/"; "*"; "a"])
  /\ group_tokens (["x"] ++ dquote :: ["y"]) [dquote] [dquote] true true
     = Ok (["x"] ++ dquote :: ["y"])
  /\ group_tokens (["x"] ++ dquote :: ["a"; " "; "b"] ++ dquote :: [";"])
       [dquote] [dquote] true true
     = Ok (["x"] ++ (dquote ++ join ["a"; " "; "b"] ++ dquote)%string :: [";"])
  /\ group (["x"; "="] ++ dquote :: ["a"; ";"])
     = Ok (["x"; "="] ++ dquote :: ["a"; ";"])
  /\ group (["x"; "="] ++ dquote :: ["a"; " "; "/"; "/"] ++ dquote :: [";"])
     = Ok (["x"; "="]
           ++ (dquote ++ join ["a"; " "; "/"; "/"] ++ dquote)%string :: [";"]).
Proof.
  destruct (group_tokens_literal ["/"; "*"] ["*"; "/"] true true dquote)
    as (H1 & H2 & H3 & H4 & H5).
  assert (Hp : forall l, forallb (fun t => negb (mem t marker_heads)) l = true
                         -> plain l).
  { intros l Hl. unfold plain. apply Forall_forall. intros t Ht Hin.
    rewrite forallb_forall in Hl. specialize (Hl t Ht).
    apply mem_In in Hin. rewrite Hin in Hl. discriminate. }
  split; [|split; [|split; [|split]]].
  - apply H1; [reflexivity|].
    intros p Hp'.
    do 3 (destruct p as [|p]; [simpl in Hp'; lia || discriminate|]).
    destruct p; discriminate.
  - apply H2; simpl; intros [E|[]]; discriminate E.
  - apply H3; simpl; intuition discriminate.
  - apply H4; apply Hp; reflexivity.
  - apply H5; [apply Hp; reflexivity | | apply Hp; reflexivity].
    simpl. intuition discriminate.
Defined.

Lemma final_code_table_witness :
  let tokens := ["x"; "y"; "x"; "true"] in
  let table := names (final_names tokens namer_init) in
  In "y" tokens /\ renamable "y" = true
  /\ nth_error (fresh_tokens tokens namer_init) (2 - 1) = Some "y"
  /\ (exists c, dict_get "y" table = Some c)
  /\ dict_get "y" table = Some (rank_code 2).
Proof.
  cbv zeta.
  destruct (final_code_table ["x"; "y"; "x"; "true"]) as (H1 & _ & _ & H4).
  assert (Hin : In "y" ["x"; "y"; "x"; "true"]) by (simpl; auto).
  assert (Hnth : nth_error (fresh_tokens ["x"; "y"; "x"; "true"] namer_init)
                   (2 - 1) = Some "y") by (vm_compute; reflexivity).
  exact (conj Hin (conj eq_refl (conj Hnth
           (conj (H1 "y" Hin eq_refl) (H4 2 "y" (le_S 1 1 (le_n 1)) Hnth))))).
Defined.

Lemma emitter_spacing_witness :
  let tokens := ["int"; "x"; "="; "1"; ";"] in
  let content := "int main() { return 0; }" in
  let stream := ["int"; "main"; "("; ")"; "{"; "return"; "0"; ";"; "}"] in
  Forall (fun t => truthy t = true) tokens
  /\ (exists toks,
        Forall2
          (fun t t' => mangle (names (final_names tokens namer_init)) t = Ok t')
          tokens toks
        /\ new_tokens (names (final_names tokens namer_init)) None tokens
           = Ok (spaced toks))
  /\ ir_stream content = Ok stream
  /\ (exists toks,
        Forall2
          (fun t t' => mangle (names (final_names stream namer_init)) t = Ok t')
          stream toks
        /\ minify content = Ok (join (spaced stream), join (spaced toks))).
Proof.
  cbv zeta.
  assert (H : Forall (fun t => truthy t = true) ["int"; "x"; "="; "1"; ";"])
    by (repeat constructor).
  assert (E : ir_stream "int main() { return 0; }"
              = Ok ["int"; "main"; "("; ")"; "{"; "return"; "0"; ";"; "}"])
    by (vm_compute; reflexivity).
  destruct emitter_spacing as [H1 H2].
  exact (conj H (conj (H1 _ H) (conj E (H2 _ _ E)))).
Defined.

Lemma to_ir_lookup_order_witness :
  let ir : structs string :=
    [(None,
      mkStruct "struct0" []
        [("f", mkFunction [("a", "arg0")] [("v", "var0")])] [])] in
  let fields := [("v", "field0")] in
  let methods := [("f", "func0")] in
  let pre := ["int"; "f"; "("; "int"; "a"; ")"; "{"; "int"] in
  let out := ["int"; "func0"; "("; "int"; "arg0"; ")"; "{"; "int"; "field0";
              ";"; "}"] in
  to_ir (pre ++ "v" :: [";"; "}"]) ir fields methods = Ok out
  /\ exists st t',
       ir_run ir fields methods ir_init pre = Ok st
       /\ nth_error out (List.length pre) = Some t'
       /\ match ir_function (ir_scope methods "v" st) with
          | None => t' = first_hit [fields; methods] "v"
          | Some f =>
              exists fn,
                function_at ir (ir_struct_name (ir_scope methods "v" st))
                  (Some f) = Ok fn
                /\ t' = first_hit [args fn; fields; methods; variables fn] "v"
                /\ (forall n v,
                      dict_get "v" (args fn) = None ->
                      dict_get "v" fields = Some n ->
                      dict_get "v" (variables fn) = Some v ->
                      t' = n)
          end.
Proof.
  cbv zeta.
  assert (H : to_ir
                (["int"; "f"; "("; "int"; "a"; ")"; "{"; "int"]
                 ++ "v" :: [";"; "}"])
                [(None,
                  mkStruct "struct0" []
                    [("f", mkFunction [("a", "arg0")] [("v", "var0")])] [])]
                [("v", "field0")] [("f", "func0")]
              = Ok ["int"; "func0"; "("; "int"; "arg0"; ")"; "{"; "int";
                    "field0"; ";"; "}"]) by (vm_compute; reflexivity).
  split; [exact H | exact (to_ir_lookup_order _ _ _ _ _ _ _ H)].
Defined.


Lemma more_frequent_earlier_witness :
  let tokens := ["x"; "y"; "y"; "int"] in
  let table := names (final_names tokens namer_init) in
  renamable "y" = true /\ renamable "x" = true
  /\ In "x" tokens
  /\ occurrences "x" tokens < occurrences "y" tokens
  /\ exists c1 c2,
       dict_get "y" table = Some c1 /\ dict_get "x" table = Some c2
       /\ earlier_ranked c1 c2 = true.
Proof.
  cbv zeta.
  assert (Hin : In "x" ["x"; "y"; "y"; "int"]) by (simpl; auto).
  assert (Hlt : occurrences "x" ["x"; "y"; "y"; "int"]
                < occurrences "y" ["x"; "y"; "y"; "int"])
    by (vm_compute; lia).
  refine (conj eq_refl (conj eq_refl (conj Hin (conj Hlt _)))).
  apply (more_frequent_earlier ["x"; "y"; "y"; "int"] "y" "x");
    try reflexivity; try discriminate; assumption.
Defined.

(* ================================================================== *)
(** * Further properties of the code *)

(** ** The shape of the tokens of [fetch_tokens] *)

Lemma all_word_append (a b : string) :
  all_word (a ++ b) = all_word a && all_word b.
Proof.
  induction a as [|c a IH]; simpl; [reflexivity|].
  now rewrite IH, andb_assoc.
Qed.

Lemma is_symbol_not_word (t : string) :
  is_symbol_token t = true -> is_word_token t = false.
Proof.
  destruct t as [|c [|d t]]; simpl; try discriminate.
  unfold is_word_token. simpl. intros H. apply negb_true_iff in H.
  now rewrite H.
Qed.

Lemma no_adjacent_head (a : string) (l : list string) :
  is_word_token a = false ->
  no_adjacent_words (a :: l) = no_adjacent_words l.
Proof.
  intros H. destruct l; cbn [no_adjacent_words]; [reflexivity|].
  now rewrite H.
Qed.

Lemma no_adjacent_second (a b : string) (l : list string) :
  is_word_token b = false ->
  no_adjacent_words (a :: b :: l) = no_adjacent_words (b :: l).
Proof.
  intros H. cbn [no_adjacent_words]. now rewrite H, andb_false_r.
Qed.

Lemma re_split_shape (content cur : string) :
  all_word cur = true ->
  let tokens := filter truthy (re_split cur content) in
  Forall (fun t => is_word_token t || is_symbol_token t = true) tokens
  /\ no_adjacent_words tokens = true.
Proof.
  revert cur. induction content as [|c rest IH]; intros cur Hcur; cbv zeta.
  - simpl. destruct (truthy cur) eqn:Et; simpl; split; auto.
    constructor; [|constructor]. unfold is_word_token. now rewrite Et, Hcur.
  - cbn [re_split]. destruct (is_word c) eqn:Ec.
    + apply IH. rewrite all_word_append, Hcur. simpl. now rewrite Ec.
    + destruct (IH "" eq_refl) as [Hs Hn]. cbv zeta in Hs, Hn.
      assert (Hsym : is_symbol_token (char c) = true) by (simpl; now rewrite Ec).
      assert (Hnw : is_word_token (char c) = false)
        by now apply is_symbol_not_word.
      cbn [filter]. change (truthy (char c)) with true. cbv iota.
      set (tl := filter truthy (re_split "" rest)) in *.
      assert (Hn' : no_adjacent_words (char c :: tl) = true)
        by now rewrite no_adjacent_head.
      destruct (truthy cur) eqn:Et.
      * split.
        -- constructor; [unfold is_word_token; now rewrite Et, Hcur|].
           constructor; [now rewrite Hsym, orb_true_r | assumption].
        -- now rewrite no_adjacent_second.
      * split; [|exact Hn'].
        constructor; [now rewrite Hsym, orb_true_r | assumption].
Qed.

(** X1. Every token of [fetch_tokens] is a non-empty run of word characters
    or one single character that is no word character, and no two
    neighbouring tokens are both words: a run of word characters, such as a
    number with its suffix, is never cut. *)
Theorem fetch_tokens_shape (content : string) :
  Forall (fun t => is_word_token t || is_symbol_token t = true)
    (fetch_tokens content)
  /\ no_adjacent_words (fetch_tokens content) = true.
Proof. exact (re_split_shape content "" eq_refl). Qed.

(** ** The text through the grouper *)

Lemma remove_spaces_idem (s : string) :
  remove_spaces (remove_spaces s) = remove_spaces s.
Proof.
  induction s as [|c s IH]; simpl; [reflexivity|].
  destruct (Ascii.eqb c " ") eqn:E; simpl; [assumption|].
  now rewrite E, IH.
Qed.

Lemma join_firstn_skipn (n : nat) (l : list string) :
  (join (firstn n l) ++ join (skipn n l))%string = join l.
Proof. now rewrite <- join_app, firstn_skipn. Qed.

Lemma grouped_tokens_text (include_space : bool) (n : nat)
    (rest : list string) :
  remove_spaces (grouped_tokens include_space n rest)
  = remove_spaces (join (firstn n rest))
  /\ (include_space = true ->
      grouped_tokens include_space n rest = join (firstn n rest)).
Proof.
  unfold grouped_tokens.
  destruct include_space; simpl; [auto|].
  destruct (negb (n =? 1)); [|split; [reflexivity | discriminate]].
  split; [apply remove_spaces_idem | discriminate].
Qed.

Lemma group_loop_text (start end_ : list string)
    (include_end include_space : bool) (fuel : nat) (rest out : list string) :
  group_loop fuel start end_ include_end include_space rest = Ok out ->
  remove_spaces (join out) = remove_spaces (join rest)
  /\ (include_space = true -> join out = join rest).
Proof.
  revert rest out. induction fuel as [|fuel IH]; intros [|t rest] out E;
    try (injection E as <-; split; reflexivity); try discriminate.
  cbn [group_loop] in E.
  set (n := end_offset start end_ include_end (t :: rest)) in *.
  destruct (group_loop fuel start end_ include_end include_space
              (skipn n (t :: rest))) as [o|e] eqn:Eo; [|discriminate].
  injection E as <-.
  destruct (IH _ _ Eo) as [Hr Hj].
  destruct (grouped_tokens_text include_space n (t :: rest)) as [Gr Gj].
  cbn [join]. split.
  - rewrite remove_spaces_append, Gr, Hr, <- remove_spaces_append.
    now rewrite join_firstn_skipn.
  - intros Hs. rewrite (Gj Hs), (Hj Hs). apply join_firstn_skipn.
Qed.

Lemma group_loop_length (start end_ : list string)
    (include_end include_space : bool) (fuel : nat) (rest out : list string) :
  start <> [] ->
  group_loop fuel start end_ include_end include_space rest = Ok out ->
  List.length out <= List.length rest.
Proof.
  intros Hs. revert rest out.
  induction fuel as [|fuel IH]; intros [|t rest] out E;
    try (injection E as <-; simpl; lia); try discriminate.
  cbn [group_loop] in E.
  pose proof (end_offset_pos start end_ include_end (t :: rest) Hs) as Hn.
  set (n := end_offset start end_ include_end (t :: rest)) in *.
  destruct (group_loop fuel start end_ include_end include_space
              (skipn n (t :: rest))) as [o|e] eqn:Eo; [|discriminate].
  injection E as <-. apply IH in Eo. rewrite length_skipn in Eo.
  cbn [List.length] in *. lia.
Qed.

(** X2. With a start marker that is not empty, [group_tokens] returns on
    every token list; it only merges: the result has no more tokens than the
    input, the concatenation of the result is the concatenation of the input
    when [include_space] is set, and the same text up to removed spaces when
    it is not. *)
Theorem group_tokens_text (token_list start end_ : list string)
    (include_end include_space : bool) :
  start <> [] ->
  exists out,
    group_tokens token_list start end_ include_end include_space = Ok out
    /\ List.length out <= List.length token_list
    /\ remove_spaces (join out) = remove_spaces (join token_list)
    /\ (include_space = true -> join out = join token_list).
Proof.
  intros Hs.
  destruct (group_tokens_total token_list start end_ include_end include_space
              Hs) as (out & E & _).
  exists out. split; [assumption|].
  split; [exact (group_loop_length _ _ _ _ _ _ _ Hs E)|].
  exact (group_loop_text _ _ _ _ _ _ _ E).
Qed.

Lemma group_tokens_text_witness :
  ["#"; "include"] <> []
  /\ exists out,
       group_tokens ["#"; "include"; " "; "<"; "x"; ">"; newline; "a"; " "; "b"]
         ["#"; "include"] [newline] true false = Ok out
       /\ List.length out <= 10
       /\ remove_spaces (join out)
          = remove_spaces
              (join ["#"; "include"; " "; "<"; "x"; ">"; newline; "a"; " "; "b"])
       /\ (false = true ->
           join out
           = join ["#"; "include"; " "; "<"; "x"; ">"; newline; "a"; " "; "b"]).
Proof.
  assert (H : ["#"; "include"] <> []) by discriminate.
  exact (conj H (group_tokens_text _ _ [newline] true false H)).
Defined.

(** X3. With an empty start marker and [include_end] off, [group_tokens]
    does not return when the end marker stands at the head of a non-empty
    token list: the scan position never moves, whatever the number of
    iterations. *)
Theorem group_tokens_hangs (end_ rest : list string) (include_space : bool)
    (fuel : nat) :
  rest <> [] ->
  List.length end_ <= List.length rest ->
  slice 0 (List.length end_) rest = end_ ->
  group_loop fuel [] end_ false include_space rest = Raise Diverges.
Proof.
  intros Hne Hlen Hpre.
  assert (Hoff : end_offset [] end_ false rest = 0).
  { unfold end_offset, starts_with, find_end. simpl List.length.
    cbn [Nat.leb slice skipn firstn list_eqb andb Nat.add].
    replace (List.length rest + 1 - List.length end_)
      with (S (List.length rest - List.length end_)) by lia.
    cbn [seq find]. rewrite Hpre.
    now rewrite (proj2 (list_eqb_eq end_ end_) eq_refl). }
  induction fuel as [|fuel IH]; destruct rest as [|t rest]; try congruence.
  - reflexivity.
  - cbn [group_loop]. rewrite Hoff. cbn [skipn]. now rewrite IH.
Qed.

Lemma group_tokens_hangs_witness :
  ["a"; "b"] <> []
  /\ List.length ["a"] <= List.length ["a"; "b"]
  /\ slice 0 (List.length ["a"]) ["a"; "b"] = ["a"]
  /\ group_tokens ["a"; "b"] [] ["a"] false true = Raise Diverges.
Proof.
  assert (H1 : ["a"; "b"] <> []) by discriminate.
  assert (H2 : List.length ["a"] <= List.length ["a"; "b"]) by (simpl; lia).
  assert (H3 : slice 0 (List.length ["a"]) ["a"; "b"] = ["a"]) by reflexivity.
  exact (conj H1 (conj H2 (conj H3
           (group_tokens_hangs ["a"] ["a"; "b"] true 2 H1 H2 H3)))).
Defined.

(** X4. On the tokens of any text, the seven passes of [group] return; no
    token of the result is empty, and the concatenation of the result is the
    text up to the spaces removed inside include directives. *)
Theorem group_text (content : string) :
  exists out,
    group (fetch_tokens content) = Ok out
    /\ Forall (fun t => truthy t = true) out
    /\ remove_spaces (join out) = remove_spaces content.
Proof.
  destruct (group_total (fetch_tokens content)) as (out & E & Ht).
  exists out. split; [assumption|].
  split; [apply Ht, fetch_tokens_truthy|].
  assert (Hc : join (fetch_tokens content) = content).
  { unfold fetch_tokens. now rewrite join_filter_truthy, join_re_split. }
  transitivity (remove_spaces (join (fetch_tokens content)));
    [|now rewrite Hc].
  unfold group in E.
  apply bind_ok in E as (t1 & E1 & E).
  apply bind_ok in E as (t2 & E2 & E).
  apply bind_ok in E as (t3 & E3 & E).
  apply bind_ok in E as (t4 & E4 & E).
  apply bind_ok in E as (t5 & E5 & E).
  apply bind_ok in E as (t6 & E6 & E).
  apply group_loop_text in E1 as [R1 _], E2 as [R2 _], E3 as [R3 _],
    E4 as [R4 _], E5 as [R5 _], E6 as [R6 _], E as [R7 _].
  congruence.
Qed.

(** ** What the stripper keeps *)

Lemma code_token_not_stripped (t : string) :
  code_token t = true -> stripped t = false.
Proof.
  destruct t as [|c t']; [discriminate|].
  unfold code_token, stripped.
  destruct c as [[] [] [] [] [] [] [] []]; cbn;
    try discriminate; try reflexivity;
    destruct t' as [|d t']; cbn; try reflexivity; try discriminate;
    rewrite ?andb_false_r; try reflexivity.
  all: intros H; apply negb_true_iff in H; rewrite ?orb_false_r; exact H.
Qed.

Lemma filter_filter_imp {A : Type} (f g : A -> bool) (l : list A) :
  (forall x, f x = true -> g x = true) ->
  filter f (filter g l) = filter f l.
Proof.
  intros H. induction l as [|x l IH]; simpl; [reflexivity|].
  destruct (g x) eqn:Eg; simpl; rewrite IH; [reflexivity|].
  destruct (f x) eqn:Ef; [|reflexivity].
  rewrite (H x Ef) in Eg. discriminate.
Qed.

(** X5. [strip] removes no token of the program text proper: the names
    other than [const], the tokens with a numeric leading character and the
    quoted literals of a token list are all in the stripped list, in the same
    order and the same number. *)
Theorem strip_keeps_code (tokens : list string) :
  filter code_token (strip tokens) = filter code_token tokens.
Proof.
  unfold strip. apply filter_filter_imp.
  intros t Ht. now rewrite (code_token_not_stripped t Ht).
Qed.

(** ** The stable sort and the frequency table *)

Lemma before_cons_inv {A : Type} (a b x : A) (l : list A) :
  before a b (x :: l) -> (a = x /\ In b l) \/ before a b l.
Proof.
  intros ([|y l1] & l2 & l3 & E); simpl in E; injection E as -> ->.
  - left. split; [reflexivity|]. apply in_or_app. right. now left.
  - right. now exists l1, l2, l3.
Qed.

Lemma insert_desc_before_old {K : Type} (kv a b : K * nat) (l : dict K nat) :
  before a b l -> before a b (insert_desc kv l).
Proof.
  induction l as [|x l IH]; intros Hb.
  - destruct Hb as ([|? ?] & ? & ? & E); discriminate E.
  - cbn [insert_desc]. destruct (snd kv <? snd x); [|now apply before_cons].
    apply before_cons_inv in Hb as [[-> Hin]|Hb].
    + apply before_head.
      apply (Permutation_in _ (Permutation_sym (insert_desc_perm kv l))).
      now right.
    + apply before_cons. auto.
Qed.

Lemma insert_desc_before_new {K : Type} (kv b : K * nat) (l : dict K nat) :
  In b l -> snd b <= snd kv -> before kv b (insert_desc kv l).
Proof.
  induction l as [|x l IH]; intros Hin Hle; [contradiction|].
  cbn [insert_desc]. destruct (snd kv <? snd x) eqn:E.
  - apply Nat.ltb_lt in E. apply before_cons. apply IH; [|assumption].
    destruct Hin as [->|Hin]; [lia | assumption].
  - now apply before_head.
Qed.

Lemma sort_dict_keeps_order {K : Type} (d : dict K nat) (a b : K * nat) :
  before a b d -> snd b <= snd a -> before a b (sort_dict d).
Proof.
  induction d as [|x d IH]; intros Hb Hle.
  - destruct Hb as ([|? ?] & ? & ? & E); discriminate E.
  - cbn [sort_dict fold_right]. fold (sort_dict d).
    apply before_cons_inv in Hb as [[-> Hin]|Hb].
    + apply insert_desc_before_new; [|assumption].
      now apply (Permutation_in _ (Permutation_sym (sort_dict_perm d))).
    + apply insert_desc_before_old. auto.
Qed.

(** X6. [sort_dict] is a stable sort by descending value: its result is a
    permutation of the items, the values never increase along it, and two
    items stay in their order whenever the first has a value at least as
    large as the second, so that ties keep the order of insertion. *)
Theorem sort_dict_stable {K : Type} (d : dict K nat) :
  Permutation (sort_dict d) d
  /\ descending (sort_dict d)
  /\ (forall a b, before a b d -> snd b <= snd a -> before a b (sort_dict d)).
Proof.
  split; [apply sort_dict_perm|]. split; [apply sort_dict_sorted|].
  intros a b. apply sort_dict_keeps_order.
Qed.

Lemma sort_dict_stable_witness :
  let d := [("a", 1); ("b", 2); ("c", 1); ("d", 2)] in
  before ("a", 1) ("c", 1) d
  /\ snd ("c", 1) <= snd ("a", 1)
  /\ before ("a", 1) ("c", 1) (sort_dict d)
  /\ sort_dict d = [("b", 2); ("d", 2); ("a", 1); ("c", 1)].
Proof.
  cbv zeta.
  assert (Hb : before ("a", 1) ("c", 1)
                 [("a", 1); ("b", 2); ("c", 1); ("d", 2)])
    by (exists [], [("b", 2)], [("d", 2)]; reflexivity).
  assert (Hle : snd ("c", 1) <= snd ("a", 1)) by (simpl; lia).
  destruct (sort_dict_stable [("a", 1); ("b", 2); ("c", 1); ("d", 2)])
    as (_ & _ & H).
  exact (conj Hb (conj Hle (conj (H _ _ Hb Hle) eq_refl))).
Defined.

Lemma sort_dict_get (d : dict string nat) (k : string) :
  NoDup (dict_keys d) -> dict_get k (sort_dict d) = dict_get k d.
Proof.
  intros Hnd.
  destruct (dict_get k d) as [v|] eqn:E.
  - apply In_dict_get; [now apply sort_dict_NoDup|].
    apply (Permutation_in _ (Permutation_sym (sort_dict_perm d))).
    now apply dict_get_In.
  - apply dict_get_none_keys. apply dict_get_none_keys in E.
    intros Hin. apply E.
    exact (Permutation_in _ (sort_dict_keys_perm d) Hin).
Qed.

(** X7. The table of [get_frequencies] maps every renamable token of the
    stream to the number of its occurrences and holds no other key: a
    token that is not renamable, or not in the stream, is not in it. *)
Theorem get_frequencies_counts (tokens : list string) (t : string) :
  dict_get t (get_frequencies tokens)
  = if renamable t && (0 <? occurrences t tokens)
    then Some (occurrences t tokens)
    else None.
Proof.
  unfold get_frequencies.
  rewrite sort_dict_get by (apply count_tokens_NoDup; constructor).
  rewrite count_tokens_get. cbn [dict_get].
  destruct (renamable t); [|reflexivity].
  destruct (occurrences t tokens); reflexivity.
Qed.

(** ** The codes of the final table *)

Lemma all_char_repeat (c : ascii) (n : nat) : all_char c (repeat_char c n) = true.
Proof. induction n; simpl; [reflexivity|]. now rewrite Ascii.eqb_refl. Qed.

Lemma uniform_repeat (c : ascii) (n : nat) : uniform (repeat_char c n) = true.
Proof. destruct n; simpl; [reflexivity | apply all_char_repeat]. Qed.

Lemma all_word_repeat (c : ascii) (n : nat) :
  is_word c = true -> all_word (repeat_char c n) = true.
Proof. intros H. induction n; simpl; [reflexivity|]. now rewrite H. Qed.

Lemma reserved_not_uniform (s : string) :
  In s ("true" :: "false" :: KEYWORDS) -> uniform s = false.
Proof.
  intros Hin.
  assert (H : forallb (fun s => negb (uniform s))
                ("true" :: "false" :: KEYWORDS) = true)
    by (vm_compute; reflexivity).
  rewrite forallb_forall in H. apply negb_true_iff. exact (H s Hin).
Qed.

Lemma code_at_word (k : nat) :
  is_word_token (code_at k) = true /\ uniform (code_at k) = true.
Proof.
  split; [|apply uniform_repeat].
  unfold is_word_token. destruct (code_at_sound k) as [-> _]. simpl.
  unfold code_at. apply all_word_repeat.
  rewrite chr_counter_at by (apply Nat.mod_upper_bound; lia).
  unfold is_word. rewrite letter_is_alpha by (apply Nat.mod_upper_bound; lia).
  reflexivity.
Qed.

(** X8. In a fresh process the code the final table holds for a renamable
    token of the stream is a word (a non-empty run of word characters) and is
    never the spelling of a reserved keyword, of [true] or of [false]: the
    mangling brings no keyword into the output. *)
Theorem codes_not_reserved (tokens : list string) (t c : string) :
  In t tokens -> renamable t = true ->
  dict_get t (names (final_names tokens namer_init)) = Some c ->
  is_word_token c = true /\ ~ In c ("true" :: "false" :: KEYWORDS).
Proof.
  intros Hin Hr E.
  destruct (final_names_cases tokens t Hr Hin)
    as [[_ F]|[[_ F]|(i & _ & F)]]; cbv zeta in F; rewrite E in F;
    injection F as ->.
  - split; [reflexivity|]. intros H. apply reserved_not_uniform in H.
    discriminate.
  - split; [reflexivity|]. intros H. apply reserved_not_uniform in H.
    discriminate.
  - destruct (code_at_word i) as [Hw Hu]. split; [assumption|].
    intros H. apply reserved_not_uniform in H. congruence.
Qed.

Lemma codes_not_reserved_witness :
  let tokens := ["if"; "x"; "true"; "y"; "x"] in
  In "y" tokens /\ renamable "y" = true
  /\ dict_get "y" (names (final_names tokens namer_init)) = Some "B"
  /\ is_word_token "B" = true /\ ~ In "B" ("true" :: "false" :: KEYWORDS).
Proof.
  cbv zeta.
  assert (Hin : In "y" ["if"; "x"; "true"; "y"; "x"]) by (simpl; auto 6).
  assert (E : dict_get "y"
                (names (final_names ["if"; "x"; "true"; "y"; "x"] namer_init))
              = Some "B") by (vm_compute; reflexivity).
  exact (conj Hin (conj eq_refl (conj E
           (codes_not_reserved _ "y" "B" Hin eq_refl E)))).
Defined.

(** ** Where the analyzer raises *)

Lemma bind_raise {A B : Type} (m : result A) (k : A -> result B) (e : error) :
  bind m k = Raise e -> m = Raise e \/ exists a, m = Ok a /\ k a = Raise e.
Proof. destruct m as [a|e']; simpl; [eauto | intros [= ->]; auto]. Qed.

Lemma dict_at_raise {K V : Type} `{Eqb K} (k : K) (d : dict K V) (e : error) :
  dict_at k d = Raise e -> e = KeyError.
Proof. unfold dict_at. destruct (dict_get k d); simpl; congruence. Qed.

Lemma function_at_raise {V : Type} (info : structs V)
    (struct function : option string) (e : error) :
  function_at info struct function = Raise e -> e = KeyError.
Proof.
  unfold function_at. intros E. apply bind_raise in E as [E|(s & _ & E)].
  - exact (dict_at_raise _ _ _ E).
  - destruct function; [exact (dict_at_raise _ _ _ E) | congruence].
Qed.

Lemma update_struct_raise {V : Type} (info : structs V)
    (struct : option string) (upd : Struct V -> Struct V) (e : error) :
  update_struct info struct upd = Raise e -> e = KeyError.
Proof.
  unfold update_struct. intros E. apply bind_raise in E as [E|(s & _ & E)].
  - exact (dict_at_raise _ _ _ E).
  - discriminate.
Qed.

Lemma update_function_raise {V : Type} (info : structs V)
    (struct function : option string) (upd : Function V -> Function V)
    (e : error) :
  update_function info struct function upd = Raise e -> e = KeyError.
Proof.
  unfold update_function. intros E. apply bind_raise in E as [E|(s & _ & E)].
  - exact (dict_at_raise _ _ _ E).
  - destruct function; [|congruence].
    apply bind_raise in E as [E|(fn & _ & E)];
      [exact (dict_at_raise _ _ _ E) | discriminate].
Qed.

Lemma stats_record_args_raise (token : string) (rest : list string)
    (st : stats_state) (e : error) :
  stats_record_args token rest st = Raise e ->
  e = KeyError
  \/ (e = IndexError /\ rest = [] /\ entering_function st = true
      /\ (0 < parenth_depth st)%Z /\ token <> "(" /\ token <> ")").
Proof.
  unfold stats_record_args.
  destruct (entering_function st) eqn:Een; [|discriminate].
  intros E. apply bind_raise in E as [E|(a & _ & E)];
    [|destruct a; discriminate].
  destruct (String.eqb_spec token "("); [discriminate|].
  destruct (String.eqb_spec token ")"); [discriminate|].
  destruct (0 <? parenth_depth st)%Z eqn:Epd; [|discriminate].
  apply Z.ltb_lt in Epd.
  apply bind_raise in E as [E|(next & _ & E)].
  - destruct rest; [|discriminate]. injection E as <-. right. auto 6.
  - left. destruct (_ && _); [|discriminate].
    apply bind_raise in E as [E|(i & _ & E)]; [|discriminate].
    exact (update_function_raise _ _ _ _ _ E).
Qed.

Lemma stats_found_function_raise (token : string) (rest : list string)
    (st : stats_state) (e : error) :
  stats_found_function token rest st = Raise e -> e = KeyError.
Proof.
  unfold stats_found_function. destruct (_ && _); [|discriminate].
  intros E. apply bind_raise in E as [E|(i & _ & E)]; [|discriminate].
  exact (update_struct_raise _ _ _ _ E).
Qed.

Lemma stats_in_function_raise (token : string) (st : stats_state) (e : error) :
  stats_in_function token st = Raise e -> e = KeyError.
Proof.
  unfold stats_in_function. destruct (is_some (function st)); [|discriminate].
  intros E.
  apply bind_raise in E as [E|(fn1 & _ & E)];
    [exact (function_at_raise _ _ _ _ E)|].
  apply bind_raise in E as [E|(i1 & _ & E)].
  { destruct (dict_mem token (args fn1)); [|discriminate].
    exact (update_function_raise _ _ _ _ _ E). }
  apply bind_raise in E as [E|(fn2 & _ & E)];
    [exact (function_at_raise _ _ _ _ E)|].
  apply bind_raise in E as [E|(i2 & _ & E)].
  { destruct (dict_mem token (variables fn2)); [|discriminate].
    exact (update_function_raise _ _ _ _ _ E). }
  apply bind_raise in E as [E|(i3 & _ & E)]; [|discriminate].
  destruct (_ && _ && _); [|discriminate].
  exact (update_function_raise _ _ _ _ _ E).
Qed.

Lemma stats_fields_raise (token : string) (st : stats_state) (e : error) :
  stats_fields token st = Raise e -> e = KeyError.
Proof.
  unfold stats_fields. intros E.
  apply bind_raise in E as [E|(i1 & _ & E)].
  { destruct (_ && _ && _ && _); [|discriminate].
    exact (update_struct_raise _ _ _ _ E). }
  apply bind_raise in E as [E|(s & _ & E)]; [exact (dict_at_raise _ _ _ E)|].
  apply bind_raise in E as [E|(i2 & _ & E)]; [|discriminate].
  destruct (dict_mem token (fields s)); [|discriminate].
  exact (update_struct_raise _ _ _ _ E).
Qed.

Lemma stats_top_lvl_used_raise (token : string) (st : stats_state)
    (e : error) :
  stats_top_lvl_used token st = Raise e -> e = KeyError.
Proof.
  unfold stats_top_lvl_used. intros E.
  apply bind_raise in E as [E|(top & _ & E)]; [exact (dict_at_raise _ _ _ E)|].
  destruct (dict_mem token (functions top)); [|discriminate].
  apply bind_raise in E as [E|(s & _ & E)]; [exact (dict_at_raise _ _ _ E)|].
  destruct (_ && _); [|discriminate].
  apply bind_raise in E as [E|(i & _ & E)]; [|discriminate].
  exact (update_struct_raise _ _ _ _ E).
Qed.

Lemma stats_exit_function_keeps (token : string) (st : stats_state) :
  entering_function (stats_exit_function token st) = entering_function st
  /\ parenth_depth (stats_exit_function token st) = parenth_depth st.
Proof. unfold stats_exit_function. destruct (_ && _); auto. Qed.

Lemma stats_step_raise (st : stats_state) (token : string)
    (rest : list string) (e : error) :
  stats_step st token rest = Raise e ->
  e = KeyError
  \/ (e = IndexError /\ rest = [] /\ entering_function st = true
      /\ (0 < parenth_depth st)%Z /\ token <> "(" /\ token <> ")").
Proof.
  unfold stats_step. intros E.
  apply bind_raise in E as [E|(st1 & _ & E)].
  { apply stats_record_args_raise in E.
    destruct (stats_exit_function_keeps token st) as [-> ->] in E.
    exact E. }
  left.
  apply bind_raise in E as [E|(st2 & _ & E)];
    [exact (stats_found_function_raise _ _ _ _ E)|].
  apply bind_raise in E as [E|(st3 & _ & E)];
    [exact (stats_in_function_raise _ _ _ E)|].
  apply bind_raise in E as [E|(st4 & _ & E)];
    [exact (stats_fields_raise _ _ _ E)|].
  apply bind_raise in E as [E|(st5 & _ & E)];
    [exact (stats_top_lvl_used_raise _ _ _ E) | discriminate].
Qed.

(** The look-ahead of line 224 on the last token, inside a parameter list. *)
Lemma stats_step_index_error (st : stats_state) (token : string) :
  entering_function st = true -> (0 < parenth_depth st)%Z ->
  token <> "(" -> token <> ")" ->
  stats_step st token [] = Raise IndexError.
Proof.
  intros Hen Hpd H1 H2. unfold stats_step, stats_record_args.
  destruct (stats_exit_function_keeps token st) as [-> ->].
  rewrite Hen.
  rewrite (proj2 (String.eqb_neq token "(") H1).
  rewrite (proj2 (String.eqb_neq token ")") H2).
  rewrite (proj2 (Z.ltb_lt _ _) Hpd). reflexivity.
Qed.

Lemma stats_loop_last (tokens : list string) (st : stats_state) :
  tokens <> [] ->
  stats_loop st tokens
  = (s <- stats_before_last st tokens ;;
     s' <- stats_step s (last tokens "") [] ;;
     Ok s').
Proof.
  revert st. induction tokens as [|t rest IH]; intros st Hne; [congruence|].
  destruct rest as [|t2 rest].
  - simpl. now destruct (stats_step st t []).
  - cbn [stats_loop stats_before_last].
    change (last (t :: t2 :: rest) "") with (last (t2 :: rest) "").
    destruct (stats_step st t (t2 :: rest)) as [st1|e]; [|reflexivity].
    cbn [bind]. apply IH. discriminate.
Qed.

Lemma stats_before_last_raise (tokens : list string) (st : stats_state)
    (e : error) :
  stats_before_last st tokens = Raise e -> e = KeyError.
Proof.
  revert st. induction tokens as [|t rest IH]; intros st E; [discriminate|].
  destruct rest as [|t2 rest]; [discriminate|].
  cbn [stats_before_last] in E.
  apply bind_raise in E as [E|(st1 & _ & E)]; [|exact (IH _ E)].
  apply stats_step_raise in E as [E|(_ & E & _)]; [assumption | discriminate].
Qed.

Lemma get_stats_raise (tokens : list string) (e : error) :
  get_stats tokens = Raise e ->
  tokens <> []
  /\ (e = KeyError
      \/ (e = IndexError
          /\ exists st,
               stats_before_last stats_init tokens = Ok st
               /\ entering_function st = true
               /\ (0 < parenth_depth st)%Z
               /\ last tokens "" <> "(" /\ last tokens "" <> ")")).
Proof.
  intros E. unfold get_stats in E.
  apply bind_raise in E as [E|(st & _ & E)]; [|discriminate].
  assert (Hne : tokens <> []) by (intros ->; discriminate E).
  split; [assumption|].
  rewrite (stats_loop_last tokens stats_init Hne) in E.
  apply bind_raise in E as [E|(st & Es & E)].
  - left. exact (stats_before_last_raise _ _ _ E).
  - apply bind_raise in E as [E|(s' & _ & E)]; [|discriminate].
    apply stats_step_raise in E as [E|(E & _ & Hen & Hpd & H1 & H2)];
      [now left|].
    right. split; [assumption|]. exists st. auto.
Qed.

(** X9. [get_stats] raises [IndexError] exactly when the token stream ends
    inside a parameter list: the last token is reached while arguments are
    collected at a positive parenthesis depth and is no parenthesis, so that
    line 224 reads [tokens[i + 1]] past the end.  Any other exception of
    [get_stats] is a [KeyError]. *)
Theorem get_stats_index_error (tokens : list string) :
  (get_stats tokens = Raise IndexError
   <-> tokens <> []
       /\ exists st,
            stats_before_last stats_init tokens = Ok st
            /\ entering_function st = true
            /\ (0 < parenth_depth st)%Z
            /\ last tokens "" <> "(" /\ last tokens "" <> ")")
  /\ (forall e, get_stats tokens = Raise e -> e = KeyError \/ e = IndexError).
Proof.
  split; [split|].
  - intros E. destruct (get_stats_raise _ _ E) as [Hne [F|[_ F]]];
      [discriminate | auto].
  - intros (Hne & st & Es & Hen & Hpd & H1 & H2).
    unfold get_stats. rewrite (stats_loop_last tokens stats_init Hne), Es.
    cbn [bind]. now rewrite stats_step_index_error.
  - intros e E. destruct (get_stats_raise _ _ E) as [_ [F|[F _]]]; auto.
Qed.

Lemma get_stats_index_error_witness :
  let tokens := ["int"; "f"; "("; "x"; ","; "y"] in
  tokens <> []
  /\ (exists st,
        stats_before_last stats_init tokens = Ok st
        /\ entering_function st = true
        /\ (0 < parenth_depth st)%Z
        /\ last tokens "" <> "(" /\ last tokens "" <> ")")
  /\ get_stats tokens = Raise IndexError.
Proof.
  cbv zeta.
  assert (Hne : ["int"; "f"; "("; "x"; ","; "y"] <> []) by discriminate.
  assert (Hst : exists st,
            stats_before_last stats_init ["int"; "f"; "("; "x"; ","; "y"]
            = Ok st
            /\ entering_function st = true
            /\ (0 < parenth_depth st)%Z
            /\ last ["int"; "f"; "("; "x"; ","; "y"] "" <> "("
            /\ last ["int"; "f"; "("; "x"; ","; "y"] "" <> ")").
  { eexists. split; [vm_compute; reflexivity|].
    split; [reflexivity|]. split; [reflexivity|].
    split; discriminate. }
  destruct (get_stats_index_error ["int"; "f"; "("; "x"; ","; "y"])
    as [[_ H] _].
  exact (conj Hne (conj Hst (H (conj Hne Hst)))).
Defined.

(** ** The tokenizer on the text of the emitters *)

Lemma re_split_word (w rest cur : string) :
  all_word w = true ->
  re_split cur (w ++ rest) = re_split (cur ++ w) rest.
Proof.
  revert cur. induction w as [|c w IH]; intros cur Hw.
  - simpl. now rewrite append_empty_r.
  - simpl in Hw. apply andb_true_iff in Hw as [Hc Hw].
    cbn [append re_split]. rewrite Hc, (IH _ Hw).
    f_equal. unfold char. now rewrite append_assoc.
Qed.

Lemma re_split_join (l : list string) (cur : string) :
  all_word cur = true ->
  Forall (fun t => is_word_token t || is_symbol_token t = true) l ->
  no_adjacent_words (cur :: l) = true ->
  filter truthy (re_split cur (join l))
  = (if truthy cur then [cur] else []) ++ l.
Proof.
  revert cur. induction l as [|a l IH]; intros cur Hcur Hl Hn.
  - simpl. now destruct (truthy cur).
  - inversion Hl as [|? ? Ha Hl']; subst.
    destruct (is_word_token a) eqn:Ew.
    + (* a word: [cur] is empty *)
      assert (Ec : truthy cur = false).
      { cbn [no_adjacent_words] in Hn. rewrite Ew, andb_true_r in Hn.
        apply andb_true_iff in Hn as [Hn _]. apply negb_true_iff in Hn.
        unfold is_word_token in Hn. rewrite Hcur, andb_true_r in Hn.
        exact Hn. }
      destruct cur; [|discriminate]. cbn [truthy is_empty negb app].
      unfold is_word_token in Ew. apply andb_true_iff in Ew as [Et Ea].
      cbn [join]. rewrite (re_split_word a (join l) "" Ea). cbn [append].
      rewrite (IH a Ea Hl').
      * now rewrite Et.
      * cbn [no_adjacent_words] in Hn. destruct l; [reflexivity|].
        apply andb_true_iff in Hn as [_ Hn]. exact Hn.
    + (* a symbol *)
      simpl in Ha. destruct a as [|c [|d a]]; try discriminate.
      cbn [is_symbol_token] in Ha. apply negb_true_iff in Ha.
      cbn [join append re_split]. rewrite Ha. cbn [filter].
      change (truthy (char c)) with true. cbv iota.
      rewrite (IH "" eq_refl Hl').
      * cbn [truthy is_empty negb app]. now destruct (truthy cur).
      * rewrite no_adjacent_head by reflexivity.
        rewrite no_adjacent_second in Hn by exact Ew.
        rewrite no_adjacent_head in Hn by exact Ew. exact Hn.
Qed.

(** X10. A token list of the tokenizer's shape is a fixed point: when every
    token is a word or a single character that is no word character, and no
    two neighbours are both words, the tokens of the joined text are the
    list itself. *)
Theorem fetch_tokens_fixed_point (l : list string) :
  Forall (fun t => is_word_token t || is_symbol_token t = true) l ->
  no_adjacent_words l = true ->
  fetch_tokens (join l) = l.
Proof.
  intros Hl Hn. unfold fetch_tokens.
  rewrite (re_split_join l "" eq_refl Hl).
  - reflexivity.
  - now rewrite no_adjacent_head.
Qed.

Lemma fetch_tokens_fixed_point_witness :
  let l := ["int"; " "; "x1"; "="; "0x1F"; ";"] in
  Forall (fun t => is_word_token t || is_symbol_token t = true) l
  /\ no_adjacent_words l = true
  /\ fetch_tokens (join l) = l.
Proof.
  cbv zeta.
  assert (Hl : Forall (fun t => is_word_token t || is_symbol_token t = true)
                 ["int"; " "; "x1"; "="; "0x1F"; ";"])
    by (repeat constructor).
  assert (Hn : no_adjacent_words ["int"; " "; "x1"; "="; "0x1F"; ";"] = true)
    by reflexivity.
  exact (conj Hl (conj Hn (fetch_tokens_fixed_point _ Hl Hn))).
Defined.

Lemma word_merge_sensitive (t : string) :
  is_word_token t = true -> merge_sensitive t = true.
Proof.
  destruct t as [|c t]; [discriminate|].
  unfold is_word_token. cbn [truthy is_empty negb all_word andb].
  intros H. apply andb_true_iff in H as [H _].
  unfold merge_sensitive, is_name. unfold is_word in H.
  apply orb_true_iff in H as [H|H].
  - apply orb_true_iff in H as [H|H]; rewrite H;
      [reflexivity | apply orb_true_r].
  - apply Nat.eqb_eq in H.
    assert (Hc : c = "_"%char).
    { rewrite <- (ascii_nat_embedding c). unfold code in H. now rewrite H. }
    subst c. simpl. now destruct t.
Qed.

Lemma lexical_cases (t : string) :
  lexical t = true ->
  (is_word_token t || is_symbol_token t = true)
  /\ t <> " " /\ truthy t = true.
Proof.
  unfold lexical. intros H. apply andb_true_iff in H as [H1 H2].
  split; [assumption|]. split.
  - intros ->. discriminate.
  - destruct t; [discriminate | reflexivity].
Qed.

Lemma space_not_word : is_word_token " " = false.
Proof. reflexivity. Qed.

Lemma spaced_cons (a b : string) (toks : list string) :
  spaced (a :: b :: toks)
  = a :: (if merge_sensitive a && merge_sensitive b then [" "] else [])
         ++ spaced (b :: toks).
Proof. reflexivity. Qed.

Lemma unspaced_cons (a : string) (l : list string) :
  a <> " " -> unspaced (a :: l) = a :: unspaced l.
Proof.
  intros H. unfold unspaced. cbn [filter].
  apply String.eqb_neq in H. now rewrite H.
Qed.

Lemma spaced_shape (toks : list string) :
  Forall (fun t => lexical t = true) toks ->
  Forall (fun t => is_word_token t || is_symbol_token t = true) (spaced toks)
  /\ no_adjacent_words (spaced toks) = true
  /\ unspaced (spaced toks) = toks.
Proof.
  induction toks as [|a toks IH]; intros H;
    [split; [constructor | split; reflexivity]|].
  inversion H as [|? ? Ha Ht]; subst.
  destruct (IH Ht) as (Hs & Hn & Hu).
  destruct (lexical_cases a Ha) as (Ha1 & Ha2 & Ha3).
  destruct toks as [|b toks].
  - cbn [spaced]. rewrite (unspaced_cons a [] Ha2).
    split; [repeat constructor; assumption | split; reflexivity].
  - rewrite spaced_cons.
    set (rest := spaced (b :: toks)) in *.
    assert (Hrest : exists r, rest = b :: r)
      by (subst rest; destruct toks; eexists; reflexivity).
    destruct Hrest as [r Er].
    destruct (merge_sensitive a && merge_sensitive b) eqn:Em; cbn [app].
    + rewrite (unspaced_cons a _ Ha2).
      change (unspaced (" " :: rest)) with (unspaced rest). rewrite Hu.
      split; [|split; [|reflexivity]].
      * constructor; [assumption|]. constructor; [reflexivity | assumption].
      * rewrite no_adjacent_second by exact space_not_word.
        rewrite no_adjacent_head by exact space_not_word. exact Hn.
    + rewrite (unspaced_cons a _ Ha2), Hu.
      split; [|split; [|reflexivity]].
      * constructor; assumption.
      * rewrite Er in Hn |- *. cbn [no_adjacent_words].
        cbn [no_adjacent_words] in Hn.
        rewrite Hn, andb_true_r. apply negb_true_iff.
        destruct (is_word_token a) eqn:Ewa; [|reflexivity].
        destruct (is_word_token b) eqn:Ewb; [|reflexivity].
        now rewrite (word_merge_sensitive a Ewa),
                    (word_merge_sensitive b Ewb) in Em.
Qed.

Lemma fetch_tokens_spaced (toks : list string) :
  Forall (fun t => lexical t = true) toks ->
  fetch_tokens (join (spaced toks)) = spaced toks.
Proof.
  intros H. destruct (spaced_shape toks H) as (Hs & Hn & _).
  unfold fetch_tokens. rewrite (re_split_join (spaced toks) "" eq_refl Hs).
  - reflexivity.
  - now rewrite no_adjacent_head.
Qed.

Lemma lexical_truthy (tokens : list string) :
  Forall (fun t => lexical t = true) tokens ->
  Forall (fun t => truthy t = true) tokens.
Proof.
  intros H. eapply Forall_impl; [|exact H].
  intros t Ht. now destruct (lexical_cases t Ht) as (_ & _ & ?).
Qed.

(** X11. The text written to [plir.cpp] tokenizes back to the stream it was
    written from: when every token is a word or a single non-word
    character other than the space, the tokens of the text, the separating
    spaces apart, are the tokens of the stream. *)
Theorem ir_text_tokens (tokens : list string) :
  Forall (fun t => lexical t = true) tokens ->
  unspaced (fetch_tokens (join (ir_tokens None tokens))) = tokens.
Proof.
  intros H. rewrite (ir_tokens_spaced tokens (lexical_truthy tokens H)).
  destruct (spaced_shape tokens H) as (_ & _ & Hu).
  now rewrite (fetch_tokens_spaced tokens H).
Qed.

Lemma ir_text_tokens_witness :
  let tokens := ["int"; "x"; "="; "1"; "+"; "y"; ";"; "return"; "0x1F"] in
  Forall (fun t => lexical t = true) tokens
  /\ unspaced (fetch_tokens (join (ir_tokens None tokens))) = tokens.
Proof.
  cbv zeta.
  assert (H : Forall (fun t => lexical t = true)
                ["int"; "x"; "="; "1"; "+"; "y"; ";"; "return"; "0x1F"])
    by (repeat constructor).
  exact (conj H (ir_text_tokens _ H)).
Defined.

Lemma Forall2_image {A B : Type} (R : A -> B -> Prop) (P : B -> Prop)
    (l : list A) (l' : list B) :
  Forall2 R l l' ->
  (forall a b, In a l -> R a b -> P b) ->
  Forall P l'.
Proof.
  induction 1 as [|a b l l' Hab _ IH]; intros H; constructor.
  - apply (H a b); [now left | assumption].
  - apply IH. intros x y Hx. apply H. now right.
Qed.

Lemma word_lexical (t : string) : is_word_token t = true -> lexical t = true.
Proof.
  intros H. unfold lexical. rewrite H. cbn [orb andb].
  apply negb_true_iff, String.eqb_neq. intros ->. discriminate.
Qed.

Lemma mangle_lexical (tokens : list string) (t t' : string) :
  In t tokens -> lexical t = true ->
  mangle (names (final_names tokens namer_init)) t = Ok t' ->
  lexical t' = true.
Proof.
  intros Hin Hl E. unfold mangle in E.
  destruct (renamable t) eqn:Er; [|congruence].
  unfold dict_at, of_option in E.
  destruct (final_names_cases tokens t Er Hin)
    as [[_ Eg]|[[_ Eg]|(i & _ & Eg)]]; cbv zeta in Eg; rewrite Eg in E;
    injection E as <-; try reflexivity.
  apply word_lexical, code_at_word.
Qed.

(** X12. The minified text tokenizes to the renamed stream: when every
    token of the intermediate representation is a word or a single non-word
    character other than the space, [minify] writes a text whose tokens,
    the separating spaces apart, are the tokens of the stream, each one
    mangled. *)
Theorem minified_text_tokens (tokens : list string) :
  Forall (fun t => lexical t = true) tokens ->
  exists toks mini,
    Forall2
      (fun t t' => mangle (names (final_names tokens namer_init)) t = Ok t')
      tokens toks
    /\ emit tokens namer_init = Ok mini
    /\ unspaced (fetch_tokens mini) = toks.
Proof.
  intros H.
  destruct (new_tokens_spaced_all tokens (lexical_truthy tokens H))
    as (toks & Hm & En). cbv zeta in Hm, En.
  exists toks, (join (spaced toks)). split; [exact Hm|].
  split; [unfold emit; now rewrite En|].
  assert (Ht : Forall (fun t => lexical t = true) toks).
  { apply (Forall2_image _ _ _ _ Hm). intros t t' Hin E.
    apply (mangle_lexical tokens t t' Hin); [|exact E].
    rewrite Forall_forall in H. now apply H. }
  destruct (spaced_shape toks Ht) as (_ & _ & Hu).
  now rewrite (fetch_tokens_spaced toks Ht).
Qed.

Lemma minified_text_tokens_witness :
  let tokens := ["int"; "count"; "="; "1"; "+"; "count"; ";"] in
  Forall (fun t => lexical t = true) tokens
  /\ exists toks mini,
       Forall2
         (fun t t' => mangle (names (final_names tokens namer_init)) t = Ok t')
         tokens toks
       /\ emit tokens namer_init = Ok mini
       /\ unspaced (fetch_tokens mini) = toks.
Proof.
  cbv zeta.
  assert (H : Forall (fun t => lexical t = true)
                ["int"; "count"; "="; "1"; "+"; "count"; ";"])
    by (repeat constructor).
  exact (conj H (minified_text_tokens _ H)).
Defined.

(** ** What [to_ir] writes *)

Lemma function_at_get {V : Type} (info : structs V) (struct : option string)
    (f : string) (fn : Function V) :
  function_at info struct (Some f) = Ok fn ->
  exists S, dict_get struct info = Some S
            /\ dict_get f (functions S) = Some fn.
Proof.
  unfold function_at, dict_at, of_option. intros E.
  destruct (dict_get struct info) as [S|]; [|discriminate].
  cbn [bind] in E. exists S. split; [reflexivity|].
  destruct (dict_get f (functions S)); congruence.
Qed.

Lemma ir_rename_image (ir : structs string)
    (fields methods : dict string string) (struct function : option string)
    (token t' : string) :
  ir_rename ir fields methods struct function token = Ok t' ->
  renamed_by ir fields methods token t'.
Proof.
  intros E. destruct function as [f|].
  - destruct (ir_rename_ok _ _ _ _ _ _ _ E) as [fn Ef].
    rewrite (ir_rename_in_function _ _ _ _ _ _ _ Ef) in E.
    destruct (function_at_get _ _ _ _ Ef) as (S & Es & Efn).
    cbn [first_hit] in E. unfold renamed_by.
    destruct (dict_get token (args fn)) as [n|] eqn:Ea.
    { right; right; right. exists struct, S, f, fn. intuition congruence. }
    destruct (dict_get token fields) as [n|] eqn:Efi;
      [right; left; congruence|].
    destruct (dict_get token methods) as [n|] eqn:Em;
      [right; right; left; congruence|].
    destruct (dict_get token (variables fn)) as [n|] eqn:Ev.
    { right; right; right. exists struct, S, f, fn. intuition congruence. }
    left. congruence.
  - rewrite ir_rename_top_level in E. cbn [first_hit] in E.
    unfold renamed_by.
    destruct (dict_get token fields) as [n|] eqn:Efi;
      [right; left; congruence|].
    destruct (dict_get token methods) as [n|] eqn:Em;
      [right; right; left; congruence|].
    left. congruence.
Qed.

Lemma ir_rename_raise (ir : structs string)
    (fields methods : dict string string) (struct function : option string)
    (token : string) (e : error) :
  ir_rename ir fields methods struct function token = Raise e ->
  e = KeyError.
Proof.
  intros E. destruct function as [f|].
  - destruct (function_at ir struct (Some f)) as [fn|e'] eqn:Ef.
    + rewrite (ir_rename_in_function _ _ _ _ _ _ _ Ef) in E. discriminate.
    + unfold ir_rename in E. cbn [is_some] in E. rewrite Ef in E.
      cbn [bind] in E. injection E as <-.
      exact (function_at_raise _ _ _ _ Ef).
  - rewrite ir_rename_top_level in E. discriminate.
Qed.

Lemma ir_loop_raise (ir : structs string) (fields methods : dict string string)
    (tokens : list string) (st : ir_state) (e : error) :
  ir_loop ir fields methods st tokens = Raise e -> e = KeyError.
Proof.
  revert st. induction tokens as [|t tokens IH]; intros st E;
    [discriminate|].
  cbn [ir_loop] in E. apply bind_raise in E as [E|([t' st'] & _ & E)].
  - unfold ir_step in E. apply bind_raise in E as [E|(x & _ & E)];
      [exact (ir_rename_raise _ _ _ _ _ _ _ E) | discriminate].
  - cbv zeta in E. apply bind_raise in E as [E|(x & _ & E)];
      [exact (IH _ E) | discriminate].
Qed.

Lemma ir_loop_images (ir : structs string)
    (fields methods : dict string string) (tokens : list string)
    (st : ir_state) (out : list string) :
  ir_loop ir fields methods st tokens = Ok out ->
  Forall2 (renamed_by ir fields methods) tokens out.
Proof.
  revert st out. induction tokens as [|t tokens IH]; intros st out E.
  - injection E as <-. constructor.
  - cbn [ir_loop] in E.
    destruct (ir_step ir fields methods st t) as [[t' st']|e] eqn:Es;
      [|discriminate].
    cbn [bind] in E.
    destruct (ir_loop ir fields methods st' tokens) as [out'|e] eqn:El;
      [|discriminate].
    cbn [bind] in E. injection E as <-. constructor; [|exact (IH _ _ El)].
    unfold ir_step in Es.
    destruct (ir_rename ir fields methods
                (ir_struct_name (ir_scope methods t st))
                (ir_function (ir_scope methods t st)) t) as [x|e] eqn:Er;
      [|discriminate].
    cbn [bind] in Es. injection Es as <- _.
    exact (ir_rename_image _ _ _ _ _ _ _ Er).
Qed.

(** X13. [to_ir] invents no name and loses no token: when it returns, the
    output has one token for each token of the input, in order, and each
    is the input token itself or the name one of the tables given to
    [to_ir] holds for it.  When it raises, it raises [KeyError]. *)
Theorem to_ir_images (tokens : list string) (ir : structs string)
    (fields methods : dict string string) :
  (forall out, to_ir tokens ir fields methods = Ok out ->
               List.length out = List.length tokens
               /\ Forall2 (renamed_by ir fields methods) tokens out)
  /\ (forall e, to_ir tokens ir fields methods = Raise e -> e = KeyError).
Proof.
  split.
  - intros out E. pose proof (ir_loop_images _ _ _ _ _ _ E) as H.
    split; [|exact H]. symmetry. exact (Forall2_length H).
  - intros e E. exact (ir_loop_raise _ _ _ _ _ _ E).
Qed.

Lemma ir_scope_no_function (methods : dict string string) (token : string)
    (st : ir_state) :
  ir_function st = None -> dict_mem token methods = false ->
  ir_function (ir_scope methods token st) = None.
Proof.
  intros Hf Hm. unfold ir_scope. rewrite Hf, Hm.
  cbn [is_some andb negb].
  rewrite andb_false_r.
  destruct (ir_entering_function st);
    destruct (is_some (ir_struct_name st)); reflexivity.
Qed.

Lemma ir_loop_no_function (ir : structs string)
    (fields methods : dict string string) (tokens : list string)
    (st : ir_state) :
  ir_function st = None ->
  Forall (fun t => dict_mem t methods = false) tokens ->
  ir_loop ir fields methods st tokens
  = Ok (map (first_hit [fields]) tokens).
Proof.
  revert st. induction tokens as [|t tokens IH]; intros st Hf H;
    [reflexivity|].
  inversion H as [|? ? Ht Hts]; subst.
  cbn [ir_loop]. unfold ir_step.
  pose proof (ir_scope_no_function methods t st Hf Ht) as Hf'.
  rewrite Hf', ir_rename_top_level. cbn [bind].
  rewrite IH; [|reflexivity | exact Hts].
  cbn [bind map first_hit].
  unfold dict_mem in Ht. destruct (dict_get t methods); [discriminate|].
  reflexivity.
Qed.

(** X14. On a stream in which no token is a key of [methods], [to_ir] never
    enters a function: it consults neither [ir] nor the scope, cannot
    raise, and renames exactly the tokens that are keys of [fields],
    wherever they stand. *)
Theorem to_ir_without_functions (tokens : list string) (ir : structs string)
    (fields methods : dict string string) :
  Forall (fun t => dict_mem t methods = false) tokens ->
  to_ir tokens ir fields methods = Ok (map (first_hit [fields]) tokens).
Proof. intros H. now apply ir_loop_no_function. Qed.

Lemma to_ir_without_functions_witness :
  let tokens := ["struct"; "P"; "{"; "int"; "x"; ";"; "}"; ";"; "x"] in
  let methods := [("f", "func0")] in
  Forall (fun t => dict_mem t methods = false) tokens
  /\ to_ir tokens [] [("x", "field0")] methods
     = Ok (map (first_hit [[("x", "field0")]]) tokens).
Proof.
  cbv zeta.
  assert (H : Forall (fun t => dict_mem t [("f", "func0")] = false)
                ["struct"; "P"; "{"; "int"; "x"; ";"; "}"; ";"; "x"])
    by (repeat constructor).
  exact (conj H (to_ir_without_functions _ [] [("x", "field0")] _ H)).
Defined.

Lemma to_ir_images_witness :
  let tokens :=
    ["int"; "f"; "("; "int"; "a"; ")"; "{"; "return"; "a"; ";"; "}"] in
  let ir :=
    [(None, mkStruct "struct0" []
              [("f", mkFunction [("a", "arg0")] [])] [])] in
  let methods := [("f", "func0")] in
  let out :=
    ["int"; "func0"; "("; "int"; "arg0"; ")"; "{"; "return"; "arg0"; ";";
     "}"] in
  to_ir tokens ir [] methods = Ok out
  /\ List.length out = List.length tokens
  /\ Forall2 (renamed_by ir [] methods) tokens out.
Proof.
  cbv zeta.
  assert (E : to_ir
                ["int"; "f"; "("; "int"; "a"; ")"; "{"; "return"; "a"; ";";
                 "}"]
                [(None, mkStruct "struct0" []
                          [("f", mkFunction [("a", "arg0")] [])] [])]
                [] [("f", "func0")]
              = Ok ["int"; "func0"; "("; "int"; "arg0"; ")"; "{"; "return";
                    "arg0"; ";"; "}"])
    by (vm_compute; reflexivity).
  exact (conj E (proj1 (to_ir_images _ _ _ _) _ E)).
Defined.

(** ** How [minify] ends *)

Lemma ir_stream_steps (content : string) (grouped : list string)
    (structinfo : structs nat) (ir : structs string)
    (fields methods : dict string string) :
  group (fetch_tokens content) = Ok grouped ->
  get_stats (strip grouped) = Ok structinfo ->
  get_ir_renames structinfo = Ok (ir, fields, methods) ->
  ir_stream content = to_ir (strip grouped) ir fields methods.
Proof.
  intros Eg Es Er. unfold ir_stream. rewrite Eg. cbn [bind].
  rewrite Es. cbn [bind]. rewrite Er. reflexivity.
Qed.

(** X15. Where [minify] can fail, with its calls to the environment: the
    passes of [group] always terminate on the tokens of a text, and then
    [minify] raises the [IndexError] of [get_stats], or a [KeyError] of
    [get_stats] or of [to_ir]; or a call to the environment raises, which
    is [print_stats] after [get_stats] when [verbose] is set, the write of
    [plir.cpp] after [to_ir], or the write of [pytteliten-mini.cpp] after
    the final stage; or it returns, both writes having returned.
    [get_ir_renames] and the final renaming raise nothing. *)
Theorem minify_errors {E : Type} (env : environment E) (content : string)
    (verbose : bool) :
  exists grouped,
    group (fetch_tokens content) = Ok grouped
    /\ match minify_io env content verbose with
       | Raises e =>
           (e = IndexError /\ get_stats (strip grouped) = Raise IndexError)
           \/ (e = KeyError
               /\ (get_stats (strip grouped) = Raise KeyError
                   \/ exists structinfo ir fields methods,
                        get_stats (strip grouped) = Ok structinfo
                        /\ (verbose = true ->
                            print_stats env structinfo = None)
                        /\ get_ir_renames structinfo
                           = Ok (ir, fields, methods)
                        /\ to_ir (strip grouped) ir fields methods
                           = Raise KeyError))
       | Fails e =>
           exists structinfo,
             get_stats (strip grouped) = Ok structinfo
             /\ ((verbose = true /\ print_stats env structinfo = Some e)
                 \/ ((verbose = true -> print_stats env structinfo = None)
                     /\ exists tokens,
                          ir_stream content = Ok tokens
                          /\ let plir := join (ir_tokens None tokens) in
                             write env "plir.cpp" plir = Some e
                             \/ (write env "plir.cpp" plir = None
                                 /\ exists mini,
                                      minify content = Ok (plir, mini)
                                      /\ write env "pytteliten-mini.cpp" mini
                                         = Some e)))
       | Returns plir mini =>
           minify content = Ok (plir, mini)
           /\ write env "plir.cpp" plir = None
           /\ write env "pytteliten-mini.cpp" mini = None
       end.
Proof.
  destruct (group_total (fetch_tokens content)) as (grouped & Eg & _).
  exists grouped. split; [exact Eg|].
  unfold minify_io. rewrite Eg. cbv zeta.
  destruct (get_stats (strip grouped)) as [structinfo|e] eqn:Es.
  2:{ destruct (get_stats_raise _ _ Es) as [_ [->|[-> _]]]; auto. }
  assert (Hp : forall o : option E,
            (if verbose then print_stats env structinfo else None) = o ->
            match o with
            | Some e => verbose = true /\ print_stats env structinfo = Some e
            | None => verbose = true -> print_stats env structinfo = None
            end).
  { intros o <-. destruct verbose; [|discriminate].
    destruct (print_stats env structinfo); auto. }
  destruct (if verbose then print_stats env structinfo else None)
    as [e|] eqn:Ep; specialize (Hp _ eq_refl).
  { exists structinfo. split; [reflexivity|]. now left. }
  destruct (get_ir_renames_total structinfo (get_stats_wf _ _ Es))
    as (ir & fields & methods & Er).
  rewrite Er.
  pose proof (ir_stream_steps content grouped structinfo ir fields methods
                Eg Es Er) as Hir.
  destruct (to_ir (strip grouped) ir fields methods) as [tokens|e] eqn:Et.
  2:{ pose proof (ir_loop_raise _ _ _ _ _ _ Et) as ->. right.
      split; [reflexivity|]. right.
      exists structinfo, ir, fields, methods. auto. }
  destruct (minify_after_ir content tokens Hir) as (mini & Em & Emin).
  rewrite Em.
  destruct (write env "plir.cpp" (join (ir_tokens None tokens)))
    as [e|] eqn:Ew1.
  { exists structinfo. split; [reflexivity|]. right. split; [exact Hp|].
    exists tokens. split; [exact Hir|]. cbv zeta. now left. }
  destruct (write env "pytteliten-mini.cpp" mini) as [e|] eqn:Ew2.
  { exists structinfo. split; [reflexivity|]. right. split; [exact Hp|].
    exists tokens. split; [exact Hir|]. cbv zeta. right.
    split; [exact Ew1|]. exists mini. auto. }
  auto.
Qed.

Lemma minify_errors_witness :
  let env : environment string :=
    mkEnvironment (fun _ => None)
      (fun path _ =>
         if String.eqb path "pytteliten-mini.cpp" then Some "OSError"
         else None) in
  let content := "int x;" in
  minify_io env content false = Fails "OSError"
  /\ minify content = Ok ("int x;", "int A;")
  /\ exists grouped,
       group (fetch_tokens content) = Ok grouped
       /\ match minify_io env content false with
          | Raises e =>
              (e = IndexError
               /\ get_stats (strip grouped) = Raise IndexError)
              \/ (e = KeyError
                  /\ (get_stats (strip grouped) = Raise KeyError
                      \/ exists structinfo ir fields methods,
                           get_stats (strip grouped) = Ok structinfo
                           /\ (false = true ->
                               print_stats env structinfo = None)
                           /\ get_ir_renames structinfo
                              = Ok (ir, fields, methods)
                           /\ to_ir (strip grouped) ir fields methods
                              = Raise KeyError))
          | Fails e =>
              exists structinfo,
                get_stats (strip grouped) = Ok structinfo
                /\ ((false = true /\ print_stats env structinfo = Some e)
                    \/ ((false = true -> print_stats env structinfo = None)
                        /\ exists tokens,
                             ir_stream content = Ok tokens
                             /\ let plir := join (ir_tokens None tokens) in
                                write env "plir.cpp" plir = Some e
                                \/ (write env "plir.cpp" plir = None
                                    /\ exists mini,
                                         minify content = Ok (plir, mini)
                                         /\ write env "pytteliten-mini.cpp"
                                              mini
                                            = Some e)))
          | Returns plir mini =>
              minify content = Ok (plir, mini)
              /\ write env "plir.cpp" plir = None
              /\ write env "pytteliten-mini.cpp" mini = None
          end.
Proof.
  cbv zeta.
  set (env := mkEnvironment (fun _ : structs nat => @None string)
                (fun path _ : string =>
                   if String.eqb path "pytteliten-mini.cpp"
                   then Some "OSError" else None)).
  assert (E1 : minify_io env "int x;" false = Fails "OSError")
    by (vm_compute; reflexivity).
  assert (E2 : minify "int x;" = Ok ("int x;", "int A;"))
    by (vm_compute; reflexivity).
  exact (conj E1 (conj E2 (minify_errors env "int x;" false))).
Defined.

(** ** The names of the intermediate representation *)

Lemma number_from_other (prefix : string) (keys : list string) (y : nat)
    (d : dict string string) (k : string) :
  ~ In k keys -> dict_get k (number_from prefix y keys d) = dict_get k d.
Proof.
  revert y d. induction keys as [|k0 keys IH]; intros y d Hn; [reflexivity|].
  cbn [number_from]. rewrite IH by (intros Hin; apply Hn; now right).
  apply dict_get_set_neq. intros ->. apply Hn. now left.
Qed.

Lemma number_from_nth (prefix : string) (keys : list string) (y : nat)
    (d : dict string string) (p : nat) (k : string) :
  NoDup keys -> nth_error keys p = Some k ->
  dict_get k (number_from prefix y keys d)
  = Some (prefix ++ str (y + p))%string.
Proof.
  revert y d p. induction keys as [|k0 keys IH]; intros y d p Hnd Hp.
  - destruct p; discriminate.
  - inversion Hnd as [|? ? Hk Hnd']; subst. cbn [number_from].
    destruct p as [|p].
    + injection Hp as ->. rewrite number_from_other by assumption.
      rewrite Nat.add_0_r. apply dict_get_set_eq.
    + cbn [nth_error] in Hp. rewrite (IH (S y) _ p Hnd' Hp).
      replace (S y + p) with (y + S p) by lia. reflexivity.
Qed.

Lemma number_from_ranked (prefix : string) (d : dict string nat) :
  NoDup (dict_keys d) ->
  ranked prefix d (number_from prefix 0 (dict_keys (sort_dict d)) []).
Proof.
  intros Hnd p k Hp.
  exact (number_from_nth prefix _ 0 [] p k (sort_dict_NoDup d Hnd) Hp).
Qed.

Lemma ranked_by_use (prefix : string) (d : dict string nat)
    (d' : dict string string) (a b : string) (na nb : nat) :
  NoDup (dict_keys d) -> ranked prefix d d' ->
  dict_get a d = Some na -> dict_get b d = Some nb -> nb < na ->
  exists p q, p < q
              /\ dict_get a d' = Some (prefix ++ str p)%string
              /\ dict_get b d' = Some (prefix ++ str q)%string.
Proof.
  intros Hnd Hr Ha Hb Hlt.
  destruct (before_nth_error _ _ _ (sort_dict_before d a b na nb Hnd Ha Hb Hlt))
    as (p & q & Hpq & Hp & Hq).
  exists p, q. split; [assumption|]. split; apply Hr; assumption.
Qed.

Lemma ir_functions_other (struct : option string)
    (funcs : dict string (Function nat)) (x : nat)
    (own : dict string (Function string)) (methods : dict string string)
    (f : string) :
  ~ In f (dict_keys funcs) ->
  dict_get f (fst (ir_functions struct x funcs own methods)) = dict_get f own.
Proof.
  revert x own methods.
  induction funcs as [|[g gn] funcs IH]; intros x own methods Hn;
    [reflexivity|].
  cbn [ir_functions]; cbv zeta.
  rewrite IH by (intros Hin; apply Hn; now right).
  apply dict_get_set_neq. intros ->. apply Hn. now left.
Qed.

Lemma ir_functions_get (struct : option string)
    (funcs : dict string (Function nat)) (x : nat)
    (own : dict string (Function string)) (methods : dict string string)
    (f : string) (fn : Function nat) :
  NoDup (dict_keys funcs) -> dict_get f funcs = Some fn ->
  dict_get f (fst (ir_functions struct x funcs own methods))
  = Some (mkFunction
            (number_from "arg" 0 (dict_keys (sort_dict (args fn))) [])
            (number_from "var" 0 (dict_keys (sort_dict (variables fn))) [])).
Proof.
  revert x own methods.
  induction funcs as [|[g gn] funcs IH]; intros x own methods Hnd Hf;
    [discriminate|].
  cbn [dict_keys map fst] in Hnd. inversion Hnd as [|? ? Hg Hnd']; subst.
  cbn [ir_functions]; cbv zeta. cbn [dict_get] in Hf.
  destruct (eqb_spec f g) as [->|Hne].
  - injection Hf as ->. rewrite ir_functions_other by exact Hg.
    apply dict_get_set_eq.
  - apply IH; assumption.
Qed.

Lemma ir_struct_eq (i : nat) (struct : option string) (s : Struct nat)
    (r : renames) :
  let F := ir_fields 0 (dict_keys (sort_dict (fields s))) []
             (ir_field_pool r) in
  let G := ir_functions struct 0 (functions s) [] (ir_methods r) in
  ir_struct i struct s r
  = mkRenames
      (dict_set struct
         (mkStruct ("struct" ++ str i)%string (fst F) (fst G) []) (ir r))
      (snd F) (snd G)
      (fold_left (fun used func => set_add func used) (top_lvl_used s)
         (ir_top_lvl_used r)).
Proof.
  cbv zeta. unfold ir_struct.
  destruct (ir_fields 0 (dict_keys (sort_dict (fields s))) []
              (ir_field_pool r)).
  destruct (ir_functions struct 0 (functions s) [] (ir_methods r)).
  reflexivity.
Qed.

Lemma ir_structs_other (info : structs nat) (i : nat) (r : renames)
    (s : option string) :
  ~ In s (dict_keys info) ->
  dict_get s (ir (ir_structs i info r)) = dict_get s (ir r).
Proof.
  revert i r. induction info as [|[s0 S0] info IH]; intros i r Hn;
    [reflexivity|].
  cbn [ir_structs]. rewrite IH by (intros Hin; apply Hn; now right).
  rewrite ir_struct_eq. cbn [ir].
  apply dict_get_set_neq. intros ->. apply Hn. now left.
Qed.

(** The record a struct has in [ir] is the one written for it by its turn
    of the loop of line 299. *)
Lemma ir_structs_record (P : Struct string -> Prop) (info : structs nat)
    (i : nat) (r : renames) (s : option string) (S : Struct nat) :
  NoDup (dict_keys info) -> dict_get s info = Some S ->
  (forall i r, exists S', dict_get s (ir (ir_struct i s S r)) = Some S'
                          /\ P S') ->
  exists S', dict_get s (ir (ir_structs i info r)) = Some S' /\ P S'.
Proof.
  intros Hnd Hs HP. revert i r.
  induction info as [|[s0 S0] info IH]; intros i r; [discriminate|].
  cbn [dict_keys map fst] in Hnd. inversion Hnd as [|? ? Hk Hnd']; subst.
  cbn [ir_structs]. cbn [dict_get] in Hs.
  destruct (eqb_spec s s0) as [->|Hne].
  - injection Hs as ->. rewrite ir_structs_other by exact Hk. apply HP.
  - apply IH; assumption.
Qed.

Lemma get_ir_renames_ir (structinfo : structs nat) (ir0 : structs string)
    (pool methods : dict string string) :
  get_ir_renames structinfo = Ok (ir0, pool, methods) ->
  ir0 = ir (ir_structs 0 structinfo (mkRenames [] [] [] []))
  /\ pool = ir_field_pool (ir_structs 0 structinfo (mkRenames [] [] [] [])).
Proof.
  unfold get_ir_renames. cbv zeta.
  destruct (dict_at None structinfo); [|discriminate].
  cbn [bind]. intros [= <- <- _]. split; reflexivity.
Qed.

(** X16. The arguments and the local variables of a function are named by
    rank of use: in the record [to_ir] looks up for the function, the
    argument at position [p] of the arguments sorted by descending count is
    [arg{p}], the local variable at position [p] is [var{p}], and an
    argument counted more often than another has the smaller number. *)
Theorem ir_argument_names (structinfo : structs nat) (ir0 : structs string)
    (pool methods : dict string string) (s : option string) (S : Struct nat)
    (f : string) (fn : Function nat) :
  wf_info structinfo ->
  get_ir_renames structinfo = Ok (ir0, pool, methods) ->
  dict_get s structinfo = Some S ->
  dict_get f (functions S) = Some fn ->
  NoDup (dict_keys (args fn)) -> NoDup (dict_keys (variables fn)) ->
  exists fn',
    function_at ir0 s (Some f) = Ok fn'
    /\ ranked "arg" (args fn) (args fn')
    /\ ranked "var" (variables fn) (variables fn')
    /\ (forall a b na nb,
          dict_get a (args fn) = Some na -> dict_get b (args fn) = Some nb ->
          nb < na ->
          exists p q, p < q
                      /\ dict_get a (args fn') = Some ("arg" ++ str p)%string
                      /\ dict_get b (args fn') = Some ("arg" ++ str q)%string).
Proof.
  intros (Hnd & Hfs & _) E Hs Hf Ha Hv.
  destruct (get_ir_renames_ir _ _ _ _ E) as [-> _].
  pose proof (dict_all_get _ _ _ _ Hfs Hs) as HndS. cbv beta in HndS.
  set (fn' := mkFunction
                (number_from "arg" 0 (dict_keys (sort_dict (args fn))) [])
                (number_from "var" 0 (dict_keys (sort_dict (variables fn)))
                   [])).
  destruct (ir_structs_record
              (fun S' => dict_get f (functions S') = Some fn')
              structinfo 0 (mkRenames [] [] [] []) s S Hnd Hs)
    as (S' & Es & Ef).
  { intros i r. rewrite ir_struct_eq. cbn [ir]. eexists.
    split; [apply dict_get_set_eq|]. cbn [functions].
    now apply ir_functions_get. }
  exists fn'. split.
  - unfold function_at, dict_at. rewrite Es. cbn [of_option bind].
    now rewrite Ef.
  - assert (Hra : ranked "arg" (args fn) (args fn'))
      by exact (number_from_ranked "arg" (args fn) Ha).
    split; [exact Hra|]. split.
    + exact (number_from_ranked "var" (variables fn) Hv).
    + intros a b na nb. exact (ranked_by_use "arg" _ _ a b na nb Ha Hra).
Qed.

Lemma ir_argument_names_witness :
  let tokens :=
    ["int"; "f"; "("; "int"; "a"; ","; "int"; "b"; ")"; "{";
     "int"; "v"; "="; "b"; "+"; "b"; ";"; "return"; "v"; "+"; "a"; ";"; "}"] in
  let fn : Function nat := mkFunction [("a", 3); ("b", 4)] [("v", 2)] in
  let top : Struct nat := mkStruct "Top Level" [] [("f", fn)] [] in
  let structinfo : structs nat := [(None, top)] in
  let fn' : Function string :=
    mkFunction [("b", "arg0"); ("a", "arg1")] [("v", "var0")] in
  let ir0 : structs string :=
    [(None, mkStruct "struct0" [] [("f", fn')] [])] in
  get_stats tokens = Ok structinfo
  /\ get_ir_renames structinfo = Ok (ir0, [], [("f", "func0")])
  /\ exists fn'',
       function_at ir0 None (Some "f") = Ok fn''
       /\ ranked "arg" (args fn) (args fn'')
       /\ ranked "var" (variables fn) (variables fn'')
       /\ (forall a b na nb,
             dict_get a (args fn) = Some na ->
             dict_get b (args fn) = Some nb ->
             nb < na ->
             exists p q,
               p < q
               /\ dict_get a (args fn'') = Some ("arg" ++ str p)%string
               /\ dict_get b (args fn'') = Some ("arg" ++ str q)%string).
Proof.
  cbv zeta.
  set (fn := mkFunction [("a", 3); ("b", 4)] [("v", 2)]).
  set (top := mkStruct "Top Level" [] [("f", fn)] []).
  set (structinfo := [(@None string, top)]).
  set (tokens :=
    ["int"; "f"; "("; "int"; "a"; ","; "int"; "b"; ")"; "{";
     "int"; "v"; "="; "b"; "+"; "b"; ";"; "return"; "v"; "+"; "a"; ";"; "}"]).
  assert (Hstats : get_stats tokens = Ok structinfo)
    by (vm_compute; reflexivity).
  assert (Hir : get_ir_renames structinfo
                = Ok ([(None,
                        mkStruct "struct0" []
                          [("f", mkFunction [("b", "arg0"); ("a", "arg1")]
                                   [("v", "var0")])] [])],
                      [], [("f", "func0")]))
    by (vm_compute; reflexivity).
  assert (Ha : NoDup (dict_keys (args fn)))
    by (repeat constructor; simpl; intuition discriminate).
  assert (Hv : NoDup (dict_keys (variables fn)))
    by (repeat constructor; simpl; intuition discriminate).
  exact (conj Hstats
           (conj Hir
              (ir_argument_names structinfo _ _ _ None top "f" fn
                 (get_stats_wf tokens structinfo Hstats) Hir
                 eq_refl eq_refl Ha Hv))).
Defined.

(** *** The pool of field names *)

Lemma ir_fields_pool (sf : list string) (j : nat)
    (own pool : dict string string) :
  let R := ir_fields j sf own pool in
  (forall x n, dict_get x pool = Some n -> dict_get x (snd R) = Some n)
  /\ ((forall x n, dict_get x own = Some n -> dict_get x pool = Some n) ->
      forall x n, dict_get x (fst R) = Some n -> dict_get x (snd R) = Some n)
  /\ (forall x, dict_mem x own = true -> dict_mem x (fst R) = true)
  /\ (forall x, In x sf -> dict_mem x (fst R) = true).
Proof.
  cbv zeta. revert j own pool.
  induction sf as [|field sf IH]; intros j own pool.
  - cbn [ir_fields fst snd].
    split; [auto|]. split; [auto|]. split; [auto|]. intros x [].
  - cbn [ir_fields].
    assert (Hset : forall v x, dict_mem x own = true ->
                               dict_mem x (dict_set field v own) = true).
    { intros v x Hx. apply dict_mem_keys. rewrite dict_keys_set.
      apply dict_mem_keys in Hx.
      destruct (dict_mem field own); [assumption|].
      apply in_or_app. now left. }
    assert (Hnew : forall v, dict_mem field (dict_set field v own) = true).
    { intros v. unfold dict_mem. now rewrite dict_get_set_eq. }
    destruct (dict_get field pool) as [n0|] eqn:Ep.
    + destruct (IH j (dict_set field n0 own) pool) as (H1 & H2 & H3 & H4).
      split; [exact H1|]. split; [|split].
      * intros Hag. apply H2. intros x n Hx.
        destruct (string_dec field x) as [<-|Hne].
        -- rewrite dict_get_set_eq in Hx. congruence.
        -- rewrite dict_get_set_neq in Hx by exact Hne. now apply Hag.
      * intros x Hx. apply H3. now apply Hset.
      * intros x [<-|Hx]; [apply H3, Hnew | now apply H4].
    + cbv zeta.
      destruct (IH (S j) (dict_set field ("field" ++ str j)%string own)
                  (dict_set field ("field" ++ str j)%string pool))
        as (H1 & H2 & H3 & H4).
      split; [|split; [|split]].
      * intros x n Hx. apply H1.
        rewrite dict_get_set_neq; [exact Hx|]. intros <-. congruence.
      * intros Hag. apply H2. intros x n Hx.
        destruct (string_dec field x) as [<-|Hne].
        -- rewrite dict_get_set_eq in Hx |- *. exact Hx.
        -- rewrite dict_get_set_neq in Hx |- * by exact Hne. now apply Hag.
      * intros x Hx. apply H3. now apply Hset.
      * intros x [<-|Hx]; [apply H3, Hnew | now apply H4].
Qed.

(** Every field table of [ir] agrees with the pool. *)
Lemma ir_structs_agree (info : structs nat) (i : nat) (r : renames) :
  (forall s S' x n,
     dict_get s (ir r) = Some S' -> dict_get x (fields S') = Some n ->
     dict_get x (ir_field_pool r) = Some n) ->
  forall s S' x n,
    dict_get s (ir (ir_structs i info r)) = Some S' ->
    dict_get x (fields S') = Some n ->
    dict_get x (ir_field_pool (ir_structs i info r)) = Some n.
Proof.
  revert i r. induction info as [|[s0 S0] info IH]; intros i r Hinv;
    [exact Hinv|].
  cbn [ir_structs]. apply IH. clear IH.
  rewrite ir_struct_eq. cbn [ir ir_field_pool].
  destruct (ir_fields_pool (dict_keys (sort_dict (fields S0))) 0 []
              (ir_field_pool r)) as (H1 & H2 & _ & _).
  cbv zeta in H1, H2.
  intros s S' x n Es Ex.
  destruct (eqb_spec s0 s) as [<-|Hne].
  - rewrite dict_get_set_eq in Es. injection Es as <-. cbn [fields] in Ex.
    apply H2; [|exact Ex]. intros y m Hy. discriminate.
  - rewrite dict_get_set_neq in Es by exact Hne.
    apply H1. exact (Hinv _ _ _ _ Es Ex).
Qed.

(** X17. Field names form one pool: when [get_ir_renames] returns, the
    name a struct's record in [ir] holds for a field is the name the global
    table [fields] holds for it, and every field the analyzer recorded for
    a struct has a name in both. *)
Theorem ir_field_pool_shared (structinfo : structs nat)
    (ir0 : structs string) (pool methods : dict string string) :
  get_ir_renames structinfo = Ok (ir0, pool, methods) ->
  (forall s S' x n,
     dict_get s ir0 = Some S' -> dict_get x (fields S') = Some n ->
     dict_get x pool = Some n)
  /\ (NoDup (dict_keys structinfo) ->
      forall s S x,
        dict_get s structinfo = Some S -> dict_mem x (fields S) = true ->
        exists S' n, dict_get s ir0 = Some S'
                     /\ dict_get x (fields S') = Some n
                     /\ dict_get x pool = Some n).
Proof.
  intros E. destruct (get_ir_renames_ir _ _ _ _ E) as [-> ->].
  assert (Hag : forall s S' x n,
            dict_get s (ir (ir_structs 0 structinfo (mkRenames [] [] [] [])))
            = Some S' ->
            dict_get x (fields S') = Some n ->
            dict_get x
              (ir_field_pool
                 (ir_structs 0 structinfo (mkRenames [] [] [] [])))
            = Some n).
  { apply ir_structs_agree. intros s S' x n Hs. discriminate. }
  split; [exact Hag|].
  intros Hnd s S x Hs Hx.
  destruct (ir_structs_record
              (fun S' => dict_mem x (fields S') = true)
              structinfo 0 (mkRenames [] [] [] []) s S Hnd Hs)
    as (S' & Es & Ex).
  { intros i r. rewrite ir_struct_eq. cbn [ir]. eexists.
    split; [apply dict_get_set_eq|]. cbn [fields].
    apply ir_fields_pool.
    apply (Permutation_in _ (Permutation_sym (sort_dict_keys_perm _))).
    now apply dict_mem_keys. }
  unfold dict_mem in Ex.
  destruct (dict_get x (fields S')) as [n|] eqn:En; [|discriminate].
  exists S', n. split; [exact Es|]. split; [exact En|].
  exact (Hag _ _ _ _ Es En).
Qed.

Lemma ir_field_pool_shared_witness :
  let structinfo : structs nat :=
    [(None, mkStruct "Top Level" [] [] []);
     (Some "A", mkStruct "A" [("x", 2); ("y", 5)] [] []);
     (Some "B", mkStruct "B" [("y", 3)] [] [])] in
  let ir0 : structs string :=
    [(None, mkStruct "struct0" [] [] []);
     (Some "A", mkStruct "struct1" [("y", "field0"); ("x", "field1")] [] []);
     (Some "B", mkStruct "struct2" [("y", "field0")] [] [])] in
  let pool := [("y", "field0"); ("x", "field1")] in
  get_ir_renames structinfo = Ok (ir0, pool, [])
  /\ (forall s S' x n,
        dict_get s ir0 = Some S' -> dict_get x (fields S') = Some n ->
        dict_get x pool = Some n)
  /\ (NoDup (dict_keys structinfo) ->
      forall s S x,
        dict_get s structinfo = Some S -> dict_mem x (fields S) = true ->
        exists S' n, dict_get s ir0 = Some S'
                     /\ dict_get x (fields S') = Some n
                     /\ dict_get x pool = Some n).
Proof.
  cbv zeta.
  assert (E : get_ir_renames
                [(None, mkStruct "Top Level" [] [] []);
                 (Some "A", mkStruct "A" [("x", 2); ("y", 5)] [] []);
                 (Some "B", mkStruct "B" [("y", 3)] [] [])]
              = Ok ([(None, mkStruct "struct0" [] [] []);
                     (Some "A",
                      mkStruct "struct1" [("y", "field0"); ("x", "field1")]
                        [] []);
                     (Some "B", mkStruct "struct2" [("y", "field0")] [] [])],
                    [("y", "field0"); ("x", "field1")], []))
    by (vm_compute; reflexivity).
  exact (conj E (ir_field_pool_shared _ _ _ _ E)).
Defined.

Lemma ir_fields_keep (sf : list string) (j : nat)
    (own pool : dict string string) (y v : string) :
  dict_get y own = Some v -> dict_get y pool = Some v ->
  dict_get y (fst (ir_fields j sf own pool)) = Some v.
Proof.
  revert j own pool. induction sf as [|field sf IH]; intros j own pool Ho Hp;
    [exact Ho|].
  cbn [ir_fields].
  destruct (string_dec field y) as [->|Hne].
  - rewrite Hp. apply IH; [apply dict_get_set_eq | exact Hp].
  - destruct (dict_get field pool) as [n0|]; cbv zeta; apply IH;
      rewrite ?dict_get_set_neq by exact Hne; assumption.
Qed.

Lemma ir_fields_first_new (pre : list string) (y : string)
    (rest : list string) (j : nat) (own pool : dict string string) :
  Forall (fun x => dict_mem x pool = true) pre ->
  dict_get y pool = None ->
  let R := ir_fields j (pre ++ y :: rest) own pool in
  dict_get y (fst R) = Some ("field" ++ str j)%string
  /\ dict_get y (snd R) = Some ("field" ++ str j)%string.
Proof.
  cbv zeta. intros Hpre Hy. revert own.
  induction pre as [|x pre IH]; intros own.
  - cbn [app ir_fields]. rewrite Hy. cbv zeta. split.
    + apply ir_fields_keep; apply dict_get_set_eq.
    + destruct (ir_fields_pool rest (S j)
                  (dict_set y ("field" ++ str j)%string own)
                  (dict_set y ("field" ++ str j)%string pool))
        as (H1 & _).
      apply H1. apply dict_get_set_eq.
  - inversion Hpre as [|? ? Hx Hpre']; subst.
    cbn [app ir_fields]. unfold dict_mem in Hx.
    destruct (dict_get x pool) as [n|]; [|discriminate].
    now apply IH.
Qed.

(** X18. The numbering of field names restarts in every struct: the first
    field of a struct, in descending order of count, that is not yet in the
    pool is named [field0], whatever names the pool already holds, and the
    fields before it keep their names of the pool.  So a field that an
    earlier struct named [field0] and a new field of the same struct share
    one name. *)
Theorem ir_struct_restarts_fields (i : nat) (struct : option string)
    (s : Struct nat) (r : renames) (pre : list string) (y : string)
    (rest : list string) :
  dict_keys (sort_dict (fields s)) = pre ++ y :: rest ->
  Forall (fun x => dict_mem x (ir_field_pool r) = true) pre ->
  dict_get y (ir_field_pool r) = None ->
  let r' := ir_struct i struct s r in
  dict_get y (ir_field_pool r') = Some "field0"
  /\ exists S',
       dict_get struct (ir r') = Some S'
       /\ dict_get y (fields S') = Some "field0"
       /\ forall x, In x pre ->
                    dict_get x (fields S') = dict_get x (ir_field_pool r).
Proof.
  intros Hk Hpre Hy. cbv zeta. rewrite ir_struct_eq.
  cbn [ir ir_field_pool]. rewrite Hk.
  destruct (ir_fields_first_new pre y rest 0 [] (ir_field_pool r) Hpre Hy)
    as [Hf Hs]. cbv zeta in Hf, Hs.
  split; [exact Hs|]. eexists. split; [apply dict_get_set_eq|].
  cbn [fields]. split; [exact Hf|].
  intros x Hx.
  destruct (ir_fields_pool (pre ++ y :: rest) 0 [] (ir_field_pool r))
    as (H1 & H2 & _ & H4). cbv zeta in H1, H2, H4.
  assert (Hin : In x (pre ++ y :: rest)) by (apply in_or_app; now left).
  specialize (H4 x Hin). unfold dict_mem in H4.
  destruct (dict_get x (fst (ir_fields 0 (pre ++ y :: rest) []
                               (ir_field_pool r)))) as [n|] eqn:En;
    [|discriminate].
  assert (Hn : dict_get x (snd (ir_fields 0 (pre ++ y :: rest) []
                                  (ir_field_pool r))) = Some n).
  { apply H2; [|exact En]. intros z m Hz. discriminate. }
  rewrite Forall_forall in Hpre. specialize (Hpre x Hx).
  unfold dict_mem in Hpre.
  destruct (dict_get x (ir_field_pool r)) as [m|] eqn:Em; [|discriminate].
  rewrite (H1 x m Em) in Hn. congruence.
Qed.

Lemma ir_struct_restarts_fields_witness :
  let s : Struct nat := mkStruct "B" [("a", 2); ("b", 2)] [] [] in
  let r : renames :=
    ir_struct 1 (Some "A") (mkStruct "A" [("a", 2)] [] [])
      (ir_struct 0 None (mkStruct "Top Level" [] [] [])
         (mkRenames [] [] [] [])) in
  let r' := ir_struct 2 (Some "B") s r in
  dict_keys (sort_dict (fields s)) = ["a"] ++ "b" :: []
  /\ Forall (fun x => dict_mem x (ir_field_pool r) = true) ["a"]
  /\ dict_get "a" (ir_field_pool r) = Some "field0"
  /\ dict_get "b" (ir_field_pool r) = None
  /\ dict_get "b" (ir_field_pool r') = Some "field0"
  /\ exists S',
       dict_get (Some "B") (ir r') = Some S'
       /\ dict_get "b" (fields S') = Some "field0"
       /\ forall x, In x ["a"] ->
                    dict_get x (fields S') = dict_get x (ir_field_pool r).
Proof.
  cbv zeta.
  set (s := mkStruct "B" [("a", 2); ("b", 2)] [] []).
  set (r := ir_struct 1 (Some "A") (mkStruct "A" [("a", 2)] [] [])
              (ir_struct 0 None (mkStruct "Top Level" [] [] [])
                 (mkRenames [] [] [] []))).
  assert (Hk : dict_keys (sort_dict (fields s)) = ["a"] ++ "b" :: [])
    by reflexivity.
  assert (Hpre : Forall (fun x => dict_mem x (ir_field_pool r) = true) ["a"])
    by (repeat constructor).
  assert (Ha : dict_get "a" (ir_field_pool r) = Some "field0")
    by reflexivity.
  assert (Hb : dict_get "b" (ir_field_pool r) = None) by reflexivity.
  exact (conj Hk
           (conj Hpre
              (conj Ha
                 (conj Hb
                    (ir_struct_restarts_fields 2 (Some "B") s r ["a"] "b" []
                       Hk Hpre Hb))))).
Defined.

(** ** The least counts of the analyzer *)

Lemma dict_set_set {K V : Type} `{Eqb K} (k : K) (v1 v2 : V) (d : dict K V) :
  dict_set k v2 (dict_set k v1 d) = dict_set k v2 d.
Proof.
  induction d as [|[k' v'] d IH]; cbn [dict_set].
  - now rewrite eqb_refl.
  - destruct (eqb_spec k k') as [->|Hne]; cbn [dict_set].
    + now rewrite eqb_refl.
    + rewrite (eqb_neq _ _ Hne). now rewrite IH.
Qed.

Lemma counted_nil (m : nat) : counted m [].
Proof. intros k v. discriminate. Qed.

Lemma counted_set (m : nat) (k : string) (v : nat) (d : dict string nat) :
  counted m d -> m <= v -> counted m (dict_set k v d).
Proof.
  intros Hd Hv x n Hx. destruct (string_dec k x) as [<-|Hne].
  - rewrite dict_get_set_eq in Hx. congruence.
  - rewrite dict_get_set_neq in Hx by exact Hne. exact (Hd _ _ Hx).
Qed.

Lemma counted_increment (m : nat) (k : string) (d : dict string nat) :
  counted m d -> counted m (increment k d).
Proof.
  intros Hd. unfold increment.
  destruct (dict_get k d) as [n|] eqn:E; [|assumption].
  apply counted_set; [assumption|]. specialize (Hd _ _ E). lia.
Qed.

(** A declaration followed by the count of the same token. *)
Lemma counted_declared (k : string) (d : dict string nat) :
  counted 2 d -> counted 2 (increment k (dict_set k 1 d)).
Proof.
  intros Hd. unfold increment. rewrite dict_get_set_eq, dict_set_set.
  now apply counted_set.
Qed.

Lemma update_struct_get {V : Type} (info info' : structs V)
    (s : option string) (upd : Struct V -> Struct V) :
  update_struct info s upd = Ok info' ->
  exists S, dict_get s info = Some S /\ info' = dict_set s (upd S) info.
Proof.
  unfold update_struct, dict_at. destruct (dict_get s info) as [S|] eqn:Es;
    [|discriminate].
  cbn [of_option bind]. intros [= <-]. eauto.
Qed.

Lemma update_function_get {V : Type} (info info' : structs V)
    (s f : option string) (upd : Function V -> Function V) :
  update_function info s f upd = Ok info' ->
  exists S f0 fn,
    f = Some f0 /\ dict_get s info = Some S
    /\ dict_get f0 (functions S) = Some fn
    /\ info' = dict_set s
                 (mkStruct (name S) (fields S)
                    (dict_set f0 (upd fn) (functions S)) (top_lvl_used S))
                 info.
Proof.
  unfold update_function, dict_at.
  destruct (dict_get s info) as [S|] eqn:Es; [|discriminate].
  cbn [of_option bind]. destruct f as [f0|]; [|discriminate].
  destruct (dict_get f0 (functions S)) as [fn|] eqn:Ef; [|discriminate].
  cbn [of_option bind]. intros [= <-]. exists S, f0, fn. auto.
Qed.

Lemma update_struct_twice {V : Type} (info info1 : structs V)
    (s : option string) (u1 u2 : Struct V -> Struct V) :
  update_struct info s u1 = Ok info1 ->
  update_struct info1 s u2 = update_struct info s (fun S => u2 (u1 S)).
Proof.
  intros E. destruct (update_struct_get _ _ _ _ E) as (S & Es & ->).
  unfold update_struct, dict_at. rewrite dict_get_set_eq, Es.
  cbn [of_option bind]. now rewrite dict_set_set.
Qed.

Lemma update_function_twice {V : Type} (info info1 : structs V)
    (s f : option string) (u1 u2 : Function V -> Function V) :
  update_function info s f u1 = Ok info1 ->
  update_function info1 s f u2
  = update_function info s f (fun fn => u2 (u1 fn)).
Proof.
  intros E.
  destruct (update_function_get _ _ _ _ _ E) as (S & f0 & fn & -> & Es & Ef & ->).
  unfold update_function, dict_at. rewrite dict_get_set_eq, Es.
  cbn [of_option bind functions name fields top_lvl_used].
  rewrite dict_get_set_eq, Ef. cbn [of_option bind].
  now rewrite !dict_set_set.
Qed.

Lemma info_counted_set (info : structs nat) (s : option string)
    (S : Struct nat) :
  info_counted info -> struct_counted S -> info_counted (dict_set s S info).
Proof.
  intros Hi HS x X Hx. destruct (eqb_spec s x) as [<-|Hne].
  - rewrite dict_get_set_eq in Hx. congruence.
  - rewrite dict_get_set_neq in Hx by exact Hne. exact (Hi _ _ Hx).
Qed.

Lemma update_struct_counted (info info' : structs nat) (s : option string)
    (upd : Struct nat -> Struct nat) :
  info_counted info ->
  (forall S, struct_counted S -> struct_counted (upd S)) ->
  update_struct info s upd = Ok info' ->
  info_counted info'.
Proof.
  intros Hi Hupd E. destruct (update_struct_get _ _ _ _ E) as (S & Es & ->).
  apply info_counted_set; [assumption|]. apply Hupd. exact (Hi _ _ Es).
Qed.

Lemma update_function_counted (info info' : structs nat)
    (s f : option string) (upd : Function nat -> Function nat) :
  info_counted info ->
  (forall fn, function_counted fn -> function_counted (upd fn)) ->
  update_function info s f upd = Ok info' ->
  info_counted info'.
Proof.
  intros Hi Hupd E.
  destruct (update_function_get _ _ _ _ _ E)
    as (S & f0 & fn & -> & Es & Ef & ->).
  destruct (Hi _ _ Es) as [Hfields Hfuncs].
  apply info_counted_set; [assumption|]. split; [exact Hfields|].
  cbn [functions]. intros g gn Hg. destruct (string_dec f0 g) as [<-|Hne].
  - rewrite dict_get_set_eq in Hg. injection Hg as <-.
    apply Hupd. exact (Hfuncs _ _ Ef).
  - rewrite dict_get_set_neq in Hg by exact Hne. exact (Hfuncs _ _ Hg).
Qed.

Lemma stats_found_function_counted (token : string) (rest : list string)
    (st st' : stats_state) :
  info_counted (structinfo st) ->
  stats_found_function token rest st = Ok st' ->
  info_counted (structinfo st').
Proof.
  intros Hc. unfold stats_found_function.
  destruct (_ && _); [|now intros [= <-]].
  intros E. apply bind_ok in E as (info & E1 & E2). injection E2 as <-.
  cbn [structinfo].
  refine (update_struct_counted _ _ _ _ Hc _ E1).
  intros S [Hf Hfn]. split; [exact Hf|].
  cbn [set_functions functions]. intros g gn Hg.
  destruct (string_dec token g) as [<-|Hne].
  - rewrite dict_get_set_eq in Hg. injection Hg as <-.
    split; apply counted_nil.
  - rewrite dict_get_set_neq in Hg by exact Hne. exact (Hfn _ _ Hg).
Qed.

Lemma set_args_counted (token : string) (fn : Function nat) :
  function_counted fn ->
  function_counted (set_args (increment token (args fn)) fn).
Proof.
  intros [Ha Hv]. split; [|exact Hv]. now apply counted_increment.
Qed.

Lemma set_variables_counted (token : string) (fn : Function nat) :
  function_counted fn ->
  function_counted (set_variables (increment token (variables fn)) fn).
Proof.
  intros [Ha Hv]. split; [exact Ha|]. now apply counted_increment.
Qed.

Lemma declare_variable_counted (token : string) (fn : Function nat) :
  function_counted fn ->
  function_counted (set_variables (dict_set token 1 (variables fn)) fn).
Proof.
  intros [Ha Hv]. split; [exact Ha|]. apply counted_set; [assumption | lia].
Qed.

(** Lines 241-247, from the tables left by line 239. *)
Lemma stats_variables_counted (token : string) (st st' : stats_state)
    (info1 : structs nat) :
  info_counted info1 ->
  (fn <- function_at info1 (struct st) (function st) ;;
   info <- (if dict_mem token (variables fn) then
              update_function info1 (struct st) (function st)
                (fun fn => set_variables (increment token (variables fn)) fn)
            else Ok info1) ;;
   info <- (if negb (entering_function st) && is_name token
               && preceded_by_type info (prev st) (prev_prev st)
            then
              update_function info (struct st) (function st)
                (fun fn => set_variables (dict_set token 1 (variables fn)) fn)
            else Ok info) ;;
   Ok (with_structinfo info st)) = Ok st' ->
  info_counted (structinfo st').
Proof.
  intros H1 E.
  apply bind_ok in E as (fn2 & _ & E).
  apply bind_ok in E as (info2 & E2 & E).
  apply bind_ok in E as (info3 & E3 & E).
  injection E as <-. cbn [with_structinfo structinfo].
  assert (H2 : info_counted info2).
  { destruct (dict_mem token (variables fn2));
      [|injection E2 as <-; exact H1].
    exact (update_function_counted _ _ _ _ _ H1
             (set_variables_counted token) E2). }
  destruct (_ && _ && _); [|injection E3 as <-; exact H2].
  exact (update_function_counted _ _ _ _ _ H2
           (declare_variable_counted token) E3).
Qed.

Lemma stats_in_function_counted (token : string) (st st' : stats_state) :
  info_counted (structinfo st) ->
  stats_in_function token st = Ok st' ->
  info_counted (structinfo st').
Proof.
  intros Hc. unfold stats_in_function.
  destruct (is_some (function st)); [|now intros [= <-]].
  intros E.
  apply bind_ok in E as (fn1 & _ & E).
  apply bind_ok in E as (info1 & E1 & E).
  apply (stats_variables_counted token st st' info1); [|exact E].
  destruct (dict_mem token (args fn1)); [|injection E1 as <-; exact Hc].
  exact (update_function_counted _ _ _ _ _ Hc (set_args_counted token) E1).
Qed.

(** Lines 219-247: an argument registered with count 1 by line 225 is
    counted again by line 239 of the same iteration. *)
Lemma stats_args_counted (token : string) (rest : list string)
    (st st1 st2 st3 : stats_state) :
  info_counted (structinfo st) ->
  stats_record_args token rest st = Ok st1 ->
  stats_found_function token rest st1 = Ok st2 ->
  stats_in_function token st2 = Ok st3 ->
  info_counted (structinfo st3).
Proof.
  intros Hc E1 E2 E3.
  assert (Hplain : info_counted (structinfo st1) ->
                   info_counted (structinfo st3)).
  { intros H1. apply (stats_in_function_counted token st2 st3); [|exact E3].
    exact (stats_found_function_counted token rest st1 st2 H1 E2). }
  unfold stats_record_args in E1.
  destruct (entering_function st) eqn:Een;
    [|injection E1 as <-; now apply Hplain].
  apply bind_ok in E1 as ([pd info] & E1 & E1'). cbv zeta in E1'.
  destruct (String.eqb token "(");
    [injection E1 as _ <-; injection E1' as <-; now apply Hplain|].
  destruct (String.eqb token ")");
    [injection E1 as _ <-; injection E1' as <-; now apply Hplain|].
  destruct (0 <? parenth_depth st)%Z;
    [|injection E1 as _ <-; injection E1' as <-; now apply Hplain].
  apply bind_ok in E1 as (next & Enext & E1).
  destruct (mem next [","; ")"]) eqn:Em; cbn [andb] in E1;
    [|injection E1 as _ <-; injection E1' as <-; now apply Hplain].
  destruct (negb (mem token TYPES));
    [|injection E1 as _ <-; injection E1' as <-; now apply Hplain].
  apply bind_ok in E1 as (info1 & Eu & E1). injection E1 as <- <-.
  injection E1' as <-.
  (* line 231 does not fire: the next token is no opening parenthesis *)
  assert (Hst2 : st2 = mkStats
                         (if (parenth_depth st =? 0)%Z then false else true)
                         (struct st) (function st) (struct_scope st)
                         (function_scope st) (parenth_depth st) info1
                         (prev st) (prev_prev st)).
  { unfold stats_found_function in E2. cbn [structinfo prev prev_prev] in E2.
    destruct (hd_error rest) as [nx|] eqn:Eh; [|discriminate].
    cbn [of_option] in Enext. injection Enext as ->.
    assert (Hn : eqb (Some next) (Some "(") = false).
    { cbn [eqb Eqb_option option_eqb Eqb_string].
      cbn [mem] in Em. cbn [eqb Eqb_string] in Em.
      destruct (String.eqb_spec next ",") as [->|_]; [reflexivity|].
      destruct (String.eqb_spec next ")") as [->|_]; [reflexivity|].
      discriminate. }
    rewrite Hn, andb_false_r in E2. now injection E2 as <-. }
  subst st2. unfold stats_in_function in E3.
  cbn [function struct structinfo entering_function prev prev_prev] in E3.
  destruct (update_function_get _ _ _ _ _ Eu)
    as (S & f0 & fn & Ef0 & Es & Ef & Einfo).
  rewrite Ef0 in E3, Eu. cbn [is_some] in E3.
  apply bind_ok in E3 as (fn1 & Efn1 & E3).
  apply bind_ok in E3 as (info2 & Eu2 & E3).
  assert (Hfn1 : fn1 = set_args (dict_set token 1 (args fn)) fn).
  { rewrite Einfo in Efn1. unfold function_at, dict_at in Efn1.
    rewrite dict_get_set_eq in Efn1. cbn [of_option bind functions] in Efn1.
    rewrite dict_get_set_eq in Efn1. now injection Efn1 as <-. }
  assert (Hmem : dict_mem token (args fn1) = true).
  { rewrite Hfn1. cbn [set_args args]. unfold dict_mem.
    now rewrite dict_get_set_eq. }
  rewrite Hmem in Eu2.
  rewrite (update_function_twice _ _ _ _ _ _ Eu) in Eu2.
  assert (H2 : info_counted info2).
  { refine (update_function_counted _ _ _ _ _ Hc _ Eu2).
    intros g [Ha Hv]. split; [|exact Hv].
    cbn [set_args args]. now apply counted_declared. }
  refine (stats_variables_counted token
            (mkStats (if (parenth_depth st =? 0)%Z then false else true)
               (struct st) (function st) (struct_scope st)
               (function_scope st) (parenth_depth st) info1
               (prev st) (prev_prev st))
            st3 info2 H2 _).
  cbn [function struct structinfo entering_function prev prev_prev].
  rewrite Ef0. exact E3.
Qed.

Lemma stats_enter_struct_counted (token : string) (st : stats_state) :
  info_counted (structinfo st) ->
  info_counted (structinfo (stats_enter_struct token st)).
Proof.
  intros Hc. unfold stats_enter_struct.
  destruct (eqb (prev st) (Some "struct")); [|assumption].
  cbn [structinfo]. apply info_counted_set; [assumption|].
  split; [apply counted_nil|]. intros f fn. discriminate.
Qed.

(** Lines 261-265: a field registered with count 1 by line 262 is counted
    again by line 265. *)
Lemma stats_fields_counted (token : string) (st st' : stats_state) :
  info_counted (structinfo st) ->
  stats_fields token st = Ok st' ->
  info_counted (structinfo st').
Proof.
  intros Hc. unfold stats_fields. intros E.
  apply bind_ok in E as (info1 & E1 & E).
  apply bind_ok in E as (s & Es & E).
  apply bind_ok in E as (info2 & E2 & E).
  injection E as <-. cbn [with_structinfo structinfo].
  destruct (_ && _ && _ && _).
  - destruct (update_struct_get _ _ _ _ E1) as (S & ES & Einfo).
    assert (Hs : s = set_fields (dict_set token 1 (fields S)) S).
    { rewrite Einfo in Es. unfold dict_at in Es.
      rewrite dict_get_set_eq in Es. now injection Es as <-. }
    assert (Hmem : dict_mem token (fields s) = true).
    { rewrite Hs. cbn [set_fields fields]. unfold dict_mem.
      now rewrite dict_get_set_eq. }
    rewrite Hmem in E2. rewrite (update_struct_twice _ _ _ _ _ E1) in E2.
    refine (update_struct_counted _ _ _ _ Hc _ E2).
    intros X [Hf Hfn]. split; [|exact Hfn].
    cbn [set_fields fields]. now apply counted_declared.
  - injection E1 as <-.
    destruct (dict_mem token (fields s)); [|injection E2 as <-; exact Hc].
    refine (update_struct_counted _ _ _ _ Hc _ E2).
    intros X [Hf Hfn]. split; [|exact Hfn].
    cbn [set_fields fields]. now apply counted_increment.
Qed.

Lemma stats_top_lvl_used_counted (token : string) (st st' : stats_state) :
  info_counted (structinfo st) ->
  stats_top_lvl_used token st = Ok st' ->
  info_counted (structinfo st').
Proof.
  intros Hc. unfold stats_top_lvl_used. intros E.
  apply bind_ok in E as (top & _ & E).
  destruct (dict_mem token (functions top)); [|now injection E as <-].
  apply bind_ok in E as (s & _ & E).
  destruct (negb (mem token (top_lvl_used s)) && is_some (struct st));
    [|now injection E as <-].
  apply bind_ok in E as (info & E1 & E). injection E as <-.
  cbn [with_structinfo structinfo].
  refine (update_struct_counted _ _ _ _ Hc _ E1). intros X HX. exact HX.
Qed.

Lemma stats_step_counted (st st' : stats_state) (token : string)
    (rest : list string) :
  info_counted (structinfo st) ->
  stats_step st token rest = Ok st' ->
  info_counted (structinfo st').
Proof.
  intros Hc E. unfold stats_step in E.
  apply bind_ok in E as (st1 & E1 & E).
  apply bind_ok in E as (st2 & E2 & E).
  apply bind_ok in E as (st3 & E3 & E).
  apply bind_ok in E as (st4 & E4 & E).
  apply bind_ok in E as (st5 & E5 & E).
  injection E as <-. cbn [stats_shift structinfo].
  apply (stats_top_lvl_used_counted _ _ _) in E5; [assumption|].
  apply (stats_fields_counted _ _ _) in E4; [assumption|].
  apply stats_enter_struct_counted.
  assert (H3 : info_counted (structinfo st3)).
  { apply (stats_args_counted token rest _ st1 st2 st3) in E1;
      [assumption | | assumption | assumption].
    unfold stats_exit_function. now destruct (_ && _). }
  unfold stats_exit_struct. now destruct (is_some (struct st3)).
Qed.

Lemma stats_loop_counted (tokens : list string) (st st' : stats_state) :
  info_counted (structinfo st) ->
  stats_loop st tokens = Ok st' ->
  info_counted (structinfo st').
Proof.
  revert st. induction tokens as [|t tokens IH]; intros st Hc E.
  - now injection E as <-.
  - cbn [stats_loop] in E. apply bind_ok in E as (st1 & E1 & E).
    exact (IH _ (stats_step_counted _ _ _ _ Hc E1) E).
Qed.

(** X19. In the tables [get_stats] returns no field and no argument has a
    count below 2, and no local variable a count below 1: the iteration
    that registers a field or an argument with count 1 also counts it as a
    use, so that a field or argument that occurs once is counted twice. *)
Theorem get_stats_least_counts (tokens : list string) (info : structs nat)
    (s : option string) (S : Struct nat) :
  get_stats tokens = Ok info ->
  dict_get s info = Some S ->
  (forall x n, dict_get x (fields S) = Some n -> 2 <= n)
  /\ (forall f fn,
        dict_get f (functions S) = Some fn ->
        (forall a n, dict_get a (args fn) = Some n -> 2 <= n)
        /\ (forall v n, dict_get v (variables fn) = Some n -> 1 <= n)).
Proof.
  unfold get_stats. intros E Hs. apply bind_ok in E as (st & E1 & E).
  injection E as <-.
  refine (stats_loop_counted tokens stats_init st _ E1 s S Hs).
  intros x X Hx. cbn in Hx. destruct x; [discriminate|].
  injection Hx as <-. split; [apply counted_nil|]. intros f fn. discriminate.
Qed.

Lemma get_stats_least_counts_witness :
  let tokens :=
    ["struct"; "P"; "{"; "int"; "x"; ";"; "int"; "f"; "("; "int"; "a"; ")";
     "{"; "int"; "v"; ";"; "}"; "}"; ";"] in
  let S : Struct nat :=
    mkStruct "P" [("x", 2)] [("f", mkFunction [("a", 2)] [("v", 1)])] [] in
  let info : structs nat := [(None, new_Struct "Top Level"); (Some "P", S)] in
  get_stats tokens = Ok info
  /\ dict_get (Some "P") info = Some S
  /\ (forall x n, dict_get x (fields S) = Some n -> 2 <= n)
  /\ (forall f fn,
        dict_get f (functions S) = Some fn ->
        (forall a n, dict_get a (args fn) = Some n -> 2 <= n)
        /\ (forall v n, dict_get v (variables fn) = Some n -> 1 <= n)).
Proof.
  cbv zeta.
  set (S := mkStruct "P" [("x", 2)]
              [("f", mkFunction [("a", 2)] [("v", 1)])] []).
  set (info := [(None, new_Struct "Top Level"); (Some "P", S)]).
  set (tokens :=
    ["struct"; "P"; "{"; "int"; "x"; ";"; "int"; "f"; "("; "int"; "a"; ")";
     "{"; "int"; "v"; ";"; "}"; "}"; ";"]).
  assert (E : get_stats tokens = Ok info) by (vm_compute; reflexivity).
  assert (Hs : dict_get (Some "P") info = Some S) by reflexivity.
  exact (conj E (conj Hs (get_stats_least_counts tokens info _ S E Hs))).
Defined.

(** ** The references to top-level functions *)

Lemma dict_mem_set {K V : Type} `{Eqb K} (k x : K) (v : V) (d : dict K V) :
  dict_mem x d = true -> dict_mem x (dict_set k v d) = true.
Proof.
  intros Hx. apply dict_mem_keys. rewrite dict_keys_set.
  apply dict_mem_keys in Hx.
  destruct (dict_mem k d); [assumption|]. apply in_or_app. now left.
Qed.

Lemma references_set (info : structs nat) (s : option string)
    (S1 : Struct nat) :
  references_ok info ->
  (forall top, dict_get None info = Some top ->
     NoDup (top_lvl_used S1)
     /\ Forall (fun f => dict_mem f (functions top) = true)
          (top_lvl_used S1)) ->
  (s = None ->
   top_lvl_used S1 = []
   /\ forall top, dict_get None info = Some top ->
        forall f, dict_mem f (functions top) = true ->
                  dict_mem f (functions S1) = true) ->
  references_ok (dict_set s S1 info).
Proof.
  intros (top & Htop & H) H1 H2. destruct s as [name|].
  - exists top. split; [now rewrite dict_get_set_neq by discriminate|].
    intros x X Hx. destruct (eqb_spec (Some name) x) as [<-|Hne].
    + rewrite dict_get_set_eq in Hx. injection Hx as <-.
      destruct (H1 top Htop) as [Hnd Hall].
      split; [exact Hnd|]. split; [exact Hall | discriminate].
    + rewrite dict_get_set_neq in Hx by exact Hne. exact (H _ _ Hx).
  - destruct (H2 eq_refl) as [Hnil Hmono].
    exists S1. split; [apply dict_get_set_eq|].
    intros x X Hx. destruct (eqb_spec (@None string) x) as [<-|Hne].
    + rewrite dict_get_set_eq in Hx. injection Hx as <-.
      rewrite Hnil. split; [constructor|]. split; [constructor | reflexivity].
    + rewrite dict_get_set_neq in Hx by exact Hne.
      destruct (H _ _ Hx) as (Hnd & Hall & Hnone).
      split; [exact Hnd|]. split; [|exact Hnone].
      eapply Forall_impl; [|exact Hall]. intros f. now apply Hmono.
Qed.

(** An update of a record that keeps its reference list and the names of
    its functions. *)
Lemma references_same (info : structs nat) (s : option string)
    (S0 S1 : Struct nat) :
  references_ok info -> dict_get s info = Some S0 ->
  top_lvl_used S1 = top_lvl_used S0 ->
  (forall f, dict_mem f (functions S0) = true ->
             dict_mem f (functions S1) = true) ->
  references_ok (dict_set s S1 info).
Proof.
  intros Hinv Hs Hused Hmono. apply references_set; [exact Hinv | |].
  - intros top Htop. destruct Hinv as (top' & Htop' & H).
    assert (top' = top) by congruence. subst top'.
    destruct (H _ _ Hs) as (Hnd & Hall & _). rewrite Hused. auto.
  - intros ->. destruct Hinv as (top' & Htop' & H).
    destruct (H _ _ Hs) as (_ & _ & Hnone). rewrite Hused.
    split; [now apply Hnone|].
    intros top Htop f Hf. apply Hmono.
    assert (top = S0) by congruence. now subst top.
Qed.

Lemma update_struct_refs (info info' : structs nat) (s : option string)
    (upd : Struct nat -> Struct nat) :
  references_ok info ->
  (forall S, top_lvl_used (upd S) = top_lvl_used S) ->
  (forall S f, dict_mem f (functions S) = true ->
               dict_mem f (functions (upd S)) = true) ->
  update_struct info s upd = Ok info' ->
  references_ok info'.
Proof.
  intros Hinv Hused Hmono E.
  destruct (update_struct_get _ _ _ _ E) as (S0 & Es & ->).
  apply (references_same info s S0); auto.
Qed.

Lemma update_function_refs (info info' : structs nat) (s f : option string)
    (upd : Function nat -> Function nat) :
  references_ok info ->
  update_function info s f upd = Ok info' ->
  references_ok info'.
Proof.
  intros Hinv E.
  destruct (update_function_get _ _ _ _ _ E)
    as (S0 & f0 & fn & -> & Es & Ef & ->).
  apply (references_same info s S0); [assumption | assumption | reflexivity|].
  intros g Hg. cbn [functions]. now apply dict_mem_set.
Qed.

Lemma stats_record_args_refs (token : string) (rest : list string)
    (st st' : stats_state) :
  references_ok (structinfo st) ->
  stats_record_args token rest st = Ok st' ->
  references_ok (structinfo st').
Proof.
  intros Hc. unfold stats_record_args.
  destruct (entering_function st); [|now intros [= <-]].
  intros E. apply bind_ok in E as ([pd info] & E1 & E2).
  injection E2 as <-. cbn [structinfo].
  destruct (String.eqb token "("); [now injection E1 as _ <-|].
  destruct (String.eqb token ")"); [now injection E1 as _ <-|].
  destruct (0 <? parenth_depth st)%Z; [|now injection E1 as _ <-].
  apply bind_ok in E1 as (next & _ & E1).
  destruct (mem next [","; ")"] && negb (mem token TYPES));
    [|now injection E1 as _ <-].
  apply bind_ok in E1 as (info1 & E1 & E3). injection E3 as _ <-.
  exact (update_function_refs _ _ _ _ _ Hc E1).
Qed.

Lemma stats_found_function_refs (token : string) (rest : list string)
    (st st' : stats_state) :
  references_ok (structinfo st) ->
  stats_found_function token rest st = Ok st' ->
  references_ok (structinfo st').
Proof.
  intros Hc. unfold stats_found_function.
  destruct (_ && _); [|now intros [= <-]].
  intros E. apply bind_ok in E as (info & E1 & E2). injection E2 as <-.
  cbn [structinfo].
  refine (update_struct_refs _ _ _ _ Hc _ _ E1); [reflexivity|].
  intros S f Hf. cbn [set_functions functions]. now apply dict_mem_set.
Qed.

Lemma stats_in_function_refs (token : string) (st st' : stats_state) :
  references_ok (structinfo st) ->
  stats_in_function token st = Ok st' ->
  references_ok (structinfo st').
Proof.
  intros Hc. unfold stats_in_function.
  destruct (is_some (function st)); [|now intros [= <-]].
  intros E.
  apply bind_ok in E as (fn1 & _ & E).
  apply bind_ok in E as (info1 & E1 & E).
  apply bind_ok in E as (fn2 & _ & E).
  apply bind_ok in E as (info2 & E2 & E).
  apply bind_ok in E as (info3 & E3 & E).
  injection E as <-. cbn [with_structinfo structinfo].
  assert (H1 : references_ok info1).
  { destruct (dict_mem token (args fn1));
      [exact (update_function_refs _ _ _ _ _ Hc E1)
      | injection E1 as <-; exact Hc]. }
  assert (H2 : references_ok info2).
  { destruct (dict_mem token (variables fn2));
      [exact (update_function_refs _ _ _ _ _ H1 E2)
      | injection E2 as <-; exact H1]. }
  destruct (_ && _ && _);
    [exact (update_function_refs _ _ _ _ _ H2 E3)
    | injection E3 as <-; exact H2].
Qed.

Lemma stats_enter_struct_refs (token : string) (st : stats_state) :
  references_ok (structinfo st) ->
  references_ok (structinfo (stats_enter_struct token st)).
Proof.
  intros Hc. unfold stats_enter_struct.
  destruct (eqb (prev st) (Some "struct")); [|assumption].
  cbn [structinfo]. apply references_set; [exact Hc | | discriminate].
  intros top _. split; constructor.
Qed.

Lemma stats_fields_refs (token : string) (st st' : stats_state) :
  references_ok (structinfo st) ->
  stats_fields token st = Ok st' ->
  references_ok (structinfo st').
Proof.
  intros Hc. unfold stats_fields. intros E.
  apply bind_ok in E as (info1 & E1 & E).
  apply bind_ok in E as (s & _ & E).
  apply bind_ok in E as (info2 & E2 & E).
  injection E as <-. cbn [with_structinfo structinfo].
  assert (H1 : references_ok info1).
  { destruct (_ && _ && _ && _);
      [refine (update_struct_refs _ _ _ _ Hc _ _ E1); [reflexivity | auto]
      | injection E1 as <-; exact Hc]. }
  destruct (dict_mem token (fields s));
    [refine (update_struct_refs _ _ _ _ H1 _ _ E2); [reflexivity | auto]
    | injection E2 as <-; exact H1].
Qed.

(** Lines 268-269: the one place that extends a reference list. *)
Lemma stats_top_lvl_used_refs (token : string) (st st' : stats_state) :
  references_ok (structinfo st) ->
  stats_top_lvl_used token st = Ok st' ->
  references_ok (structinfo st').
Proof.
  intros Hc. unfold stats_top_lvl_used. intros E.
  apply bind_ok in E as (top & Etop & E).
  destruct (dict_mem token (functions top)) eqn:Emem;
    [|now injection E as <-].
  apply bind_ok in E as (s & Es & E).
  destruct (mem token (top_lvl_used s)) eqn:Eused; cbn [negb andb] in E;
    [now injection E as <-|].
  destruct (struct st) as [name|] eqn:Est; cbn [is_some] in E;
    [|now injection E as <-].
  apply bind_ok in E as (info & E1 & E). injection E as <-.
  cbn [with_structinfo structinfo].
  destruct (update_struct_get _ _ _ _ E1) as (S0 & ES & ->).
  unfold dict_at in Etop, Es. rewrite ES in Es. injection Es as <-.
  destruct (dict_get None (structinfo st)) as [top0|] eqn:Etop0;
    [|discriminate].
  injection Etop as ->.
  apply references_set; [exact Hc | | discriminate].
  intros top' Htop'. assert (top' = top) by congruence. subst top'.
  destruct Hc as (top1 & Htop1 & H).
  assert (top1 = top) by congruence. subst top1.
  destruct (H _ _ ES) as (Hnd & Hall & _).
  cbn [set_top_lvl_used top_lvl_used]. split.
  - apply NoDup_app; [assumption | repeat constructor; simpl; tauto|].
    intros x Hx [<-|[]]. apply mem_In in Hx. congruence.
  - apply Forall_app. split; [exact Hall|]. now constructor.
Qed.

Lemma stats_step_refs (st st' : stats_state) (token : string)
    (rest : list string) :
  references_ok (structinfo st) ->
  stats_step st token rest = Ok st' ->
  references_ok (structinfo st').
Proof.
  intros Hc E. unfold stats_step in E.
  apply bind_ok in E as (st1 & E1 & E).
  apply bind_ok in E as (st2 & E2 & E).
  apply bind_ok in E as (st3 & E3 & E).
  apply bind_ok in E as (st4 & E4 & E).
  apply bind_ok in E as (st5 & E5 & E).
  injection E as <-. cbn [stats_shift structinfo].
  apply (stats_top_lvl_used_refs _ _ _) in E5; [assumption|].
  apply (stats_fields_refs _ _ _) in E4; [assumption|].
  apply stats_enter_struct_refs.
  assert (H3 : references_ok (structinfo st3)).
  { apply (stats_in_function_refs _ _ _) in E3; [assumption|].
    apply (stats_found_function_refs _ _ _ _) in E2; [assumption|].
    apply (stats_record_args_refs _ _ _ _) in E1; [assumption|].
    unfold stats_exit_function. now destruct (_ && _). }
  unfold stats_exit_struct. now destruct (is_some (struct st3)).
Qed.

Lemma stats_loop_refs (tokens : list string) (st st' : stats_state) :
  references_ok (structinfo st) ->
  stats_loop st tokens = Ok st' ->
  references_ok (structinfo st').
Proof.
  revert st. induction tokens as [|t tokens IH]; intros st Hc E.
  - now injection E as <-.
  - cbn [stats_loop] in E. apply bind_ok in E as (st1 & E1 & E).
    exact (IH _ (stats_step_refs _ _ _ _ Hc E1) E).
Qed.

(** X20. What a reference list of [get_stats] holds: a name in the
    [top_lvl_used] list of a record is listed there once, the record is
    that of a struct, never the top level, and the name is a key of the
    functions of the top-level record, that is a function declared at top
    level before the reference. *)
Theorem get_stats_references (tokens : list string) (info : structs nat)
    (s : option string) (S : Struct nat) (f : string) :
  get_stats tokens = Ok info ->
  dict_get s info = Some S ->
  In f (top_lvl_used S) ->
  (exists name, s = Some name)
  /\ (exists top, dict_get None info = Some top
                  /\ dict_mem f (functions top) = true)
  /\ NoDup (top_lvl_used S).
Proof.
  unfold get_stats. intros E Hs Hf. apply bind_ok in E as (st & E1 & E).
  injection E as <-.
  assert (Hinit : references_ok (structinfo stats_init)).
  { exists (new_Struct "Top Level"). split; [reflexivity|].
    intros x X Hx. cbn in Hx. destruct x; [discriminate|].
    injection Hx as <-. split; [constructor|].
    split; [constructor | reflexivity]. }
  destruct (stats_loop_refs tokens stats_init st Hinit E1)
    as (top & Htop & H).
  destruct (H _ _ Hs) as (Hnd & Hall & Hnone).
  split; [|split; [|exact Hnd]].
  - destruct s as [name|]; [now exists name|].
    rewrite (Hnone eq_refl) in Hf. contradiction.
  - exists top. split; [exact Htop|].
    rewrite Forall_forall in Hall. now apply Hall.
Qed.

Lemma get_stats_references_witness :
  let tokens :=
    ["int"; "h"; "("; ")"; "{"; "return"; "2"; ";"; "}";
     "struct"; "S"; "{"; "int"; "a"; "("; ")"; "{"; "return"; "h"; "(";
     ")"; "+"; "h"; "("; ")"; ";"; "}"; "}"; ";"] in
  let S : Struct nat := mkStruct "S" [] [("a", new_Function)] ["h"] in
  let info : structs nat :=
    [(None, mkStruct "Top Level" [] [("h", new_Function)] []);
     (Some "S", S)] in
  get_stats tokens = Ok info
  /\ dict_get (Some "S") info = Some S
  /\ In "h" (top_lvl_used S)
  /\ (exists name, Some "S" = Some name)
  /\ (exists top, dict_get None info = Some top
                  /\ dict_mem "h" (functions top) = true)
  /\ NoDup (top_lvl_used S).
Proof.
  cbv zeta.
  set (S := mkStruct "S" [] [("a", @new_Function nat)] ["h"]).
  set (info := [(None, mkStruct "Top Level" [] [("h", new_Function)] []);
                (Some "S", S)]).
  set (tokens :=
    ["int"; "h"; "("; ")"; "{"; "return"; "2"; ";"; "}";
     "struct"; "S"; "{"; "int"; "a"; "("; ")"; "{"; "return"; "h"; "(";
     ")"; "+"; "h"; "("; ")"; ";"; "}"; "}"; ";"]).
  assert (E : get_stats tokens = Ok info) by (vm_compute; reflexivity).
  assert (Hs : dict_get (Some "S") info = Some S) by reflexivity.
  assert (Hf : In "h" (top_lvl_used S)) by (left; reflexivity).
  exact (conj E
           (conj Hs
              (conj Hf (get_stats_references tokens info _ S "h" E Hs Hf)))).
Defined.

(** ** A line comment in plain code *)

Lemma end_offset_line_comment (body post : list string) :
  ~ In newline body ->
  end_offset ["/"; "/"] [newline] false
    ("/" :: "/" :: body ++ newline :: post)
  = 2 + List.length body.
Proof.
  intros Hbody. unfold end_offset.
  assert (Hs : starts_with ["/"; "/"] ("/" :: "/" :: body ++ newline :: post)
               = true) by reflexivity.
  rewrite Hs. unfold find_end.
  rewrite (find_seq_first _ _ _ (2 + List.length body)); [reflexivity | | |].
  - cbn [List.length]. rewrite length_app. cbn [List.length]. lia.
  - apply list_eqb_eq. symmetry.
    change ("/" :: "/" :: body ++ newline :: post)
      with (("/" :: "/" :: body) ++ newline :: post).
    apply (slice_one_app ("/" :: "/" :: body) newline post).
  - intros i Hi. cbn [List.length] in Hi.
    destruct (list_eqb [newline]
                (slice i (List.length [newline])
                   ("/" :: "/" :: body ++ newline :: post))) eqn:E;
      [|reflexivity].
    apply list_eqb_eq in E. symmetry in E.
    destruct i as [|[|i]]; [lia | lia |].
    unfold slice in E. cbn [skipn List.length] in E.
    assert (Hsk : skipn i (body ++ newline :: post)
                  = skipn i body ++ newline :: post).
    { rewrite skipn_app. replace (i - List.length body) with 0 by lia.
      reflexivity. }
    rewrite Hsk in E.
    destruct (skipn i body) as [|x r] eqn:Es.
    + assert (H : List.length (skipn i body) = 0) by now rewrite Es.
      rewrite length_skipn in H. lia.
    + simpl in E. injection E as ->.
      exfalso. apply Hbody. apply (In_skipn newline i). rewrite Es. now left.
Qed.

Lemma group_loop_step (fuel : nat) (start end_ : list string)
    (include_end include_space : bool) (t : string) (rest : list string) :
  group_loop (S fuel) start end_ include_end include_space (t :: rest)
  = (out <- group_loop fuel start end_ include_end include_space
              (skipn (end_offset start end_ include_end (t :: rest))
                 (t :: rest)) ;;
     Ok (grouped_tokens include_space
           (end_offset start end_ include_end (t :: rest)) (t :: rest)
         :: out)).
Proof. reflexivity. Qed.

(** The pass for line comments on one comment in code without a slash. *)
Lemma group_tokens_line_comment (pre body post : list string) :
  ~ In "/" pre -> ~ In newline body -> ~ In "/" post ->
  group_tokens (pre ++ "/" :: "/" :: body ++ newline :: post)
    ["/"; "/"] [newline] false true
  = Ok (pre ++ ("//" ++ join body)%string :: newline :: post).
Proof.
  intros Hpre Hbody Hpost. unfold group_tokens.
  rewrite length_app.
  rewrite group_loop_skip by exact Hpre.
  cbn [List.length]. rewrite group_loop_step.
  rewrite end_offset_line_comment by exact Hbody.
  assert (Hl : "/" :: "/" :: body ++ newline :: post
               = ("/" :: "/" :: body) ++ newline :: post) by reflexivity.
  assert (Hn : 2 + List.length body = List.length ("/" :: "/" :: body))
    by reflexivity.
  assert (Hskip : skipn (2 + List.length body)
                    ("/" :: "/" :: body ++ newline :: post)
                  = newline :: post).
  { rewrite Hl, Hn. apply skipn_length_app. }
  assert (Hfirst : firstn (2 + List.length body)
                     ("/" :: "/" :: body ++ newline :: post)
                   = "/" :: "/" :: body).
  { rewrite Hl, Hn. apply firstn_length_app. }
  rewrite Hskip. rewrite group_loop_plain.
  - cbn [bind]. unfold grouped_tokens. rewrite Hfirst. reflexivity.
  - intros [E|Hin]; [discriminate | contradiction].
  - rewrite length_app. cbn [List.length]. lia.
Qed.

(** The pass for block comments finds no end marker after a line comment
    in code without a slash. *)
Lemma group_tokens_block_none (pre body post : list string) :
  ~ In "/" pre -> ~ In "/" body -> ~ In "/" post ->
  group_tokens (pre ++ "/" :: "/" :: body ++ newline :: post)
    ["/"; "*"] ["*"; "/"] true true
  = Ok (pre ++ "/" :: "/" :: body ++ newline :: post).
Proof.
  intros Hpre Hbody Hpost.
  assert (Htail : ~ In "/" (body ++ newline :: post)).
  { intros Hin. apply in_app_or in Hin as [Hin|[E|Hin]];
      [auto | discriminate | auto]. }
  unfold group_tokens. rewrite length_app.
  rewrite group_loop_skip by exact Hpre.
  cbn [List.length].
  rewrite group_loop_step_one
    by (apply end_offset_no_start; reflexivity).
  rewrite group_loop_step_one.
  - rewrite group_loop_plain by (exact Htail || lia). reflexivity.
  - apply end_offset_no_end. intros p Hp E.
    cbn [List.length] in Hp, E. unfold slice in E.
    destruct p as [|p]; [lia|]. cbn [skipn] in E.
    destruct (skipn p (body ++ newline :: post)) as [|a [|b r]] eqn:Es;
      try discriminate.
    cbn [firstn] in E. injection E as -> ->.
    apply Htail. apply (In_skipn "/" p). rewrite Es. right. now left.
Qed.

Lemma stripped_line_comment (s : string) : stripped ("//" ++ s) = true.
Proof. unfold stripped. simpl. now destruct s. Qed.

(** X21. A line comment in plain code is removed: when the code before and
    after the comment holds no token that can start a group, and the
    comment text holds no slash, double quote, bracket, hash or newline
    token (a single quote is allowed), [group] merges the two slashes and
    the text up to the newline into one token, and [strip] drops it with
    the newline, leaving what [strip] leaves of the code around. *)
Theorem line_comment_removed (pre body post : list string) :
  plain pre -> plain post ->
  Forall (fun t => ~ In t [dquote; "/"; "["; "#"; newline]) body ->
  group (pre ++ "/" :: "/" :: body ++ newline :: post)
  = Ok (pre ++ ("//" ++ join body)%string :: newline :: post)
  /\ strip (pre ++ ("//" ++ join body)%string :: newline :: post)
     = strip (pre ++ post).
Proof.
  intros Hpre Hpost Hbody. rewrite Forall_forall in Hbody.
  assert (Hb : forall s0, In s0 [dquote; "/"; "["; "#"; newline] ->
                          ~ In s0 body).
  { intros s0 Hs Hin. exact (Hbody s0 Hin Hs). }
  assert (Hp : forall s0 l, plain l -> In s0 marker_heads -> ~ In s0 l).
  { intros s0 l Hl Hs. exact (plain_not_in s0 l Hs Hl). }
  set (l := pre ++ "/" :: "/" :: body ++ newline :: post).
  set (l' := pre ++ ("//" ++ join body)%string :: newline :: post).
  assert (Hl : forall s0, In s0 [dquote; "["; "#"] -> ~ In s0 l).
  { intros s0 Hs Hin. unfold l in Hin.
    assert (Hh : In s0 marker_heads)
      by (simpl in Hs |- *; intuition).
    assert (Hs' : In s0 [dquote; "/"; "["; "#"; newline])
      by (simpl in Hs |- *; intuition).
    apply in_app_or in Hin as [Hin|[E|[E|Hin]]].
    - exact (Hp s0 pre Hpre Hh Hin).
    - subst s0. simpl in Hs. intuition discriminate.
    - subst s0. simpl in Hs. intuition discriminate.
    - apply in_app_or in Hin as [Hin|[E|Hin]].
      + exact (Hb s0 Hs' Hin).
      + subst s0. simpl in Hs. intuition discriminate.
      + exact (Hp s0 post Hpost Hh Hin). }
  assert (Hq : ~ In "'" l').
  { intros Hin. unfold l' in Hin.
    assert (Hh : In "'" marker_heads) by (simpl; auto 6).
    apply in_app_or in Hin as [Hin|[E|[E|Hin]]].
    - exact (Hp "'" pre Hpre Hh Hin).
    - discriminate.
    - discriminate.
    - exact (Hp "'" post Hpost Hh Hin). }
  assert (Hslash : forall x, plain x -> ~ In "/" x)
    by (intros x Hx; apply (Hp "/" x Hx); simpl; auto).
  split.
  - unfold group. fold l.
    rewrite group_tokens_plain by (apply Hl; simpl; auto). cbn [bind].
    unfold l at 1.
    rewrite group_tokens_block_none;
      [|now apply Hslash | apply Hb; simpl; auto | now apply Hslash].
    cbn [bind]. fold l.
    rewrite group_tokens_plain by (apply Hl; simpl; auto). cbn [bind].
    rewrite group_tokens_plain by (apply Hl; simpl; auto). cbn [bind].
    rewrite group_tokens_plain by (apply Hl; simpl; auto). cbn [bind].
    unfold l.
    rewrite group_tokens_line_comment;
      [|now apply Hslash | apply Hb; simpl; auto 6 | now apply Hslash].
    cbn [bind]. fold l'. now apply group_tokens_plain.
  - unfold l', strip. rewrite !filter_app. cbn [filter].
    rewrite stripped_line_comment. reflexivity.
Qed.

Lemma line_comment_removed_witness :
  let pre := ["int"; " "; "x"; ";"; " "] in
  let body := [" "; "it"; "'"; "s"; " "; "x"] in
  let post := ["x"; "="; "1"; ";"] in
  plain pre /\ plain post
  /\ Forall (fun t => ~ In t [dquote; "/"; "["; "#"; newline]) body
  /\ group (pre ++ "/" :: "/" :: body ++ newline :: post)
     = Ok (pre ++ ("//" ++ join body)%string :: newline :: post)
  /\ strip (pre ++ ("//" ++ join body)%string :: newline :: post)
     = strip (pre ++ post).
Proof.
  cbv zeta.
  assert (Hpre : plain ["int"; " "; "x"; ";"; " "])
    by (repeat constructor; simpl; intuition discriminate).
  assert (Hpost : plain ["x"; "="; "1"; ";"])
    by (repeat constructor; simpl; intuition discriminate).
  assert (Hbody : Forall (fun t => ~ In t [dquote; "/"; "["; "#"; newline])
                    [" "; "it"; "'"; "s"; " "; "x"])
    by (repeat constructor; simpl; intuition discriminate).
  exact (conj Hpre
           (conj Hpost
              (conj Hbody (line_comment_removed _ _ _ Hpre Hpost Hbody)))).
Defined.
